(** * Detection deduplication and temporal-stability tracking

    A shallow embedding of [detect_and_capture.py]: the box adapter, the
    non-max suppression pass, the IoU used by the tracker, and one
    iteration of the main loop (track association, aging, stability
    classification), followed by the properties of the specification.

    Numbers.  Python integers are [Z].  The script is modelled twice.  In
    the first model the float64 values of the NumPy part and the IoU values
    are exact rationals [Q], extended for NumPy's division with nan and the
    two infinities ([npfloat]), and [np.argsort] is a stable sort by
    insertion.  The statements made on it are about which rows are picked,
    which tracks are matched, counters and ids, or about the sign, the
    bounds and the symmetries of an IoU, and the inputs evaluated on it
    have IoU values far from the thresholds they are compared with.  The
    second model ([Doubles]) rounds every float64 operation to the nearest
    double and takes [np.argsort] as any function that sorts; the
    statements on the boxes that non-max suppression returns and on the
    order in which it returns them are made on it.  The first model is the
    second without rounding and with the sort by insertion.  Overflow to
    an infinity and the wrap of [astype(int)] outside the 64-bit range are
    not modelled.

    Objects.  The dict of a track is a mutable object that [tracked] and
    [new_tracked] share and that the loops update in place; the model
    keeps these dicts in a store and the tables map ids to addresses. *)

From Stdlib Require Import ZArith QArith Qminmax Qround Qpower List Bool Lia.
From Stdlib Require Import Permutation Sorted.
From Stdlib Require String Ascii DecimalString DecimalZ DecimalPos.
From Equations Require Import Equations.
Import ListNotations.

(** ** Boxes and adapters *)

(** A row [x1, y1, x2, y2] of Python integers. *)
Definition ibox : Type := (Z * Z * Z * Z)%type.

(** A row [x1, y1, x2, y2] of the float array built by [np.array(boxes, dtype=float)]. *)
Definition fbox : Type := (Q * Q * Q * Q)%type.

(** A detector rectangle [x, y, w, h]. *)
Definition rect : Type := (Z * Z * Z * Z)%type.

Definition rect_to_xyxy (r : rect) : ibox :=
  let '(x, y, w, h) := r in (x, y, x + w, y + h)%Z.

(** [astype(int)] on one float: truncation toward zero. *)
Definition trunc (v : Q) : Z := Z.quot (Qnum v) (Zpos (Qden v)).

(** The numbers of an integer row; in the first model this is its
    conversion to floats. *)
Definition to_float (b : ibox) : fbox :=
  let '(x1, y1, x2, y2) := b in
  (inject_Z x1, inject_Z y1, inject_Z x2, inject_Z y2).

(** [row.astype(int)]. *)
Definition astype_int (b : fbox) : ibox :=
  let '(x1, y1, x2, y2) := b in (trunc x1, trunc y1, trunc x2, trunc y2).

(** ** NumPy division and comparison *)

Inductive npfloat : Type :=
| Fin (q : Q)
| PInf
| NInf
| NaN.

Definition Qltb (a b : Q) : bool := negb (Qle_bool b a).

Definition Qis_zero (a : Q) : bool := Qeq_bool a 0.

(** [a / b] on float64 arrays: no exception, a zero divisor gives nan or an
    infinity. *)
Definition np_div (a b : Q) : npfloat :=
  if Qis_zero b then
    if Qis_zero a then NaN
    else if Qltb 0 a then PInf else NInf
  else Fin (a / b).

(** [v <= t] for a finite [t]; every comparison with nan is false. *)
Definition np_le (v : npfloat) (t : Q) : bool :=
  match v with
  | Fin q => Qle_bool q t
  | NInf => true
  | PInf => false
  | NaN => false
  end.

(** ** Non-max suppression *)

Module NMS.

Definition col_x1 (b : fbox) : Q := let '(a, _, _, _) := b in a.
Definition col_y1 (b : fbox) : Q := let '(_, a, _, _) := b in a.
Definition col_x2 (b : fbox) : Q := let '(_, _, a, _) := b in a.
Definition col_y2 (b : fbox) : Q := let '(_, _, _, a) := b in a.

(** One entry of [areas = (x2 - x1 + 1) * (y2 - y1 + 1)]. *)
Definition area (b : fbox) : Q :=
  (col_x2 b - col_x1 b + 1) * (col_y2 b - col_y1 b + 1).

Definition zero_row : fbox := (0, 0, 0, 0).

Definition row (boxes : list fbox) (i : nat) : fbox := nth i boxes zero_row.

(** [np.argsort], as a sort by insertion in which an index moves left only
    past strictly greater keys, so that equal keys stay in input order.
    The default kind of [np.argsort] is not stable: this is one of the
    orders it can return.  The general statements on this model use no more
    than that the result lists the indices in ascending order of their
    keys; what depends on the order of equal keys is stated on [Doubles],
    where [argsort] is any such function. *)
Fixpoint insert_idx (keys : list Q) (i : nat) (sorted : list nat) : list nat :=
  match sorted with
  | [] => [i]
  | j :: rest =>
      if Qltb (nth i keys 0) (nth j keys 0)
      then i :: j :: rest
      else j :: insert_idx keys i rest
  end.

Definition argsort (keys : list Q) : list nat :=
  fold_left (fun sorted i => insert_idx keys i sorted) (seq 0 (length keys)) [].

(** [np.argsort(keys)[::-1]]. *)
Definition ranking (keys : list Q) : list nat := rev (argsort keys).

(** The entry of [iou] for the picked index [i] and a remaining index [j]
    (lines 72-80). *)
Definition iou_rows (bi bj : fbox) : npfloat :=
  let xx1 := Qmax (col_x1 bi) (col_x1 bj) in
  let yy1 := Qmax (col_y1 bi) (col_y1 bj) in
  let xx2 := Qmin (col_x2 bi) (col_x2 bj) in
  let yy2 := Qmin (col_y2 bi) (col_y2 bj) in
  let w := Qmax 0 (xx2 - xx1 + 1) in
  let h := Qmax 0 (yy2 - yy1 + 1) in
  let inter := w * h in
  np_div inter (area bi + area bj - inter).

Definition keeps (boxes : list fbox) (thr : Q) (i j : nat) : bool :=
  np_le (iou_rows (row boxes i) (row boxes j)) thr.

(** The [while len(idxs) > 0] loop; the result is [pick]. *)
Equations nms_loop (boxes : list fbox) (thr : Q) (idxs : list nat) : list nat
  by wf (length idxs) lt :=
  nms_loop boxes thr [] := [];
  nms_loop boxes thr (i :: rest) :=
    i :: nms_loop boxes thr (filter (keeps boxes thr i) rest).
Next Obligation.
  simpl. apply Nat.lt_succ_r. apply filter_length_le.
Qed.

(** [None] stands for the [IndexError] raised when [scores] is longer than
    [boxes]. *)
Definition non_max_suppression
  (boxes : list fbox) (scores : option (list Q)) (iou_threshold : Q)
  : option (list ibox) :=
  if (length boxes =? 0)%nat then Some []
  else
    let keys := match scores with
                | None => map area boxes
                | Some s => s
                end in
    if (length keys <=? length boxes)%nat then
      let pick := nms_loop boxes iou_threshold (ranking keys) in
      Some (map (fun i => astype_int (row boxes i)) pick)
    else None.

End NMS.

(** ** Configuration *)

Definition STABLE_FRAMES_REQUIRED : Z := 3.
Definition MAX_MISSES : Z := 1.
Definition NMS_OVERLAP_THRESH : Q := 4 # 10.

(** The literal [0.3] of the match test (line 160). *)
Definition MATCH_THRESH : Q := 3 # 10.

(** ** IoU of the tracker *)

Definition iou_xyxy (a b : ibox) : Q :=
  let '(ax1, ay1, ax2, ay2) := a in
  let '(bx1, by1, bx2, by2) := b in
  let inter_x1 := Z.max ax1 bx1 in
  let inter_y1 := Z.max ay1 by1 in
  let inter_x2 := Z.min ax2 bx2 in
  let inter_y2 := Z.min ay2 by2 in
  let iw := Z.max 0 (inter_x2 - inter_x1 + 1) in
  let ih := Z.max 0 (inter_y2 - inter_y1 + 1) in
  let inter := (iw * ih)%Z in
  let area_a := ((ax2 - ax1 + 1) * (ay2 - ay1 + 1))%Z in
  let area_b := ((bx2 - bx1 + 1) * (by2 - by1 + 1))%Z in
  let union := (area_a + area_b - inter)%Z in
  if (union =? 0)%Z then 0 else inject_Z inter / inject_Z union.

(** Python's [a / b] on integers: [None] stands for [ZeroDivisionError]. *)
Definition py_truediv (a b : Z) : option Q :=
  if (b =? 0)%Z then None else Some (inject_Z a / inject_Z b).

(** The same lines with the exception of the division made explicit. *)
Definition iou_xyxy_checked (a b : ibox) : option Q :=
  let '(ax1, ay1, ax2, ay2) := a in
  let '(bx1, by1, bx2, by2) := b in
  let inter_x1 := Z.max ax1 bx1 in
  let inter_y1 := Z.max ay1 by1 in
  let inter_x2 := Z.min ax2 bx2 in
  let inter_y2 := Z.min ay2 by2 in
  let iw := Z.max 0 (inter_x2 - inter_x1 + 1) in
  let ih := Z.max 0 (inter_y2 - inter_y1 + 1) in
  let inter := (iw * ih)%Z in
  let area_a := ((ax2 - ax1 + 1) * (ay2 - ay1 + 1))%Z in
  let area_b := ((bx2 - bx1 + 1) * (by2 - by1 + 1))%Z in
  let union := (area_a + area_b - inter)%Z in
  if (union =? 0)%Z then Some 0 else py_truediv inter union.

(** ** Insertion-ordered dictionaries with integer keys *)

Module Dict.

Definition t (V : Type) : Type := list (Z * V).

Fixpoint get {V} (d : t V) (k : Z) : option V :=
  match d with
  | [] => None
  | (k', v) :: rest => if (k' =? k)%Z then Some v else get rest k
  end.

(** [d[k] = v]: an existing key keeps its position, a new key goes last. *)
Fixpoint set {V} (d : t V) (k : Z) (v : V) : t V :=
  match d with
  | [] => [(k, v)]
  | (k', v') :: rest =>
      if (k' =? k)%Z then (k', v) :: rest else (k', v') :: set rest k v
  end.

Definition keys {V} (d : t V) : list Z := map fst d.

End Dict.

(** ** Track records and the object store *)

(** The dict ["count", "last_xyxy", "misses"] of one track. *)
Record info : Type := mkInfo {
  count : Z;
  last_xyxy : ibox;
  misses : Z
}.

(** Track dicts are mutable objects shared between [tracked] and
    [new_tracked]; the store holds them, the tables hold addresses. *)
Definition ref : Type := nat.

Definition store : Type := list info.

Definition null_info : info := mkInfo 0 (0, 0, 0, 0)%Z 0.

Definition deref (h : store) (r : ref) : info := nth r h null_info.

Fixpoint assign (h : store) (r : ref) (v : info) : store :=
  match h, r with
  | [], _ => []
  | _ :: rest, O => v :: rest
  | x :: rest, S r' => x :: assign rest r' v
  end.

(** The state carried from one frame to the next. *)
Record tracker : Type := mkTracker {
  heap : store;
  tracked : Dict.t ref;
  next_track_id : Z
}.

Definition initial : tracker := mkTracker [] [] 0.

(** ** One iteration of the main loop *)

(** The state of the association loop (lines 146-171); [tracked] itself is
    not reassigned before line 182. *)
Record frame : Type := mkFrame {
  f_heap : store;
  f_new_tracked : Dict.t ref;
  f_used_track_ids : list Z;
  f_next_track_id : Z
}.

Definition mem (k : Z) (s : list Z) : bool := existsb (Z.eqb k) s.

Definition add (k : Z) (s : list Z) : list Z := if mem k s then s else k :: s.

(** The body of the inner loop (lines 154-158). *)
Definition best_step (h : store) (box : ibox)
  (acc : option Z * Q) (item : Z * ref) : option Z * Q :=
  let '(best_id, best_iou) := acc in
  let '(tid, r) := item in
  let score := iou_xyxy box (last_xyxy (deref h r)) in
  if Qltb best_iou score then (Some tid, score) else (best_id, best_iou).

Definition best_match (h : store) (trk : Dict.t ref) (box : ibox) : option Z * Q :=
  fold_left (best_step h box) trk (None, 0).

(** The body of the loop over the candidate boxes (lines 150-171). *)
Definition process_box (trk : Dict.t ref) (f : frame) (box : ibox) : frame :=
  let '(best_id, best_iou) := best_match (f_heap f) trk box in
  match (if Qltb MATCH_THRESH best_iou then best_id else None) with
  | Some bid =>
      match Dict.get trk bid with
      | Some r =>
          let i := deref (f_heap f) r in
          let i' := mkInfo (count i + 1) box 0 in
          mkFrame (assign (f_heap f) r i')
                  (Dict.set (f_new_tracked f) bid r)
                  (add bid (f_used_track_ids f))
                  (f_next_track_id f)
      | None => f (* KeyError: not reachable, [bid] is a key of [trk] *)
      end
  | None =>
      let r := length (f_heap f) in
      mkFrame (f_heap f ++ [mkInfo 1 box 0])
              (Dict.set (f_new_tracked f) (f_next_track_id f) r)
              (f_used_track_ids f)
              (f_next_track_id f + 1)
  end.

Definition match_phase (s : tracker) (boxes : list ibox) : frame :=
  fold_left (process_box (tracked s))
            boxes
            (mkFrame (heap s) [] [] (next_track_id s)).

(** The body of the aging loop (lines 175-179). *)
Definition age_step (f : frame) (item : Z * ref) : frame :=
  let '(tid, r) := item in
  if mem tid (f_used_track_ids f) then f
  else
    let i := deref (f_heap f) r in
    let i' := mkInfo (count i) (last_xyxy i) (misses i + 1) in
    let h := assign (f_heap f) r i' in
    if (misses i' <=? MAX_MISSES)%Z
    then mkFrame h (Dict.set (f_new_tracked f) tid r)
                 (f_used_track_ids f) (f_next_track_id f)
    else mkFrame h (f_new_tracked f) (f_used_track_ids f) (f_next_track_id f).

Definition age_phase (trk : Dict.t ref) (f : frame) : frame :=
  fold_left age_step trk f.

(** Lines 146-182: the new table from the old one and the candidate boxes. *)
Definition associate (s : tracker) (boxes : list ibox) : tracker :=
  let f := age_phase (tracked s) (match_phase s boxes) in
  mkTracker (f_heap f) (f_new_tracked f) (f_next_track_id f).

(** Lines 140-182, from the detector's rectangles. *)
Definition main_iteration (s : tracker) (detections : list rect) : option tracker :=
  let boxes_xyxy := map rect_to_xyxy detections in
  match NMS.non_max_suppression (map to_float boxes_xyxy) None NMS_OVERLAP_THRESH with
  | Some boxes => Some (associate s boxes)
  | None => None
  end.

(** ** Reading the table *)

(** [tracked.items()] with the track dicts read from the store. *)
Definition items (s : tracker) : list (Z * info) :=
  map (fun '(tid, r) => (tid, deref (heap s) r)) (tracked s).

Definition track (s : tracker) (tid : Z) : option info :=
  option_map (deref (heap s)) (Dict.get (tracked s) tid).

(** The test of lines 188 and 210. *)
Definition is_stable (i : info) : bool := (STABLE_FRAMES_REQUIRED <=? count i)%Z.

(** The tracks visited by the capture loop (lines 209-210). *)
Definition stable_tracks (s : tracker) : list (Z * info) :=
  filter (fun '(_, i) => is_stable i) (items s).

(** ** Vocabulary of the properties *)

Module NMSSpec.
Import NMS.

(** The order of [np.argsort]: ascending by key, equal keys by ascending
    index. *)
Definition before (keys : list Q) (j i : nat) : Prop :=
  nth j keys 0 < nth i keys 0 \/ (nth j keys 0 == nth i keys 0 /\ (j < i)%nat).

(** The numerator and the divisor of [iou] (lines 79-80). *)
Definition inter_rows (bi bj : fbox) : Q :=
  Qmax 0 (Qmin (col_x2 bi) (col_x2 bj) - Qmax (col_x1 bi) (col_x1 bj) + 1)
  * Qmax 0 (Qmin (col_y2 bi) (col_y2 bj) - Qmax (col_y1 bi) (col_y1 bj) + 1).

Definition union_rows (bi bj : fbox) : Q :=
  area bi + area bj - inter_rows bi bj.

(** The IoU of two rows is a finite number that is at most the threshold. *)
Definition iou_at_most (thr : Q) (a b : fbox) : Prop :=
  exists q, iou_rows a b = Fin q /\ q <= thr.

(** Index [j] passes the test of line 83 when [i] is picked. *)
Definition kept (boxes : list fbox) (thr : Q) (i j : nat) : Prop :=
  keeps boxes thr i j = true.

(** The list [pick] of a call without scores. *)
Definition picked (boxes : list fbox) (thr : Q) : list nat :=
  nms_loop boxes thr (ranking (map area boxes)).

Definition zero_ibox : ibox := (0, 0, 0, 0)%Z.

(** Equality of float rows, coordinate by coordinate. *)
Definition feq (a b : fbox) : Prop :=
  col_x1 a == col_x1 b /\ col_y1 a == col_y1 b /\
  col_x2 a == col_x2 b /\ col_y2 a == col_y2 b.


End NMSSpec.

Module TrackSpec.
Local Open Scope Z_scope.

(** The tables a session can reach, from any candidate boxes. *)
Inductive reachable : tracker -> Prop :=
| reach_initial : reachable initial
| reach_frame (s : tracker) (boxes : list ibox) :
    reachable s -> reachable (associate s boxes).

(** A session: the table after the given frames, each frame given by its
    candidate boxes. *)
Definition session (s : tracker) (frames : list (list ibox)) : tracker :=
  fold_left associate frames s.

Definition ids (s : tracker) : list Z := Dict.keys (tracked s).

(** The ids in [used_track_ids] when the association loop ends. *)
Definition matched (s : tracker) (boxes : list ibox) (tid : Z) : bool :=
  mem tid (f_used_track_ids (match_phase s boxes)).

(** The miss count of a track of the old table after this frame. *)
Definition miss_count_after (s : tracker) (boxes : list ibox) (tid : Z) (i : info) : Z :=
  if matched s boxes tid then 0 else misses i + 1.

(** Every track has its own dict in the store and an id below the counter. *)
Definition well_formed (s : tracker) : Prop :=
  NoDup (Dict.keys (tracked s))
  /\ NoDup (map snd (tracked s))
  /\ Forall (fun item => (snd item < length (heap s))%nat
                         /\ (fst item < next_track_id s)%Z) (tracked s).

(** What holds while the association loop runs on the table [s]. *)
Record match_inv (s : tracker) (f : frame) : Prop := {
  mi_heap : (length (heap s) <= length (f_heap f))%nat;
  mi_next : (next_track_id s <= f_next_track_id f)%Z;
  mi_fresh :
    Z.of_nat (length (f_heap f)) - Z.of_nat (length (heap s))
    = (f_next_track_id f - next_track_id s)%Z;
  mi_new : forall k r,
      Dict.get (f_new_tracked f) k = Some r ->
      (Dict.get (tracked s) k = Some r /\ mem k (f_used_track_ids f) = true)
      \/ ((next_track_id s <= k < f_next_track_id f)%Z
          /\ Z.of_nat r = (Z.of_nat (length (heap s)) + (k - next_track_id s))%Z
          /\ misses (deref (f_heap f) r) = 0%Z);
  mi_used : forall k,
      mem k (f_used_track_ids f) = true ->
      exists r, Dict.get (tracked s) k = Some r
                /\ Dict.get (f_new_tracked f) k = Some r
                /\ misses (deref (f_heap f) r) = 0%Z;
  mi_kept : forall k r,
      Dict.get (tracked s) k = Some r ->
      mem k (f_used_track_ids f) = false ->
      deref (f_heap f) r = deref (heap s) r;
  mi_keys : NoDup (Dict.keys (f_new_tracked f))
}.

(** The track dict after one more miss (line 176). *)
Definition aged (i : info) : info := mkInfo (count i) (last_xyxy i) (misses i + 1).

End TrackSpec.

(** ** Further code of the script *)

(** The inverse adapter (lines 39-41); [int] truncates a float and leaves
    an integer as it is. *)
Definition xyxy_to_rect (xy : fbox) : rect :=
  let '(x1, y1, x2, y2) := xy in
  (trunc x1, trunc y1, trunc (x2 - x1), trunc (y2 - y1)).

(** The clipping of a stable box before the crop (lines 213-214), for a
    frame of [width] columns and [height] rows. *)
Definition clip_box (width height : Z) (b : ibox) : ibox :=
  let '(x1, y1, x2, y2) := b in
  (Z.max 0 x1, Z.max 0 y1, Z.min (width - 1) x2, Z.min (height - 1) y2)%Z.

(** A bound of a slice on an axis of [n] entries: a negative bound counts
    from the end, and every bound is brought into [0, n]. *)
Definition slice_bound (n i : Z) : Z :=
  (if i <? 0 then Z.max 0 (i + n) else Z.min i n)%Z.

(** The number of entries of [a[lo:hi]] on an axis of [n] entries. *)
Definition slice_len (n lo hi : Z) : Z :=
  Z.max 0 (slice_bound n hi - slice_bound n lo)%Z.

(** The shape (rows, columns) of [crop = frame[y1:y2, x1:x2]] (line 215)
    after the clipping. *)
Definition crop_shape (width height : Z) (b : ibox) : Z * Z :=
  let '(x1, y1, x2, y2) := clip_box width height b in
  (slice_len height y1 y2, slice_len width x1 x2).

(** The files written for the stable tracks when [c] is pressed (lines
    206-218). *)
Module Capture.
Import Stdlib.Strings.String.
Local Open Scope string_scope.

Definition OUTPUT_DIR : string := "captured_faces".

(** [str(n)], as an f-string formats an integer. *)
Definition str (n : Z) : string :=
  DecimalString.NilZero.string_of_int (Z.to_int n).

(** [os.path.join(a, b)] for a relative name [b] and a directory [a] that
    is not empty and does not end in the separator [sep] of the platform. *)
Definition path_join (sep a b : string) : string := a ++ sep ++ b.

Definition stable_filename (sep : string) (timestamp tid : Z) : string :=
  path_join sep OUTPUT_DIR
            ("stable_face_" ++ str timestamp ++ "_" ++ str tid ++ ".jpg").

(** [cv2.imwrite] raises on an image without pixels. *)
Definition empty_crop (shape : Z * Z) : bool :=
  ((fst shape =? 0) || (snd shape =? 0))%Z.

(** The loop of lines 209-218 over the stable tracks: one entry per file
    written, its name and the shape of the crop, and whether
    [cv2.imwrite] raised.  The exception is not caught: it leaves this loop
    and the main loop.  [timestamp] is the value of
    [int(time.time() * 1000)] at the key press, [width] and [height] are
    [frame.shape[1]] and [frame.shape[0]]. *)
Fixpoint write_crops (sep : string) (width height timestamp : Z)
  (tracks : list (Z * info)) : list (string * (Z * Z)) * bool :=
  match tracks with
  | [] => ([], false)
  | (tid, i) :: rest =>
      let shape := crop_shape width height (last_xyxy i) in
      if empty_crop shape then ([], true)
      else
        let '(files, raised) := write_crops sep width height timestamp rest in
        ((stable_filename sep timestamp tid, shape) :: files, raised)
  end.

Definition capture (sep : string) (width height timestamp : Z) (s : tracker)
  : list (string * (Z * Z)) * bool :=
  write_crops sep width height timestamp (stable_tracks s).

End Capture.

(** ** The capture loop of [dataset_builder.py] *)

Module Builder.
Local Open Scope Z_scope.

Definition TARGET_IMAGES : Z := 60.
Definition STABLE_FRAMES : Z := 3.

(** The key codes [ord('q')], [ord('s')] and the space bar. *)
Definition KEY_Q : Z := 113.
Definition KEY_S : Z := 115.
Definition KEY_SPACE : Z := 32.

(** The loop variables [captured], [auto_mode], [stable_count]. *)
Record state : Type := mkState {
  captured : Z;
  auto_mode : bool;
  stable_count : Z
}.

Definition start : state := mkState 0 true 0.

(** The sort key [r[2] * r[3]]. *)
Definition face_area (r : rect) : Z := let '(_, _, w, h) := r in w * h.

(** [sorted(faces, key=..., reverse=True)]: largest first, and faces of
    equal area in their input order ([sorted] is stable, also reversed). *)
Fixpoint insert_face (r : rect) (sorted : list rect) : list rect :=
  match sorted with
  | [] => [r]
  | q :: rest =>
      if face_area q <? face_area r then r :: q :: rest
      else q :: insert_face r rest
  end.

Definition sorted_faces (faces : list rect) : list rect :=
  fold_left (fun sorted r => insert_face r sorted) faces [].

Definition no_face : rect := (0, 0, 0, 0).

(** One sample written: the rectangle [faces[0]] of the crop and the index
    [captured] in the file name. *)
Definition sample : Type := (rect * Z)%type.

(** One pass through the body of the [while] loop (lines 67-122): [ret]
    and [faces] are what the camera and the detector gave, [key] is
    [cv2.waitKey(1) & 0xFF].  The result is the new loop variables, the
    sample written if any, and whether the loop is left. *)
Definition step (st : state) (ret : bool) (faces : list rect) (key : Z)
  : state * option sample * bool :=
  if negb ret then (st, None, false)
  else
    let found := negb (length faces =? 0)%nat in
    let faces := if found then sorted_faces faces else faces in
    let sc := if found then stable_count st + 1 else 0 in
    if key =? KEY_Q then (mkState (captured st) (auto_mode st) sc, None, true)
    else
      let am := if key =? KEY_SPACE then negb (auto_mode st) else auto_mode st in
      let '(cap, sc, saved) :=
        if am then
          if (STABLE_FRAMES <=? sc) && found
          then (captured st + 1, 0, Some (hd no_face faces, captured st))
          else (captured st, sc, None)
        else
          if (key =? KEY_S) && found
          then (captured st + 1, sc, Some (hd no_face faces, captured st))
          else (captured st, sc, None) in
      (mkState cap am sc, saved, TARGET_IMAGES <=? cap).

(** The frames of one run, each with what the camera, the detector and the
    keyboard gave. *)
Definition event : Type := (bool * list rect * Z)%type.

(** The loop over the given frames: the loop variables when it is left (or
    the frames run out) and the samples written, in order. *)
Fixpoint run (st : state) (events : list event) : state * list sample :=
  match events with
  | [] => (st, [])
  | (ret, faces, key) :: rest =>
      let '(st', saved, stop) := step st ret faces key in
      let out := match saved with Some x => [x] | None => [] end in
      if stop then (st', out)
      else let '(st'', more) := run st' rest in (st'', out ++ more)
  end.

(** The indices [c], [c + 1], ..., [c + n - 1]. *)
Fixpoint count_from (c : Z) (n : nat) : list Z :=
  match n with
  | O => []
  | S n' => c :: count_from (c + 1) n'
  end.

(** [r] is the first face of maximal area in [faces]. *)
Definition first_largest (faces : list rect) (r : rect) : Prop :=
  exists pre post,
    faces = pre ++ r :: post
    /\ Forall (fun q => face_area q < face_area r) pre
    /\ Forall (fun q => face_area q <= face_area r) post.

End Builder.

Module MoreSpec.
Local Open Scope Z_scope.

(** The integer quantities of [iou_xyxy]. *)
Definition box_area (a : ibox) : Z :=
  let '(x1, y1, x2, y2) := a in (x2 - x1 + 1) * (y2 - y1 + 1).

Definition inter_area (a b : ibox) : Z :=
  let '(ax1, ay1, ax2, ay2) := a in
  let '(bx1, by1, bx2, by2) := b in
  Z.max 0 (Z.min ax2 bx2 - Z.max ax1 bx1 + 1)
  * Z.max 0 (Z.min ay2 by2 - Z.max ay1 by1 + 1).

Definition union_area (a b : ibox) : Z :=
  box_area a + box_area b - inter_area a b.

(** The box holds at least one pixel. *)
Definition proper (a : ibox) : Prop :=
  let '(x1, y1, x2, y2) := a in x1 <= x2 /\ y1 <= y2.

(** The two boxes have a pixel in common. *)
Definition share_pixel (a b : ibox) : Prop :=
  let '(ax1, ay1, ax2, ay2) := a in
  let '(bx1, by1, bx2, by2) := b in
  Z.max ax1 bx1 <= Z.min ax2 bx2 /\ Z.max ay1 by1 <= Z.min ay2 by2.

(** The box moved by [dx] columns and [dy] rows. *)
Definition shift (dx dy : Z) (a : ibox) : ibox :=
  let '(x1, y1, x2, y2) := a in (x1 + dx, y1 + dy, x2 + dx, y2 + dy).

(** The score the inner loop computes for the track at address [r]. *)
Definition score_of (h : store) (box : ibox) (r : ref) : Q :=
  iou_xyxy box (last_xyxy (deref h r)).

(** Counts and misses of every track of a table are in range. *)
Definition in_range (s : tracker) : Prop :=
  forall tid i, track s tid = Some i ->
                1 <= count i /\ 0 <= misses i <= MAX_MISSES.

(** The ids [n], [n + 1], ... given to the boxes of a list. *)
Fixpoint number_from (n : Z) (boxes : list ibox) : list (Z * info) :=
  match boxes with
  | [] => []
  | b :: rest => (n, mkInfo 1 b 0) :: number_from (n + 1) rest
  end.

(** The entries [new_tracked] receives for new tracks: ids from [n],
    addresses from [r]. *)
Fixpoint fresh_entries (n : Z) (r : ref) (boxes : list ibox) : Dict.t ref :=
  match boxes with
  | [] => []
  | _ :: rest => (n, r) :: fresh_entries (n + 1) (S r) rest
  end.

(** The dict of a new track. *)
Definition new_info (b : ibox) : info := mkInfo 1 b 0.

(** What the association loop keeps about counts and boxes, once the
    candidates [done] have been processed on the table [s]. *)
Record count_inv (s : tracker) (done : list ibox) (f : frame) : Prop := {
  ci_bound : forall k r,
      Dict.get (tracked s) k = Some r ->
      count (deref (heap s) r) <= count (deref (f_heap f) r)
                               <= count (deref (heap s) r) + Z.of_nat (length done);
  ci_matched : forall k r,
      Dict.get (tracked s) k = Some r ->
      mem k (f_used_track_ids f) = true ->
      count (deref (heap s) r) < count (deref (f_heap f) r)
      /\ In (last_xyxy (deref (f_heap f) r)) done;
  ci_fresh : forall k r,
      Dict.get (f_new_tracked f) k = Some r ->
      next_track_id s <= k ->
      exists b, In b done /\ deref (f_heap f) r = new_info b
}.

End MoreSpec.

(** ** Rounding to the nearest double *)

(** Round to nearest, ties to even, with a significand of 53 bits and the
    exponents of float64 from the subnormal numbers up; a result beyond
    the largest double is not replaced by an infinity. *)
Module Float64.

Definition pow2 (e : Z) : Q := 2 ^ e.

(** The binary logarithm of a positive number, rounded down: the [k] with
    [2^k <= q < 2^(k+1)]. *)
Definition ilog2 (q : Q) : Z :=
  let k := (Z.log2 (Qnum q) - Z.log2 (Zpos (Qden q)))%Z in
  if Qle_bool (pow2 k) q then k else (k - 1)%Z.

(** The exponent of the last bit of the doubles around a positive [q]: 52
    places below the leading bit of [q], and -1074 for the subnormal
    numbers. *)
Definition expo (q : Q) : Z := Z.max (-1074) (ilog2 q - 52).

(** Rounding to the nearest integer, a tie to the even one. *)
Definition rne (q : Q) : Z :=
  let f := Qfloor q in
  match Qcompare (q - inject_Z f) (1 # 2) with
  | Lt => f
  | Gt => (f + 1)%Z
  | Eq => if Z.even f then f else (f + 1)%Z
  end.

(** The double nearest to a positive number. *)
Definition round_pos (q : Q) : Q :=
  let e := expo q in inject_Z (rne (q / pow2 e)) * pow2 e.

(** The double nearest to a number, as the conversion of a Python integer
    to float64 and every float64 operation return it.  The fraction is
    reduced first, so that the result depends on the number alone. *)
Definition round53 (q : Q) : Q :=
  let r := Qred q in
  match Qcompare r 0 with
  | Eq => 0
  | Gt => round_pos r
  | Lt => - round_pos (- r)
  end.

(** What the statements use of a rounding [fl]: it depends on the number
    alone, it keeps the order, and it leaves a double as it is, that is, a
    number [m / 2^k] with a significand [m] of at most 53 bits and [k] up
    to 1074. *)
Record rounding (fl : Q -> Q) : Prop := {
  fl_proper : forall p q, p == q -> fl p == fl q;
  fl_monotone : forall p q, p <= q -> fl p <= fl q;
  fl_exact : forall m k : Z,
      (Z.abs m <= 2 ^ 53)%Z -> (0 <= k <= 1074)%Z ->
      fl (inject_Z m * pow2 (- k)) == inject_Z m * pow2 (- k)
}.

End Float64.

(** ** The script on doubles *)

(** [non_max_suppression] and [iou_xyxy] once more, with the rounding of
    every float64 operation and with [np.argsort] left open: [fl] rounds a
    number to the nearest double and [argsort] is any function that
    returns the indices in ascending order of their keys.  The default
    kind of [np.argsort] is not stable, so nothing is fixed about the order
    of equal keys. *)
Module Doubles.

(** The [while len(idxs) > 0] loop for a given test of line 83. *)
Equations suppress (test : nat -> nat -> bool) (idxs : list nat) : list nat
  by wf (length idxs) lt :=
  suppress test [] := [];
  suppress test (i :: rest) := i :: suppress test (filter (test i) rest).
Next Obligation.
  simpl. apply Nat.lt_succ_r. apply filter_length_le.
Qed.

Section Model.

Variable fl : Q -> Q.
Variable argsort : list Q -> list nat.

(** One row of [np.array(boxes, dtype=float)]. *)
Definition to_double (b : fbox) : fbox :=
  let '(x1, y1, x2, y2) := b in (fl x1, fl y1, fl x2, fl y2).

(** One entry of [areas] (line 59): two subtractions, two additions and a
    product, each rounded. *)
Definition area (b : fbox) : Q :=
  fl (fl (fl (NMS.col_x2 b - NMS.col_x1 b) + 1)
      * fl (fl (NMS.col_y2 b - NMS.col_y1 b) + 1)).

(** [a / b] on float64 arrays, the quotient rounded. *)
Definition np_div (a b : Q) : npfloat :=
  if Qis_zero b then
    if Qis_zero a then NaN
    else if Qltb 0 a then PInf else NInf
  else Fin (fl (a / b)).

(** The entry of [iou] for the picked row and a remaining row (lines
    72-80). *)
Definition iou_rows (bi bj : fbox) : npfloat :=
  let xx1 := Qmax (NMS.col_x1 bi) (NMS.col_x1 bj) in
  let yy1 := Qmax (NMS.col_y1 bi) (NMS.col_y1 bj) in
  let xx2 := Qmin (NMS.col_x2 bi) (NMS.col_x2 bj) in
  let yy2 := Qmin (NMS.col_y2 bi) (NMS.col_y2 bj) in
  let w := Qmax 0 (fl (fl (xx2 - xx1) + 1)) in
  let h := Qmax 0 (fl (fl (yy2 - yy1) + 1)) in
  let inter := fl (w * h) in
  np_div inter (fl (fl (area bi + area bj) - inter)).

Definition keeps (rows : list fbox) (thr : Q) (i j : nat) : bool :=
  np_le (iou_rows (NMS.row rows i) (NMS.row rows j)) thr.

(** [boxes] holds the numbers of the argument, Python integers or floats,
    and [np.array(boxes, dtype=float)] rounds them; [iou_threshold] is
    converted in the comparison of line 83.  [None] stands for the
    [IndexError] raised when [scores] is longer than [boxes]. *)
Definition non_max_suppression
  (boxes : list fbox) (scores : option (list Q)) (iou_threshold : Q)
  : option (list ibox) :=
  if (length boxes =? 0)%nat then Some []
  else
    let rows := map to_double boxes in
    let keys := match scores with
                | None => map area rows
                | Some s => s
                end in
    if (length keys <=? length rows)%nat then
      let pick := suppress (keeps rows (fl iou_threshold)) (rev (argsort keys)) in
      Some (map (fun i => astype_int (NMS.row rows i)) pick)
    else None.

(** [iou_xyxy] (lines 105-120): the integers are exact and the division
    of line 120 returns the double nearest to the quotient. *)
Definition iou_xyxy (a b : ibox) : Q :=
  let '(ax1, ay1, ax2, ay2) := a in
  let '(bx1, by1, bx2, by2) := b in
  let inter_x1 := Z.max ax1 bx1 in
  let inter_y1 := Z.max ay1 by1 in
  let inter_x2 := Z.min ax2 bx2 in
  let inter_y2 := Z.min ay2 by2 in
  let iw := Z.max 0 (inter_x2 - inter_x1 + 1) in
  let ih := Z.max 0 (inter_y2 - inter_y1 + 1) in
  let inter := (iw * ih)%Z in
  let area_a := ((ax2 - ax1 + 1) * (ay2 - ay1 + 1))%Z in
  let area_b := ((bx2 - bx1 + 1) * (by2 - by1 + 1))%Z in
  let union := (area_a + area_b - inter)%Z in
  if (union =? 0)%Z then 0 else fl (inject_Z inter / inject_Z union).

End Model.

(** [argsort] returns the indices of the keys, each once, in ascending
    order of the keys. *)
Definition sorts (argsort : list Q -> list nat) : Prop :=
  forall keys,
    Permutation (argsort keys) (seq 0 (length keys))
    /\ StronglySorted (fun i j => nth i keys 0 <= nth j keys 0) (argsort keys).

(** The numerator and the divisor of [iou] (lines 79-80). *)
Definition inter_of (fl : Q -> Q) (a b : fbox) : Q :=
  fl (Qmax 0 (fl (fl (Qmin (NMS.col_x2 a) (NMS.col_x2 b)
                      - Qmax (NMS.col_x1 a) (NMS.col_x1 b)) + 1))
      * Qmax 0 (fl (fl (Qmin (NMS.col_y2 a) (NMS.col_y2 b)
                        - Qmax (NMS.col_y1 a) (NMS.col_y1 b)) + 1))).

Definition union_of (fl : Q -> Q) (a b : fbox) : Q :=
  fl (fl (area fl a + area fl b) - inter_of fl a b).

(** The list [pick] of a call without scores. *)
Definition picked (fl : Q -> Q) (argsort : list Q -> list nat)
  (boxes : list fbox) (thr : Q) : list nat :=
  let rows := map (to_double fl) boxes in
  suppress (keeps fl rows (fl thr)) (rev (argsort (map (area fl) rows))).

(** The row of the float array for an integer box. *)
Definition row_of (fl : Q -> Q) (b : ibox) : fbox := to_double fl (to_float b).

(** The IoU of two rows, as computed, is a double that is at most the
    double of the threshold. *)
Definition iou_at_most (fl : Q -> Q) (thr : Q) (a b : fbox) : Prop :=
  exists q, iou_rows fl a b = Fin q /\ q <= fl thr.

(** Integers that are doubles: absolute value at most 2^53. *)
Definition exact_int (z : Z) : Prop := (Z.abs z <= 2 ^ 53)%Z.

Definition exact_box (b : ibox) : Prop :=
  let '(x1, y1, x2, y2) := b in
  exact_int x1 /\ exact_int y1 /\ exact_int x2 /\ exact_int y2.

(** Coordinates of absolute value at most 2^24: every intermediate value
    of the IoU is an integer below 2^53. *)
Definition pixel_box (b : ibox) : Prop :=
  let '(x1, y1, x2, y2) := b in
  (Z.abs x1 <= 2 ^ 24 /\ Z.abs y1 <= 2 ^ 24
   /\ Z.abs x2 <= 2 ^ 24 /\ Z.abs y2 <= 2 ^ 24)%Z.

End Doubles.

(** * Properties *)

(** ** Rational comparisons *)

Lemma Qltb_lt (a b : Q) : Qltb a b = true <-> a < b.
Proof.
  unfold Qltb. rewrite negb_true_iff. split.
  - intros H. apply Qnot_le_lt. intros Hle.
    apply Qle_bool_iff in Hle. congruence.
  - intros H. destruct (Qle_bool b a) eqn:E; [|reflexivity].
    apply Qle_bool_iff in E. exfalso. exact (Qlt_not_le _ _ H E).
Qed.

Lemma Qltb_ge (a b : Q) : Qltb a b = false <-> b <= a.
Proof.
  unfold Qltb. rewrite negb_false_iff. apply Qle_bool_iff.
Qed.



Lemma trunc_inject_Z (z : Z) : trunc (inject_Z z) = z.
Proof. unfold trunc. simpl. apply Z.quot_1_r. Qed.


(** ** The IoU of the tracker *)

Lemma iou_xyxy_no_exception (a b : ibox) :
  iou_xyxy_checked a b = Some (iou_xyxy a b).
Proof.
  destruct a as [[[ax1 ay1] ax2] ay2], b as [[[bx1 by1] bx2] by2].
  unfold iou_xyxy_checked, iou_xyxy, py_truediv.
  destruct (_ =? 0)%Z; reflexivity.
Qed.

(** A box with [x2 < x1] or [y2 < y1] overlaps nothing. *)
Lemma iou_xyxy_degenerate (a b : ibox) :
  (let '(x1, y1, x2, y2) := a in (x2 < x1 \/ y2 < y1)%Z) ->
  iou_xyxy a b == 0 /\ iou_xyxy b a == 0.
Proof.
  destruct a as [[[ax1 ay1] ax2] ay2], b as [[[bx1 by1] bx2] by2].
  intros Hdeg. unfold iou_xyxy.
  assert (E1 : (Z.max 0 (Z.min ax2 bx2 - Z.max ax1 bx1 + 1)
                * Z.max 0 (Z.min ay2 by2 - Z.max ay1 by1 + 1) = 0)%Z)
    by (destruct Hdeg; nia).
  assert (E2 : (Z.max 0 (Z.min bx2 ax2 - Z.max bx1 ax1 + 1)
                * Z.max 0 (Z.min by2 ay2 - Z.max by1 ay1 + 1) = 0)%Z)
    by (destruct Hdeg; nia).
  rewrite E1, E2. split; destruct (_ =? 0)%Z; try reflexivity;
    unfold Qdiv; rewrite Qmult_0_l; reflexivity.
Qed.

(** ** Dictionaries and the store *)

Module DictFacts.
Import Dict.

Section WithValues.

Context {V : Type}.
Implicit Types (d : Dict.t V) (k : Z) (v : V).

Lemma get_set_eq d k v : get (set d k v) k = Some v.
Proof.
  induction d as [|[k' v'] d IH]; simpl.
  - now rewrite Z.eqb_refl.
  - destruct (k' =? k)%Z eqn:E; simpl; rewrite E; [reflexivity | exact IH].
Qed.

Lemma get_set_ne d k k' v : k <> k' -> get (set d k v) k' = get d k'.
Proof.
  intros Hne. induction d as [|[k0 v0] d IH]; simpl.
  - destruct (k =? k')%Z eqn:E; [apply Z.eqb_eq in E; contradiction | reflexivity].
  - destruct (k0 =? k)%Z eqn:E; simpl.
    + apply Z.eqb_eq in E. subst k0.
      destruct (k =? k')%Z eqn:E'; [apply Z.eqb_eq in E'; contradiction | reflexivity].
    + destruct (k0 =? k')%Z; [reflexivity | exact IH].
Qed.

Lemma in_keys_set d k v k' : In k' (keys (set d k v)) <-> k' = k \/ In k' (keys d).
Proof.
  induction d as [|[k0 v0] d IH]; simpl.
  - intuition.
  - destruct (k0 =? k)%Z eqn:E; simpl.
    + apply Z.eqb_eq in E. subst k0. intuition.
    + unfold keys in IH. rewrite IH. intuition.
Qed.

Lemma keys_set_NoDup d k v : NoDup (keys d) -> NoDup (keys (set d k v)).
Proof.
  induction d as [|[k0 v0] d IH]; simpl; intros Hnd.
  - constructor; [intros [] | constructor].
  - inversion Hnd as [|? ? Hni Hnd']; subst.
    destruct (k0 =? k)%Z eqn:E; simpl.
    + constructor; assumption.
    + constructor; [|apply IH, Hnd'].
      intros Hin. apply in_keys_set in Hin. destruct Hin as [->|Hin].
      * rewrite Z.eqb_refl in E. discriminate.
      * contradiction.
Qed.

Lemma get_in d k v : get d k = Some v -> In (k, v) d.
Proof.
  induction d as [|[k0 v0] d IH]; simpl; [discriminate|].
  destruct (k0 =? k)%Z eqn:E.
  - apply Z.eqb_eq in E. intros [= ->]. left. now subst.
  - intros H. right. apply IH, H.
Qed.

Lemma in_get d k v : NoDup (keys d) -> In (k, v) d -> get d k = Some v.
Proof.
  induction d as [|[k0 v0] d IH]; simpl; intros Hnd Hin; [contradiction|].
  inversion Hnd as [|? ? Hni Hnd']; subst.
  destruct Hin as [[= -> ->]|Hin].
  - now rewrite Z.eqb_refl.
  - destruct (k0 =? k)%Z eqn:E; [|apply IH; assumption].
    apply Z.eqb_eq in E. subst k0. exfalso. apply Hni.
    apply (in_map fst) in Hin. exact Hin.
Qed.

Lemma get_none d k : get d k = None <-> ~ In k (keys d).
Proof.
  induction d as [|[k0 v0] d IH]; simpl.
  - intuition.
  - destruct (k0 =? k)%Z eqn:E.
    + apply Z.eqb_eq in E. intuition discriminate.
    + apply Z.eqb_neq in E. unfold keys in IH. rewrite IH. intuition.
Qed.

Lemma get_some_key d k v : get d k = Some v -> In k (keys d).
Proof. intros H. apply get_in in H. apply (in_map fst) in H. exact H. Qed.

End WithValues.

End DictFacts.

Module StoreFacts.

Lemma length_assign (h : store) (r : ref) (v : info) :
  length (assign h r v) = length h.
Proof.
  revert r. induction h as [|x h IH]; intros [|r]; simpl; auto.
Qed.

Lemma deref_assign_eq (h : store) (r : ref) (v : info) :
  (r < length h)%nat -> deref (assign h r v) r = v.
Proof.
  unfold deref. revert r. induction h as [|x h IH]; intros [|r]; simpl; intros Hr;
    try lia; [reflexivity | apply IH; lia].
Qed.

Lemma deref_assign_ne (h : store) (r r' : ref) (v : info) :
  r <> r' -> deref (assign h r v) r' = deref h r'.
Proof.
  unfold deref. revert r r'.
  induction h as [|x h IH]; intros [|r] [|r'] Hne; simpl; try reflexivity;
    try congruence. apply IH. congruence.
Qed.

Lemma deref_app_old (h : store) (v : info) (r : ref) :
  (r < length h)%nat -> deref (h ++ [v]) r = deref h r.
Proof. intros Hr. unfold deref. now rewrite app_nth1. Qed.

Lemma deref_app_new (h : store) (v : info) : deref (h ++ [v]) (length h) = v.
Proof. unfold deref. rewrite app_nth2, Nat.sub_diag; [reflexivity | lia]. Qed.

Lemma mem_in (k : Z) (s : list Z) : mem k s = true <-> In k s.
Proof.
  unfold mem. rewrite existsb_exists. split.
  - intros [x [Hx E]]. apply Z.eqb_eq in E. now subst.
  - intros H. exists k. split; [exact H | apply Z.eqb_refl].
Qed.

Lemma mem_add (k k' : Z) (s : list Z) :
  mem k' (add k s) = (k' =? k)%Z || mem k' s.
Proof.
  unfold add. destruct (mem k s) eqn:E.
  - destruct (k' =? k)%Z eqn:E'; [|reflexivity].
    apply Z.eqb_eq in E'. subst. now rewrite E.
  - reflexivity.
Qed.

End StoreFacts.

(** ** The ranking of non-max suppression *)

Module NMSFacts.
Import NMS NMSSpec.

Section Ranking.

Variable keys : list Q.

Lemma insert_idx_perm (i : nat) (l : list nat) :
  Permutation (insert_idx keys i l) (i :: l).
Proof.
  induction l as [|j l IH]; simpl.
  - apply Permutation_refl.
  - destruct (Qltb _ _).
    + apply Permutation_refl.
    + eapply perm_trans; [apply perm_skip, IH | apply perm_swap].
Qed.

Lemma fold_insert_perm (l acc : list nat) :
  Permutation (fold_left (fun sorted i => insert_idx keys i sorted) l acc)
              (acc ++ l).
Proof.
  revert acc. induction l as [|i l IH]; intros acc; simpl.
  - rewrite app_nil_r. apply Permutation_refl.
  - eapply perm_trans; [apply IH|].
    eapply perm_trans; [apply Permutation_app_tail, insert_idx_perm|].
    simpl. apply Permutation_middle.
Qed.

Lemma argsort_perm : Permutation (argsort keys) (seq 0 (length keys)).
Proof. unfold argsort. apply (fold_insert_perm _ []). Qed.

Lemma insert_idx_sorted (i : nat) (l : list nat) :
  Forall (fun j => (j < i)%nat) l ->
  StronglySorted (before keys) l ->
  StronglySorted (before keys) (insert_idx keys i l).
Proof.
  induction l as [|j l IH]; intros Hlt Hs; simpl.
  - constructor; constructor.
  - apply StronglySorted_inv in Hs. destruct Hs as [Hs Hj].
    inversion Hlt as [|? ? Hji Hlt']; subst.
    destruct (Qltb (nth i keys 0) (nth j keys 0)) eqn:E.
    + apply Qltb_lt in E. constructor.
      * constructor; assumption.
      * constructor; [left; exact E|].
        rewrite Forall_forall in Hj |- *. intros x Hx.
        left. destruct (Hj x Hx) as [H|[H _]].
        -- eapply Qlt_trans; [exact E | exact H].
        -- rewrite <- H. exact E.
    + apply Qltb_ge in E. constructor.
      * apply IH; assumption.
      * rewrite Forall_forall in Hj |- *. intros x Hx.
        apply (Permutation_in _ (insert_idx_perm i l)) in Hx.
        destruct Hx as [<-|Hx]; [|apply Hj; exact Hx].
        destruct (Qle_lt_or_eq _ _ E) as [H|H].
        -- left. exact H.
        -- right. split; [exact H | exact Hji].
Qed.

Lemma fold_insert_sorted (n k : nat) (acc : list nat) :
  Forall (fun j => (j < k)%nat) acc ->
  StronglySorted (before keys) acc ->
  StronglySorted (before keys)
    (fold_left (fun sorted i => insert_idx keys i sorted) (seq k n) acc).
Proof.
  revert k acc. induction n as [|n IH]; intros k acc Hlt Hs; simpl.
  - exact Hs.
  - apply IH.
    + rewrite Forall_forall in Hlt |- *. intros x Hx.
      apply (Permutation_in _ (insert_idx_perm k acc)) in Hx.
      destruct Hx as [<-|Hx]; [lia|]. specialize (Hlt x Hx). lia.
    + apply insert_idx_sorted; assumption.
Qed.

Lemma argsort_sorted : StronglySorted (before keys) (argsort keys).
Proof.
  unfold argsort. apply fold_insert_sorted; constructor.
Qed.

End Ranking.

Lemma StronglySorted_app_rev {A} (R : A -> A -> Prop) (l acc : list A) :
  StronglySorted R l ->
  StronglySorted (fun x y => R y x) acc ->
  (forall x y, In x l -> In y acc -> R y x) ->
  StronglySorted (fun x y => R y x) (rev l ++ acc).
Proof.
  revert acc. induction l as [|a l IH]; intros acc Hl Hacc Hx; simpl.
  - exact Hacc.
  - apply StronglySorted_inv in Hl. destruct Hl as [Hl Ha].
    rewrite <- app_assoc. simpl. apply IH.
    + exact Hl.
    + constructor; [exact Hacc|].
      rewrite Forall_forall. intros y Hy. apply Hx; [left; reflexivity | exact Hy].
    + intros x y Hin [<-|Hy].
      * rewrite Forall_forall in Ha. apply Ha. exact Hin.
      * apply Hx; [right; exact Hin | exact Hy].
Qed.

Lemma ranking_perm (keys : list Q) :
  Permutation (ranking keys) (seq 0 (length keys)).
Proof.
  unfold ranking. eapply perm_trans; [apply Permutation_sym, Permutation_rev|].
  apply argsort_perm.
Qed.

Lemma ranking_sorted (keys : list Q) :
  StronglySorted (fun i j => before keys j i) (ranking keys).
Proof.
  unfold ranking. rewrite <- (app_nil_r (rev _)).
  apply StronglySorted_app_rev.
  - apply argsort_sorted.
  - constructor.
  - intros x y _ [].
Qed.

Lemma ranking_valid (keys : list Q) (i : nat) :
  In i (ranking keys) -> (i < length keys)%nat.
Proof.
  intros H. apply (Permutation_in _ (ranking_perm keys)) in H.
  apply in_seq in H. lia.
Qed.

Lemma ranking_NoDup (keys : list Q) : NoDup (ranking keys).
Proof.
  eapply Permutation_NoDup; [apply Permutation_sym, ranking_perm|].
  apply seq_NoDup.
Qed.

(** *** The overlap test *)








(** *** The suppression loop *)

Section Loop.

Variable boxes : list fbox.
Variable thr : Q.

Lemma nms_loop_cons (i : nat) (rest : list nat) :
  nms_loop boxes thr (i :: rest) =
  i :: nms_loop boxes thr (filter (keeps boxes thr i) rest).
Proof. now simp nms_loop. Qed.

(** Induction along the iterations of the loop. *)
Lemma loop_induction (P : list nat -> list nat -> Prop) :
  P [] [] ->
  (forall i rest,
      P (filter (keeps boxes thr i) rest)
        (nms_loop boxes thr (filter (keeps boxes thr i) rest)) ->
      P (i :: rest)
        (i :: nms_loop boxes thr (filter (keeps boxes thr i) rest))) ->
  forall idxs, P idxs (nms_loop boxes thr idxs).
Proof.
  intros Hnil Hcons idxs.
  remember (length idxs) as n eqn:Hn.
  revert idxs Hn. induction n as [n IH] using lt_wf_ind. intros idxs Hn.
  destruct idxs as [|i rest].
  - simp nms_loop.
  - rewrite nms_loop_cons. apply Hcons.
    apply (IH (length (filter (keeps boxes thr i) rest))); [|reflexivity].
    subst n. simpl. apply Nat.lt_succ_r, filter_length_le.
Qed.

Lemma nms_loop_incl (idxs : list nat) : incl (nms_loop boxes thr idxs) idxs.
Proof.
  apply loop_induction.
  - apply incl_refl.
  - intros i rest IH x [<-|Hx]; [left; reflexivity|].
    right. apply IH in Hx. apply filter_In in Hx. tauto.
Qed.

Lemma nms_loop_NoDup (idxs : list nat) :
  NoDup idxs -> NoDup (nms_loop boxes thr idxs).
Proof.
  apply loop_induction with (P := fun idxs pick => NoDup idxs -> NoDup pick).
  - intros _. constructor.
  - intros i rest IH Hnd.
    inversion Hnd as [|? ? Hni Hnd']; subst. constructor.
    + intros Hin. apply nms_loop_incl, filter_In in Hin. tauto.
    + apply IH, NoDup_filter, Hnd'.
Qed.


(** When no index fails a test, nothing is suppressed. *)
Lemma nms_loop_fixed (idxs : list nat) :
  StronglySorted (kept boxes thr) idxs -> nms_loop boxes thr idxs = idxs.
Proof.
  apply loop_induction
    with (P := fun idxs pick => StronglySorted (kept boxes thr) idxs -> pick = idxs).
  - reflexivity.
  - intros i rest IH Hs.
    apply StronglySorted_inv in Hs. destruct Hs as [Hs Hi].
    assert (Hf : filter (keeps boxes thr i) rest = rest).
    { apply forallb_filter_id. apply forallb_forall.
      rewrite Forall_forall in Hi. exact Hi. }
    rewrite Hf in *. f_equal. apply IH. exact Hs.
Qed.

Lemma nms_loop_head (i : nat) (rest : list nat) :
  exists tl, nms_loop boxes thr (i :: rest) = i :: tl.
Proof. rewrite nms_loop_cons. eexists. reflexivity. Qed.

End Loop.

(** *** The function as a whole, without scores *)

Lemma non_max_suppression_picked (boxes : list fbox) (thr : Q) :
  non_max_suppression boxes None thr =
  Some (map (fun i => astype_int (row boxes i)) (picked boxes thr)).
Proof.
  unfold non_max_suppression, picked. destruct boxes as [|b boxes].
  - simpl. unfold ranking, argsort. simpl. now simp nms_loop.
  - replace (length (b :: boxes) =? 0)%nat with false by reflexivity.
    rewrite length_map, Nat.leb_refl. reflexivity.
Qed.


Lemma picked_valid (boxes : list fbox) (thr : Q) (i : nat) :
  In i (picked boxes thr) -> (i < length boxes)%nat.
Proof.
  intros H. apply nms_loop_incl, ranking_valid in H.
  now rewrite length_map in H.
Qed.

Lemma row_to_float (boxes : list ibox) (i : nat) :
  row (map to_float boxes) i = to_float (nth i boxes zero_ibox).
Proof.
  unfold row. change zero_row with (to_float zero_ibox). apply map_nth.
Qed.


(** *** Lists read through indices *)

Lemma StronglySorted_weaken {A} (R R' : A -> A -> Prop) (l : list A) :
  (forall x y, In x l -> In y l -> R x y -> R' x y) ->
  StronglySorted R l -> StronglySorted R' l.
Proof.
  induction l as [|a l IH]; intros Himp Hs.
  - constructor.
  - apply StronglySorted_inv in Hs. destruct Hs as [Hs Ha]. constructor.
    + apply IH; [|exact Hs]. intros x y Hx Hy. apply Himp; now right.
    + rewrite Forall_forall in Ha |- *. intros y Hy.
      apply Himp; [now left | now right | apply Ha, Hy].
Qed.


Lemma NoDup_StronglySorted {A} (R : A -> A -> Prop) (l : list A) :
  NoDup l ->
  (forall x y, In x l -> In y l -> x <> y -> R x y) ->
  StronglySorted R l.
Proof.
  induction 1 as [|a l Hni Hnd IH]; intros HR.
  - constructor.
  - constructor.
    + apply IH. intros x y Hx Hy. apply HR; now right.
    + rewrite Forall_forall. intros y Hy.
      apply HR; [now left | now right | intros ->; contradiction].
Qed.


Lemma map_nth_seq {A} (d : A) (l : list A) :
  map (fun i => nth i l d) (seq 0 (length l)) = l.
Proof.
  induction l as [|a l IH]; simpl; [reflexivity|].
  f_equal. rewrite <- seq_shift, map_map. exact IH.
Qed.

(** *** Truncation *)

Lemma trunc_whole (q : Q) (z : Z) : q == inject_Z z -> trunc q = z.
Proof.
  unfold Qeq, trunc. simpl. intros H. rewrite Z.mul_1_r in H. rewrite H.
  apply Z.quot_mul. discriminate.
Qed.


Lemma astype_int_whole (r : fbox) (z : ibox) :
  feq r (to_float z) -> astype_int r = z.
Proof.
  destruct r as [[[x1 y1] x2] y2], z as [[[zx1 zy1] zx2] zy2].
  unfold feq. simpl. intros (H1 & H2 & H3 & H4).
  now rewrite (trunc_whole _ _ H1), (trunc_whole _ _ H2),
              (trunc_whole _ _ H3), (trunc_whole _ _ H4).
Qed.


(** ** Statements about non-max suppression *)

(** C2, counterexample: on scenario B the first box is not the one kept. *)
Lemma nms_scenario_B_keeps_second :
  non_max_suppression
    (map to_float [(10, 10, 50, 50)%Z; (12, 12, 52, 52)%Z]) None (4 # 10)
  <> Some [(10, 10, 50, 50)%Z].
Proof. vm_compute. discriminate. Qed.


(** C3, on the code.  The IoU of non-max suppression has no branch for a
    zero union: for the two boxes (0,0,-1,5) and (3,3,2,9), both of area
    0, it divides 0 by 0, the test on the resulting nan fails and the first
    box is suppressed although it overlaps nothing.  A box with both
    sides negative has a positive area: (100,100,0,0) is ranked before
    the box (0,0,50,50). *)
Theorem nms_degenerate_boxes :
  union_rows (to_float (3, 3, 2, 9)%Z) (to_float (0, 0, -1, 5)%Z) == 0
  /\ iou_rows (to_float (3, 3, 2, 9)%Z) (to_float (0, 0, -1, 5)%Z) = NaN
  /\ non_max_suppression (map to_float [(0, 0, -1, 5)%Z; (3, 3, 2, 9)%Z])
                         None (4 # 10)
     = Some [(3, 3, 2, 9)%Z]
  /\ ranking (map area (map to_float [(0, 0, 50, 50)%Z; (100, 100, 0, 0)%Z]))
     = [1%nat; 0%nat]
  /\ non_max_suppression (map to_float [(0, 0, 50, 50)%Z; (100, 100, 0, 0)%Z])
                         None (4 # 10)
     = Some [(100, 100, 0, 0)%Z; (0, 0, 50, 50)%Z].
Proof. repeat split; vm_compute; reflexivity. Qed.

End NMSFacts.

(** ** The association loop *)

Module TrackFacts.
Import TrackSpec DictFacts StoreFacts.
Local Open Scope Z_scope.

Section BestMatch.

Variable h : store.
Variable box : ibox.

Let score (r : ref) : Q := iou_xyxy box (last_xyxy (deref h r)).

Lemma best_fold_spec (trk : Dict.t ref) (acc : option Z * Q) :
  let res := fold_left (best_step h box) trk acc in
  (snd acc <= snd res)%Q
  /\ Forall (fun item => (score (snd item) <= snd res)%Q) trk
  /\ (res = acc
      \/ exists tid r, In (tid, r) trk /\ res = (Some tid, score r)
                       /\ (snd acc < score r)%Q).
Proof.
  revert acc. induction trk as [|[tid r] trk IH]; intros [bid biou]; simpl.
  - split; [apply Qle_refl|]. split; [constructor | left; reflexivity].
  - fold (score r).
    destruct (Qltb biou (score r)) eqn:E.
    + apply Qltb_lt in E.
      destruct (IH (Some tid, score r)) as (Hle & Hall & Hres). simpl in *.
      split; [eapply Qle_trans; [apply Qlt_le_weak, E | exact Hle]|].
      split; [constructor; [exact Hle | exact Hall]|].
      right. destruct Hres as [->|(tid' & r' & Hin & -> & Hlt)].
      * exists tid, r. auto.
      * exists tid', r'. split; [now right|]. split; [reflexivity|].
        eapply Qlt_trans; eassumption.
    + apply Qltb_ge in E.
      destruct (IH (bid, biou)) as (Hle & Hall & Hres). simpl in *.
      split; [exact Hle|].
      split; [constructor; [eapply Qle_trans; eassumption | exact Hall]|].
      destruct Hres as [->|(tid' & r' & Hin & -> & Hlt)]; [now left|].
      right. exists tid', r'. auto.
Qed.

(** The inner loop returns a track of maximal IoU, or no track when no IoU
    is positive. *)
Lemma best_match_spec (trk : Dict.t ref) :
  Forall (fun item => (score (snd item) <= snd (best_match h trk box))%Q) trk
  /\ (best_match h trk box = (None, 0%Q)
      \/ exists tid r, In (tid, r) trk
                       /\ best_match h trk box = (Some tid, score r)
                       /\ (0 < score r)%Q).
Proof.
  unfold best_match.
  destruct (best_fold_spec trk (None, 0%Q)) as (_ & Hall & Hres).
  split; [exact Hall|]. exact Hres.
Qed.

End BestMatch.

(** The two branches of the loop body. *)
Lemma process_box_match (trk : Dict.t ref) (f : frame) (box : ibox)
  (bid : Z) (biou : Q) (r : ref) :
  best_match (f_heap f) trk box = (Some bid, biou) ->
  (MATCH_THRESH < biou)%Q ->
  Dict.get trk bid = Some r ->
  process_box trk f box =
  mkFrame (assign (f_heap f) r (mkInfo (count (deref (f_heap f) r) + 1) box 0))
          (Dict.set (f_new_tracked f) bid r)
          (add bid (f_used_track_ids f))
          (f_next_track_id f).
Proof.
  intros Hb Hlt Hget. unfold process_box. rewrite Hb.
  apply Qltb_lt in Hlt. rewrite Hlt, Hget. reflexivity.
Qed.

Lemma process_box_new (trk : Dict.t ref) (f : frame) (box : ibox)
  (bid : option Z) (biou : Q) :
  best_match (f_heap f) trk box = (bid, biou) ->
  (biou <= MATCH_THRESH)%Q ->
  process_box trk f box =
  mkFrame (f_heap f ++ [mkInfo 1 box 0])
          (Dict.set (f_new_tracked f) (f_next_track_id f) (length (f_heap f)))
          (f_used_track_ids f)
          (f_next_track_id f + 1).
Proof.
  intros Hb Hle. unfold process_box. rewrite Hb.
  apply Qltb_ge in Hle. rewrite Hle. reflexivity.
Qed.

(** The loop body takes one of the two branches: a match with a track of
    maximal IoU above the threshold, or a new track when no IoU is above
    it. *)
Lemma process_box_cases (trk : Dict.t ref) (f : frame) (box : ibox) :
  NoDup (Dict.keys trk) ->
  let score r := iou_xyxy box (last_xyxy (deref (f_heap f) r)) in
  (exists bid r,
      Dict.get trk bid = Some r
      /\ (MATCH_THRESH < score r)%Q
      /\ Forall (fun item => (score (snd item) <= score r)%Q) trk
      /\ process_box trk f box =
         mkFrame (assign (f_heap f) r (mkInfo (count (deref (f_heap f) r) + 1) box 0))
                 (Dict.set (f_new_tracked f) bid r)
                 (add bid (f_used_track_ids f))
                 (f_next_track_id f))
  \/ (Forall (fun item => (score (snd item) <= MATCH_THRESH)%Q) trk
      /\ process_box trk f box =
         mkFrame (f_heap f ++ [mkInfo 1 box 0])
                 (Dict.set (f_new_tracked f) (f_next_track_id f) (length (f_heap f)))
                 (f_used_track_ids f)
                 (f_next_track_id f + 1)).
Proof.
  intros Hnd score.
  destruct (best_match_spec (f_heap f) box trk) as [Hall Hres].
  destruct Hres as [Hnone|(tid & r & Hin & Hb & Hpos)].
  - right. rewrite Hnone in Hall. simpl in Hall. split.
    + eapply Forall_impl; [|exact Hall]. intros item Hle.
      eapply Qle_trans; [exact Hle | discriminate].
    + apply (process_box_new _ _ _ _ _ Hnone). discriminate.
  - rewrite Hb in Hall. simpl in Hall.
    destruct (Qlt_le_dec MATCH_THRESH (score r)) as [Hlt|Hle].
    + left. exists tid, r. apply (in_get _ _ _ Hnd) in Hin.
      split; [exact Hin|]. split; [exact Hlt|]. split; [exact Hall|].
      apply (process_box_match _ _ _ _ _ _ Hb Hlt Hin).
    + right. split.
      * eapply Forall_impl; [|exact Hall]. intros item Hi.
        exact (Qle_trans _ _ _ Hi Hle).
      * apply (process_box_new _ _ _ _ _ Hb Hle).
Qed.

(** *** Well-formed tables *)

Lemma NoDup_snd_injective {A B} (l : list (A * B)) (k k' : A) (r : B) :
  NoDup (map snd l) -> In (k, r) l -> In (k', r) l -> k = k'.
Proof.
  induction l as [|[k0 r0] l IH]; simpl; intros Hnd H1 H2; [contradiction|].
  inversion Hnd as [|? ? Hni Hnd']; subst.
  destruct H1 as [E1|H1], H2 as [E2|H2].
  - congruence.
  - injection E1 as -> ->. exfalso. apply Hni.
    apply (in_map snd) in H2. exact H2.
  - injection E2 as -> ->. exfalso. apply Hni.
    apply (in_map snd) in H1. exact H1.
  - apply IH; assumption.
Qed.

Lemma NoDup_snd_of_injective {A B} (l : list (A * B)) :
  NoDup (map fst l) ->
  (forall k k' r, In (k, r) l -> In (k', r) l -> k = k') ->
  NoDup (map snd l).
Proof.
  induction l as [|[k0 r0] l IH]; simpl; intros Hnd Hinj; [constructor|].
  inversion Hnd as [|? ? Hni Hnd']; subst. constructor.
  - intros Hin. apply in_map_iff in Hin. destruct Hin as [[k r] [E Hin]].
    simpl in E. subst r. apply Hni.
    rewrite (Hinj k0 k r0); [|now left | now right].
    apply (in_map fst) in Hin. exact Hin.
  - apply IH; [exact Hnd'|]. intros k k' r H1 H2.
    apply (Hinj k k' r); now right.
Qed.

Section WellFormed.

Variable s : tracker.
Hypothesis Hwf : well_formed s.

Lemma wf_keys : NoDup (Dict.keys (tracked s)).
Proof. exact (proj1 Hwf). Qed.

Lemma wf_injective (k k' : Z) (r : ref) :
  Dict.get (tracked s) k = Some r -> Dict.get (tracked s) k' = Some r -> k = k'.
Proof.
  intros H1 H2. apply get_in in H1, H2.
  exact (NoDup_snd_injective _ _ _ _ (proj1 (proj2 Hwf)) H1 H2).
Qed.

Lemma wf_bounds (k : Z) (r : ref) :
  Dict.get (tracked s) k = Some r ->
  (r < length (heap s))%nat /\ k < next_track_id s.
Proof.
  intros H. apply get_in in H.
  destruct Hwf as (_ & _ & Hb). rewrite Forall_forall in Hb.
  exact (Hb _ H).
Qed.

Lemma match_inv_start :
  match_inv s (mkFrame (heap s) [] [] (next_track_id s)).
Proof.
  constructor; simpl; try lia; try discriminate; try reflexivity.
  constructor.
Qed.

Lemma process_box_inv (f : frame) (box : ibox) :
  match_inv s f -> match_inv s (process_box (tracked s) f box).
Proof.
  intros Hinv.
  destruct (process_box_cases (tracked s) f box wf_keys)
    as [(bid & r & Hget & _ & _ & ->) | (_ & ->)].
  - destruct (wf_bounds _ _ Hget) as [Hr Hbid].
    pose proof (mi_heap _ _ Hinv) as Hlen.
    constructor; simpl.
    + rewrite length_assign. exact Hlen.
    + apply (mi_next _ _ Hinv).
    + rewrite length_assign. apply (mi_fresh _ _ Hinv).
    + intros k r0 H. destruct (Z.eq_dec bid k) as [<-|Hne].
      * rewrite get_set_eq in H. injection H as <-. left.
        split; [exact Hget|]. now rewrite mem_add, Z.eqb_refl.
      * rewrite get_set_ne in H by exact Hne.
        destruct (mi_new _ _ Hinv k r0 H) as [[H1 H2]|(H1 & H2 & H3)].
        -- left. split; [exact H1|]. rewrite mem_add, H2. apply orb_true_r.
        -- right. split; [exact H1|]. split; [exact H2|].
           rewrite deref_assign_ne; [exact H3 | lia].
    + intros k Hk. rewrite mem_add in Hk.
      destruct (Z.eq_dec k bid) as [->|Hne].
      * exists r. rewrite get_set_eq. split; [exact Hget|]. split; [reflexivity|].
        rewrite deref_assign_eq; [reflexivity | lia].
      * apply Z.eqb_neq in Hne. rewrite Hne in Hk. simpl in Hk.
        apply Z.eqb_neq in Hne.
        destruct (mi_used _ _ Hinv k Hk) as (r0 & H1 & H2 & H3).
        exists r0. split; [exact H1|]. split.
        -- rewrite get_set_ne; [exact H2 | congruence].
        -- rewrite deref_assign_ne; [exact H3|].
           intros ->. apply Hne. exact (wf_injective _ _ _ H1 Hget).
    + intros k r0 H Hm. rewrite mem_add in Hm.
      apply orb_false_iff in Hm. destruct Hm as [Hne Hm].
      apply Z.eqb_neq in Hne.
      rewrite deref_assign_ne; [apply (mi_kept _ _ Hinv k r0 H Hm)|].
      intros ->. apply Hne. exact (wf_injective _ _ _ H Hget).
    + apply keys_set_NoDup, (mi_keys _ _ Hinv).
  - pose proof (mi_heap _ _ Hinv) as Hlen.
    pose proof (mi_next _ _ Hinv) as Hnext.
    pose proof (mi_fresh _ _ Hinv) as Hfresh.
    constructor; simpl.
    + rewrite length_app. simpl. lia.
    + lia.
    + rewrite length_app. simpl. lia.
    + intros k r0 H. destruct (Z.eq_dec (f_next_track_id f) k) as [<-|Hne].
      * rewrite get_set_eq in H. injection H as <-. right.
        split; [lia|]. split; [lia|]. now rewrite deref_app_new.
      * rewrite get_set_ne in H by exact Hne.
        destruct (mi_new _ _ Hinv k r0 H) as [[H1 H2]|(H1 & H2 & H3)].
        -- left. split; assumption.
        -- right. split; [lia|]. split; [exact H2|].
           rewrite deref_app_old; [exact H3 | lia].
    + intros k Hk.
      destruct (mi_used _ _ Hinv k Hk) as (r0 & H1 & H2 & H3).
      destruct (wf_bounds _ _ H1) as [Hr0 Hk0].
      exists r0. split; [exact H1|]. split.
      * rewrite get_set_ne; [exact H2 | lia].
      * rewrite deref_app_old; [exact H3 | lia].
    + intros k r0 H Hm. destruct (wf_bounds _ _ H) as [Hr0 Hk0].
      rewrite deref_app_old; [apply (mi_kept _ _ Hinv k r0 H Hm) | lia].
    + apply keys_set_NoDup, (mi_keys _ _ Hinv).
Qed.

Lemma fold_process_box_inv (boxes : list ibox) (f : frame) :
  match_inv s f -> match_inv s (fold_left (process_box (tracked s)) boxes f).
Proof.
  revert f. induction boxes as [|box boxes IH]; intros f Hinv; simpl.
  - exact Hinv.
  - apply IH, process_box_inv, Hinv.
Qed.

Lemma match_phase_inv (boxes : list ibox) : match_inv s (match_phase s boxes).
Proof. apply fold_process_box_inv, match_inv_start. Qed.

End WellFormed.

(** *** The aging loop *)

Lemma age_step_spec (f : frame) (k0 : Z) (r0 : ref) :
  (r0 < length (f_heap f))%nat ->
  let f1 := age_step f (k0, r0) in
  f_used_track_ids f1 = f_used_track_ids f
  /\ f_next_track_id f1 = f_next_track_id f
  /\ length (f_heap f1) = length (f_heap f)
  /\ (NoDup (Dict.keys (f_new_tracked f)) -> NoDup (Dict.keys (f_new_tracked f1)))
  /\ (mem k0 (f_used_track_ids f) = true -> f1 = f)
  /\ (mem k0 (f_used_track_ids f) = false ->
      deref (f_heap f1) r0 = aged (deref (f_heap f) r0)
      /\ (forall r, r <> r0 -> deref (f_heap f1) r = deref (f_heap f) r)
      /\ Dict.get (f_new_tracked f1) k0
         = (if misses (deref (f_heap f) r0) + 1 <=? MAX_MISSES
            then Some r0 else Dict.get (f_new_tracked f) k0)
      /\ (forall k, k <> k0 ->
                    Dict.get (f_new_tracked f1) k = Dict.get (f_new_tracked f) k)).
Proof.
  intros Hr. unfold age_step. simpl.
  destruct (mem k0 (f_used_track_ids f)) eqn:Em.
  - repeat split; auto; discriminate.
  - destruct (misses (deref (f_heap f) r0) + 1 <=? MAX_MISSES) eqn:Ec; simpl;
      (split; [reflexivity|]); (split; [reflexivity|]);
      (split; [apply length_assign|]).
    + split; [apply keys_set_NoDup|]. split; [discriminate|]. intros _.
      split; [apply deref_assign_eq, Hr|].
      split; [intros r Hne; apply deref_assign_ne; congruence|].
      split; [apply get_set_eq|].
      intros k Hne. apply get_set_ne. congruence.
    + split; [trivial|]. split; [discriminate|]. intros _.
      split; [apply deref_assign_eq, Hr|].
      split; [intros r Hne; apply deref_assign_ne; congruence|].
      split; reflexivity.
Qed.

Lemma age_phase_spec (trk : Dict.t ref) (f : frame) :
  NoDup (Dict.keys trk) ->
  NoDup (map snd trk) ->
  Forall (fun item => (snd item < length (f_heap f))%nat) trk ->
  let f' := age_phase trk f in
  f_used_track_ids f' = f_used_track_ids f
  /\ f_next_track_id f' = f_next_track_id f
  /\ length (f_heap f') = length (f_heap f)
  /\ (NoDup (Dict.keys (f_new_tracked f)) -> NoDup (Dict.keys (f_new_tracked f')))
  /\ (forall k r,
         In (k, r) trk -> mem k (f_used_track_ids f) = false ->
         deref (f_heap f') r = aged (deref (f_heap f) r)
         /\ Dict.get (f_new_tracked f') k
            = (if misses (deref (f_heap f) r) + 1 <=? MAX_MISSES
               then Some r else Dict.get (f_new_tracked f) k))
  /\ (forall r,
         (forall k, In (k, r) trk -> mem k (f_used_track_ids f) = true) ->
         deref (f_heap f') r = deref (f_heap f) r)
  /\ (forall k,
         (forall r, In (k, r) trk -> mem k (f_used_track_ids f) = true) ->
         Dict.get (f_new_tracked f') k = Dict.get (f_new_tracked f) k).
Proof.
  revert f. induction trk as [|[k0 r0] trk IH]; intros f Hk Hr Hb;
    unfold age_phase; cbn [fold_left].
  - repeat split; auto; contradiction.
  - inversion Hk as [|? ? Hk0 Hk']; subst.
    inversion Hr as [|? ? Hr0 Hr']; subst.
    inversion Hb as [|? ? Hb0 Hb']; subst. simpl in Hb0.
    destruct (age_step_spec f k0 r0 Hb0) as (U1 & N1 & L1 & D1 & M1 & A1).
    assert (Hb1 : Forall (fun item => (snd item < length (f_heap (age_step f (k0, r0))))%nat) trk)
      by (now rewrite L1).
    destruct (IH (age_step f (k0, r0)) Hk' Hr' Hb1)
      as (U2 & N2 & L2 & D2 & A2 & H2 & G2).
    unfold age_phase in *. rewrite U1 in *.
    split; [exact U2|]. split; [congruence|]. split; [congruence|].
    split; [auto|].
    assert (Hnr : forall k, In (k, r0) trk -> False).
    { intros k Hin. apply Hr0. apply (in_map snd) in Hin. exact Hin. }
    assert (Hnk : forall r, In (k0, r) trk -> False).
    { intros r Hin. apply Hk0. apply (in_map fst) in Hin. exact Hin. }
    split; [|split].
    + intros k r [E|Hin] Hm.
      * injection E as Ek Er. subst k r.
        destruct (A1 Hm) as (E1 & _ & E2 & _).
        rewrite H2, G2; [split; assumption | |];
          intros x Hx; exfalso; eauto.
      * destruct (A2 k r Hin Hm) as [E1 E2].
        assert (Hne_r : r <> r0) by (intros ->; eauto).
        assert (Hne_k : k <> k0) by (intros ->; eauto).
        destruct (mem k0 (f_used_track_ids f)) eqn:Em.
        -- pose proof (M1 eq_refl) as M. rewrite M in *. split; assumption.
        -- destruct (A1 eq_refl) as (_ & E3 & _ & E4).
           rewrite (E3 r Hne_r) in E1, E2. rewrite (E4 k Hne_k) in E2.
           split; assumption.
    + intros r Hall. rewrite (H2 r) by (intros k Hin; apply (Hall k); now right).
      destruct (mem k0 (f_used_track_ids f)) eqn:Em.
      * now rewrite (M1 eq_refl).
      * destruct (A1 eq_refl) as (_ & E3 & _). apply E3.
        intros ->. specialize (Hall k0 (or_introl eq_refl)). congruence.
    + intros k Hall. rewrite (G2 k) by (intros r Hin; apply (Hall r); now right).
      destruct (mem k0 (f_used_track_ids f)) eqn:Em.
      * now rewrite (M1 eq_refl).
      * destruct (A1 eq_refl) as (_ & _ & _ & E4). apply E4.
        intros ->. specialize (Hall r0 (or_introl eq_refl)). congruence.
Qed.

(** *** One frame on a well-formed table *)

Section Frame.

Variable s : tracker.
Variable boxes : list ibox.
Hypothesis Hwf : well_formed s.

Let f := match_phase s boxes.
Let s' := associate s boxes.

Lemma frame_age :
  let f' := age_phase (tracked s) f in
  f_used_track_ids f' = f_used_track_ids f
  /\ f_next_track_id f' = f_next_track_id f
  /\ length (f_heap f') = length (f_heap f)
  /\ (NoDup (Dict.keys (f_new_tracked f)) -> NoDup (Dict.keys (f_new_tracked f')))
  /\ (forall k r,
         In (k, r) (tracked s) -> mem k (f_used_track_ids f) = false ->
         deref (f_heap f') r = aged (deref (f_heap f) r)
         /\ Dict.get (f_new_tracked f') k
            = (if misses (deref (f_heap f) r) + 1 <=? MAX_MISSES
               then Some r else Dict.get (f_new_tracked f) k))
  /\ (forall r,
         (forall k, In (k, r) (tracked s) -> mem k (f_used_track_ids f) = true) ->
         deref (f_heap f') r = deref (f_heap f) r)
  /\ (forall k,
         (forall r, In (k, r) (tracked s) -> mem k (f_used_track_ids f) = true) ->
         Dict.get (f_new_tracked f') k = Dict.get (f_new_tracked f) k).
Proof.
  apply age_phase_spec.
  - exact (proj1 Hwf).
  - exact (proj1 (proj2 Hwf)).
  - destruct Hwf as (_ & _ & Hb).
    pose proof (mi_heap _ _ (match_phase_inv s Hwf boxes)) as Hlen.
    eapply Forall_impl; [|exact Hb]. intros item [Hr _]. fold f in Hlen. lia.
Qed.

(** A track that no candidate matched: one more miss, then kept or dropped. *)
Lemma frame_unmatched (tid : Z) (i : info) :
  track s tid = Some i ->
  matched s boxes tid = false ->
  track s' tid =
  (if misses i + 1 <=? MAX_MISSES then Some (aged i) else None).
Proof.
  unfold track, matched. fold f.
  destruct (Dict.get (tracked s) tid) as [r|] eqn:Hget; [|discriminate].
  simpl. intros [= <-] Hm.
  pose proof (match_phase_inv s Hwf boxes) as Hinv. fold f in Hinv.
  destruct frame_age as (_ & _ & _ & _ & Hun & _ & _).
  destruct (Hun tid r (get_in _ _ _ Hget) Hm) as [Ed Eg].
  rewrite (mi_kept _ _ Hinv tid r Hget Hm) in Ed, Eg.
  unfold s', associate. fold f. simpl. rewrite Eg.
  destruct (misses (deref (heap s) r) + 1 <=? MAX_MISSES); simpl.
  - now rewrite Ed.
  - destruct (Dict.get (f_new_tracked f) tid) as [r1|] eqn:Hnew; [|reflexivity].
    exfalso. destruct (mi_new _ _ Hinv tid r1 Hnew) as [[_ H]|[H _]].
    + congruence.
    + destruct (wf_bounds s Hwf _ _ Hget). lia.
Qed.

(** A track that some candidate matched stays, with no miss. *)
Lemma frame_matched (tid : Z) (i : info) :
  track s tid = Some i ->
  matched s boxes tid = true ->
  exists i', track s' tid = Some i' /\ misses i' = 0.
Proof.
  unfold track, matched. fold f.
  destruct (Dict.get (tracked s) tid) as [r|] eqn:Hget; [|discriminate].
  simpl. intros _ Hm.
  pose proof (match_phase_inv s Hwf boxes) as Hinv. fold f in Hinv.
  destruct frame_age as (_ & _ & _ & _ & _ & Hh & Hg).
  destruct (mi_used _ _ Hinv tid Hm) as (r0 & H1 & H2 & H3).
  assert (r0 = r) by congruence. subst r0.
  exists (deref (f_heap f) r). split; [|exact H3].
  unfold s', associate. fold f. simpl.
  rewrite Hg, H2; [simpl; f_equal; apply Hh|].
  - intros k Hin. apply (in_get _ _ _ (wf_keys s Hwf)) in Hin.
    now rewrite (wf_injective s Hwf _ _ _ Hin Hget).
  - intros r1 _. exact Hm.
Qed.

(** Where the entries of the new table come from. *)
Lemma frame_entry (k : Z) (r : ref) :
  Dict.get (tracked s') k = Some r ->
  (Dict.get (tracked s) k = Some r
   \/ (next_track_id s <= k < next_track_id s'
       /\ Z.of_nat r = Z.of_nat (length (heap s)) + (k - next_track_id s)))
  /\ misses (deref (heap s') r) <= MAX_MISSES.
Proof.
  pose proof (match_phase_inv s Hwf boxes) as Hinv. fold f in Hinv.
  destruct frame_age as (_ & Hn & _ & _ & Hun & Hh & Hg).
  unfold s', associate. fold f. simpl. rewrite Hn. intros Hget.
  destruct (Dict.get (tracked s) k) as [r0|] eqn:HT.
  - destruct (mem k (f_used_track_ids f)) eqn:Hm.
    + destruct (frame_matched k (deref (heap s) r0)) as (i' & Hi & Hz).
      { unfold track. now rewrite HT. }
      { exact Hm. }
      unfold track, s', associate in Hi. fold f in Hi. simpl in Hi.
      rewrite Hget in Hi. simpl in Hi. injection Hi as Hi.
      rewrite Hi, Hz. split; [|discriminate].
      rewrite Hg in Hget by (intros r1 _; exact Hm).
      destruct (mi_used _ _ Hinv k Hm) as (r1 & H1 & H2 & _).
      left. congruence.
    + destruct (Hun k r0 (get_in _ _ _ HT) Hm) as [Ed Eg].
      rewrite Eg in Hget.
      destruct (misses (deref (f_heap f) r0) + 1 <=? MAX_MISSES) eqn:Ec.
      * injection Hget as <-. split; [now left|].
        rewrite Ed. simpl. apply Z.leb_le, Ec.
      * exfalso. destruct (mi_new _ _ Hinv k r Hget) as [[_ H]|[H _]].
        -- congruence.
        -- destruct (wf_bounds s Hwf _ _ HT). lia.
  - assert (Hnone : forall r1, In (k, r1) (tracked s) -> mem k (f_used_track_ids f) = true).
    { intros r1 Hin. apply (in_get _ _ _ (wf_keys s Hwf)) in Hin. congruence. }
    rewrite (Hg k Hnone) in Hget.
    destruct (mi_new _ _ Hinv k r Hget) as [[H _]|(H1 & H2 & H3)]; [congruence|].
    split; [right; split; assumption|].
    rewrite Hh; [rewrite H3; discriminate|].
    intros k1 Hin. apply (in_get _ _ _ (wf_keys s Hwf)) in Hin.
    destruct (wf_bounds s Hwf _ _ Hin). lia.
Qed.

Lemma frame_next : next_track_id s <= next_track_id s'.
Proof.
  pose proof (match_phase_inv s Hwf boxes) as Hinv. fold f in Hinv.
  destruct frame_age as (_ & Hn & _).
  unfold s', associate. fold f. simpl. rewrite Hn. apply (mi_next _ _ Hinv).
Qed.

Lemma frame_keys : NoDup (ids s').
Proof.
  pose proof (match_phase_inv s Hwf boxes) as Hinv. fold f in Hinv.
  destruct frame_age as (_ & _ & _ & Hk & _).
  unfold ids, s', associate. fold f. simpl. apply Hk, (mi_keys _ _ Hinv).
Qed.

Lemma frame_heap :
  Z.of_nat (length (heap s')) - Z.of_nat (length (heap s))
  = next_track_id s' - next_track_id s.
Proof.
  pose proof (match_phase_inv s Hwf boxes) as Hinv. fold f in Hinv.
  destruct frame_age as (_ & Hn & Hl & _).
  unfold s', associate. fold f. simpl. rewrite Hn, Hl. apply (mi_fresh _ _ Hinv).
Qed.

Lemma frame_well_formed : well_formed s'.
Proof.
  pose proof frame_next as Hn. pose proof frame_heap as Hh.
  assert (Hentry : forall k r, In (k, r) (tracked s') ->
            Dict.get (tracked s) k = Some r
            \/ (next_track_id s <= k < next_track_id s'
                /\ Z.of_nat r = Z.of_nat (length (heap s)) + (k - next_track_id s))).
  { intros k r Hin. apply (in_get _ _ _ frame_keys) in Hin.
    apply frame_entry, Hin. }
  split; [exact frame_keys|]. split.
  - apply NoDup_snd_of_injective; [exact frame_keys|].
    intros k k' r H1 H2.
    destruct (Hentry _ _ H1) as [G1|[B1 A1]], (Hentry _ _ H2) as [G2|[B2 A2]].
    + exact (wf_injective s Hwf _ _ _ G1 G2).
    + destruct (wf_bounds s Hwf _ _ G1). lia.
    + destruct (wf_bounds s Hwf _ _ G2). lia.
    + lia.
  - rewrite Forall_forall. intros [k r] Hin. cbn [fst snd].
    destruct (Hentry _ _ Hin) as [G|[B A]].
    + destruct (wf_bounds s Hwf _ _ G). lia.
    + lia.
Qed.

End Frame.

(** *** Frames that leave the table empty *)

Lemma set_nonempty {V} (d : Dict.t V) (k : Z) (v : V) : Dict.set d k v <> [].
Proof. destruct d as [|[k0 v0] d]; simpl; [|destruct (k0 =? k)]; discriminate. Qed.

Lemma process_box_nonempty (trk : Dict.t ref) (f : frame) (box : ibox) :
  NoDup (Dict.keys trk) -> f_new_tracked (process_box trk f box) <> [].
Proof.
  intros Hnd.
  destruct (process_box_cases trk f box Hnd)
    as [(bid & r & _ & _ & _ & ->) | (_ & ->)]; simpl; apply set_nonempty.
Qed.

Lemma fold_process_box_nonempty (trk : Dict.t ref) (boxes : list ibox) (f : frame) :
  NoDup (Dict.keys trk) ->
  f_new_tracked f <> [] \/ boxes <> [] ->
  f_new_tracked (fold_left (process_box trk) boxes f) <> [].
Proof.
  intros Hnd. revert f. induction boxes as [|box boxes IH]; intros f H; simpl.
  - destruct H as [H|H]; [exact H | congruence].
  - apply IH. left. apply process_box_nonempty, Hnd.
Qed.

Lemma age_phase_nonempty (trk : Dict.t ref) (f : frame) :
  f_new_tracked f <> [] -> f_new_tracked (age_phase trk f) <> [].
Proof.
  unfold age_phase. revert f.
  induction trk as [|[k r] trk IH]; intros f H; simpl; [exact H|].
  apply IH. unfold age_step.
  destruct (mem k (f_used_track_ids f)); [exact H|].
  destruct (_ <=? _); simpl; [apply set_nonempty | exact H].
Qed.

Lemma empty_table_no_candidates (s : tracker) (boxes : list ibox) :
  well_formed s -> tracked (associate s boxes) = [] -> boxes = [].
Proof.
  intros Hwf He. destruct boxes as [|b boxes]; [reflexivity|]. exfalso.
  revert He. unfold associate. simpl. apply age_phase_nonempty.
  apply fold_process_box_nonempty; [exact (proj1 Hwf) | right; discriminate].
Qed.

Lemma no_candidates_next (s : tracker) :
  well_formed s -> next_track_id (associate s []) = next_track_id s.
Proof.
  intros Hwf. destruct (frame_age s [] Hwf) as (_ & Hn & _).
  unfold associate. simpl. exact Hn.
Qed.

(** *** Sessions *)

Lemma initial_well_formed : well_formed initial.
Proof. repeat split; constructor. Qed.

Lemma reachable_well_formed (s : tracker) : reachable s -> well_formed s.
Proof.
  induction 1 as [|s boxes _ IH].
  - exact initial_well_formed.
  - apply frame_well_formed, IH.
Qed.

Lemma session_reachable (s : tracker) (frames : list (list ibox)) :
  reachable s -> reachable (session s frames).
Proof.
  unfold session. revert s.
  induction frames as [|boxes frames IH]; intros s Hs; simpl.
  - exact Hs.
  - apply IH. constructor. exact Hs.
Qed.

Lemma frame_ids (s : tracker) (boxes : list ibox) (k : Z) :
  well_formed s ->
  In k (ids (associate s boxes)) ->
  In k (ids s) \/ next_track_id s <= k.
Proof.
  intros Hwf Hin. unfold ids in Hin.
  destruct (Dict.get (tracked (associate s boxes)) k) as [r|] eqn:Hget.
  - destruct (frame_entry s boxes Hwf k r Hget) as [[H|[H _]] _].
    + left. exact (get_some_key _ _ _ H).
    + right. lia.
  - apply get_none in Hget. contradiction.
Qed.

Lemma session_ids (s : tracker) (frames : list (list ibox)) (k : Z) :
  reachable s ->
  next_track_id s <= next_track_id (session s frames)
  /\ (In k (ids (session s frames)) -> In k (ids s) \/ next_track_id s <= k).
Proof.
  unfold session. revert s.
  induction frames as [|boxes frames IH]; intros s Hs; simpl.
  - split; [lia | auto].
  - pose proof (reachable_well_formed s Hs) as Hwf.
    destruct (IH (associate s boxes) (reach_frame s boxes Hs)) as [Hn Hk].
    pose proof (frame_next s boxes Hwf) as Hn'.
    split; [lia|]. intros Hin. destruct (Hk Hin) as [H|H].
    + apply (frame_ids s boxes k Hwf H).
    + right. lia.
Qed.

Lemma reachable_ids_below (s : tracker) (k : Z) :
  reachable s -> In k (ids s) -> k < next_track_id s.
Proof.
  intros Hs Hin. destruct (reachable_well_formed s Hs) as (_ & _ & Hb).
  unfold ids, Dict.keys in Hin. apply in_map_iff in Hin.
  destruct Hin as [item [<- Hin]]. rewrite Forall_forall in Hb.
  exact (proj2 (Hb item Hin)).
Qed.

(** The call of line 143 returns, so an iteration is one association step
    on the boxes that survive. *)
Lemma main_iteration_total (s : tracker) (detections : list rect) :
  exists boxes,
    NMS.non_max_suppression (map to_float (map rect_to_xyxy detections)) None
                            NMS_OVERLAP_THRESH = Some boxes
    /\ main_iteration s detections = Some (associate s boxes).
Proof.
  unfold main_iteration.
  rewrite NMSFacts.non_max_suppression_picked. eexists. split; reflexivity.
Qed.

(** ** Statements about the tracker *)

(** The effects of the loop body on any table with distinct ids whose
    dicts are in the store. *)
Lemma process_box_effects (trk : Dict.t ref) (f : frame) (box : ibox) :
  NoDup (Dict.keys trk) ->
  Forall (fun item => (snd item < length (f_heap f))%nat) trk ->
  let score r := iou_xyxy box (last_xyxy (deref (f_heap f) r)) in
  let f' := process_box trk f box in
  (exists bid r,
      Dict.get trk bid = Some r
      /\ (MATCH_THRESH < score r)%Q
      /\ Forall (fun item => (score (snd item) <= score r)%Q) trk
      /\ deref (f_heap f') r = mkInfo (count (deref (f_heap f) r) + 1) box 0
      /\ Dict.get (f_new_tracked f') bid = Some r
      /\ mem bid (f_used_track_ids f') = true
      /\ (forall r', r' <> r -> deref (f_heap f') r' = deref (f_heap f) r')
      /\ length (f_heap f') = length (f_heap f)
      /\ f_next_track_id f' = f_next_track_id f)
  \/ (Forall (fun item => (score (snd item) <= MATCH_THRESH)%Q) trk
      /\ Dict.get (f_new_tracked f') (f_next_track_id f) = Some (length (f_heap f))
      /\ deref (f_heap f') (length (f_heap f)) = mkInfo 1 box 0
      /\ (forall r', (r' < length (f_heap f))%nat ->
                     deref (f_heap f') r' = deref (f_heap f) r')
      /\ f_used_track_ids f' = f_used_track_ids f
      /\ f_next_track_id f' = f_next_track_id f + 1).
Proof.
  intros Hnd Hb score f'.
  destruct (process_box_cases trk f box Hnd)
    as [(bid & r & Hget & Hlt & Hmax & E) | (Hall & E)]; unfold f'; rewrite E; simpl.
  - left. exists bid, r.
    assert (Hr : (r < length (f_heap f))%nat).
    { rewrite Forall_forall in Hb. apply (Hb (bid, r)), get_in, Hget. }
    split; [exact Hget|]. split; [exact Hlt|]. split; [exact Hmax|].
    split; [apply deref_assign_eq, Hr|]. split; [apply get_set_eq|].
    split; [now rewrite mem_add, Z.eqb_refl|].
    split; [intros r' Hne; apply deref_assign_ne; congruence|].
    split; [apply length_assign | reflexivity].
  - right. split; [exact Hall|].
    split; [apply get_set_eq|]. split; [apply deref_app_new|].
    split; [intros r' Hr'; apply deref_app_old, Hr'|]. split; reflexivity.
Qed.

(** C5.  After a frame on a table of a session, a track that no candidate
    matched has one more miss; it stays, otherwise unchanged, when the new
    count is at most [MAX_MISSES], and is not in the new table when it is
    larger.  So a track of the old table is in the new one exactly when
    its miss count after the frame is at most [MAX_MISSES], it then
    carries that count, and no track of the new table has more misses. *)
Theorem eviction_exact (s : tracker) (boxes : list ibox) (tid : Z) (i : info) :
  reachable s ->
  track s tid = Some i ->
  let s' := associate s boxes in
  (matched s boxes tid = false ->
   (misses i + 1 <= MAX_MISSES ->
    track s' tid = Some (mkInfo (count i) (last_xyxy i) (misses i + 1)))
   /\ (MAX_MISSES < misses i + 1 -> track s' tid = None))
  /\ ((exists i', track s' tid = Some i')
      <-> miss_count_after s boxes tid i <= MAX_MISSES)
  /\ (forall i', track s' tid = Some i' ->
                 misses i' = miss_count_after s boxes tid i)
  /\ (forall k i', track s' k = Some i' -> misses i' <= MAX_MISSES).
Proof.
  intros Hs Ht s'. pose proof (reachable_well_formed s Hs) as Hwf.
  assert (Hun : matched s boxes tid = false ->
                track s' tid
                = (if misses i + 1 <=? MAX_MISSES then Some (aged i) else None))
    by (apply frame_unmatched; assumption).
  split; [|split; [|split]].
  - intros Hm. rewrite (Hun Hm). split; intros H.
    + apply Z.leb_le in H. now rewrite H.
    + apply Z.leb_gt in H. now rewrite H.
  - unfold miss_count_after.
    destruct (matched s boxes tid) eqn:Hm.
    + destruct (frame_matched s boxes Hwf tid i Ht Hm) as (i' & Hi & _).
      split; [discriminate | intros _; now exists i'].
    + rewrite (Hun eq_refl).
      destruct (misses i + 1 <=? MAX_MISSES) eqn:Ec.
      * apply Z.leb_le in Ec. split; [trivial | intros _; now eexists].
      * apply Z.leb_gt in Ec. split; [intros [i' Hi]; discriminate | lia].
  - unfold miss_count_after. intros i' Hi.
    destruct (matched s boxes tid) eqn:Hm.
    + destruct (frame_matched s boxes Hwf tid i Ht Hm) as (i0 & Hi0 & Hz).
      fold s' in Hi0. congruence.
    + rewrite (Hun eq_refl) in Hi.
      destruct (misses i + 1 <=? MAX_MISSES); [|discriminate].
      injection Hi as <-. reflexivity.
  - intros k i'. unfold track.
    destruct (Dict.get (tracked s') k) as [r|] eqn:Hget; [|discriminate].
    simpl. intros [= <-]. apply (frame_entry s boxes Hwf k r Hget).
Qed.

(** Scenario C through C5: a track with count 3 and no miss is carried
    through one frame without candidates, with one miss, and is gone after
    the second such frame. *)
Lemma eviction_exact_witness :
  let b := (10, 10, 50, 50) in
  let s3 := session initial [[b]; [b]; [b]] in
  track s3 0 = Some (mkInfo 3 b 0)
  /\ track (associate s3 []) 0 = Some (mkInfo 3 b 1)
  /\ track (associate (associate s3 []) []) 0 = None.
Proof.
  intros b s3.
  assert (R3 : reachable s3) by (apply session_reachable; constructor).
  assert (T3 : track s3 0 = Some (mkInfo 3 b 0)) by reflexivity.
  assert (T4 : track (associate s3 []) 0 = Some (mkInfo 3 b 1)).
  { apply (eviction_exact s3 [] 0 (mkInfo 3 b 0) R3 T3); [reflexivity|].
    simpl. unfold MAX_MISSES. lia. }
  split; [exact T3|]. split; [exact T4|].
  apply (eviction_exact (associate s3 []) [] 0 (mkInfo 3 b 1)
           (reach_frame s3 [] R3) T4); [reflexivity|].
  simpl. unfold MAX_MISSES. lia.
Defined.

(** C7.  A track is stable exactly when its count is at least
    [STABLE_FRAMES_REQUIRED]; the stable tracks are the items of the
    table that pass this test, read without any write; and the box
    (10,10,50,50) detected in three frames in a row from the empty table
    gives one track, with count 3, stable after the third frame and not
    before. *)
Theorem stability_classification (s : tracker) (tid : Z) (i : info) :
  (is_stable i = true <-> STABLE_FRAMES_REQUIRED <= count i)
  /\ (In (tid, i) (stable_tracks s)
      <-> In (tid, i) (items s) /\ STABLE_FRAMES_REQUIRED <= count i)
  /\ (exists s1 s2 s3,
         main_iteration initial [(10, 10, 40, 40)] = Some s1
         /\ main_iteration s1 [(10, 10, 40, 40)] = Some s2
         /\ main_iteration s2 [(10, 10, 40, 40)] = Some s3
         /\ items s3 = [(0, mkInfo 3 (10, 10, 50, 50) 0)]
         /\ stable_tracks s3 = items s3
         /\ stable_tracks s2 = []).
Proof.
  split; [|split].
  - unfold is_stable. apply Z.leb_le.
  - unfold stable_tracks. rewrite filter_In. unfold is_stable.
    rewrite Z.leb_le. reflexivity.
  - destruct (main_iteration initial [(10, 10, 40, 40)]) as [s1|] eqn:E1;
      [|vm_compute in E1; discriminate].
    destruct (main_iteration s1 [(10, 10, 40, 40)]) as [s2|] eqn:E2;
      [|vm_compute in E1; injection E1 as <-; vm_compute in E2; discriminate].
    destruct (main_iteration s2 [(10, 10, 40, 40)]) as [s3|] eqn:E3;
      [|vm_compute in E1; injection E1 as <-; vm_compute in E2;
        injection E2 as <-; vm_compute in E3; discriminate].
    exists s1, s2, s3.
    vm_compute in E1. injection E1 as <-.
    vm_compute in E2. injection E2 as <-.
    vm_compute in E3. injection E3 as <-.
    repeat split; reflexivity.
Qed.

(** C8.  In every table of a session the ids are pairwise distinct, they
    name pairwise distinct track dicts, and they are below the id counter; the counter never decreases; an id of the table
    that is later absent stays absent in every later table; every id of a
    later table is an id of the current one or at least the current
    counter; and a frame that leaves the table empty leaves the counter
    as it was. *)
Theorem track_ids_unique
  (s : tracker) (frames later : list (list ibox)) (boxes : list ibox) (tid : Z) :
  reachable s ->
  NoDup (ids s)
  /\ NoDup (map snd (tracked s))
  /\ (In tid (ids s) -> tid < next_track_id s)
  /\ next_track_id s <= next_track_id (session s frames)
  /\ (In tid (ids (session s frames)) ->
      In tid (ids s) \/ next_track_id s <= tid)
  /\ (In tid (ids s) ->
      ~ In tid (ids (session s frames)) ->
      ~ In tid (ids (session (session s frames) later)))
  /\ (ids (associate s boxes) = [] ->
      next_track_id (associate s boxes) = next_track_id s).
Proof.
  intros Hs. pose proof (reachable_well_formed s Hs) as Hwf.
  split; [exact (proj1 Hwf)|]. split; [exact (proj1 (proj2 Hwf))|].
  split; [apply reachable_ids_below, Hs|].
  destruct (session_ids s frames tid Hs) as [Hn Hk].
  split; [exact Hn|]. split; [exact Hk|]. split.
  - intros Hin Hout Hback.
    pose proof (reachable_ids_below s tid Hs Hin) as Hlt.
    destruct (session_ids (session s frames) later tid
                (session_reachable s frames Hs)) as [_ Hk'].
    destruct (Hk' Hback) as [H|H]; [contradiction | lia].
  - intros He. unfold ids, Dict.keys in He. apply map_eq_nil in He.
    rewrite (empty_table_no_candidates s boxes Hwf He).
    apply no_candidates_next, Hwf.
Qed.

(** C8 on a session: track 0 is dropped after two frames without
    candidates, the table is empty, the counter stays at 1, and the next
    candidate gets id 1. *)
Lemma track_ids_unique_witness :
  let b := (10, 10, 50, 50) in
  let s := session initial [[b]] in
  ids s = [0]
  /\ ids (session s [[]; []]) = []
  /\ next_track_id (session s [[]; []]) = 1
  /\ ~ In 0 (ids (session (session s [[]; []]) [[b]]))
  /\ ids (session (session s [[]; []]) [[b]]) = [1].
Proof.
  intros b s.
  assert (R : reachable s) by (apply session_reachable; constructor).
  split; [reflexivity|]. split; [reflexivity|]. split; [reflexivity|].
  split; [|reflexivity].
  apply (track_ids_unique s [[]; []] [[b]] [] 0 R).
  - left. reflexivity.
  - intros [].
Defined.

(** A candidate with [x2 < x1] or [y2 < y1] matches no track: it starts a
    track of its own. *)
Lemma degenerate_box_unmatched (trk : Dict.t ref) (f : frame) (box : ibox) :
  NoDup (Dict.keys trk) ->
  (let '(x1, y1, x2, y2) := box in x2 < x1 \/ y2 < y1) ->
  process_box trk f box =
  mkFrame (f_heap f ++ [mkInfo 1 box 0])
          (Dict.set (f_new_tracked f) (f_next_track_id f) (length (f_heap f)))
          (f_used_track_ids f)
          (f_next_track_id f + 1).
Proof.
  intros Hnd Hdeg.
  destruct (process_box_cases trk f box Hnd)
    as [(bid & r & _ & Hlt & _) | (_ & E)]; [|exact E].
  exfalso.
  rewrite (proj1 (iou_xyxy_degenerate box _ Hdeg)) in Hlt.
  discriminate Hlt.
Qed.

(** C1, on the code.  With one track for the box (0,0,99,99) in the table,
    a frame with the two detections (0,0,99,99) and (0,50,99,149), whose
    IoU 1/3 lets both pass non-max suppression, matches BOTH candidates to
    track 0: the second candidate is compared with the box the first one
    has just written, [used_track_ids] is not consulted, the count goes
    from 1 to 3 in one frame and no new track is started. *)
Theorem track_matched_twice_in_one_frame :
  exists s1 s2,
    main_iteration initial [(0, 0, 99, 99)] = Some s1
    /\ items s1 = [(0, mkInfo 1 (0, 0, 99, 99) 0)]
    /\ NMS.non_max_suppression
         (map to_float (map rect_to_xyxy [(0, 0, 99, 99); (0, 50, 99, 99)]))
         None NMS_OVERLAP_THRESH
       = Some [(0, 50, 99, 149); (0, 0, 99, 99)]
    /\ (iou_xyxy (0, 50, 99, 149)%Z (0, 0, 99, 99)%Z == 1 # 3)%Q
    /\ main_iteration s1 [(0, 0, 99, 99); (0, 50, 99, 99)] = Some s2
    /\ items s2 = [(0, mkInfo 3 (0, 0, 99, 99) 0)]
    /\ next_track_id s2 = 1
    /\ is_stable (mkInfo 3 (0, 0, 99, 99) 0) = true.
Proof.
  destruct (main_iteration initial [(0, 0, 99, 99)]) as [s1|] eqn:E1;
    [|vm_compute in E1; discriminate].
  destruct (main_iteration s1 [(0, 0, 99, 99); (0, 50, 99, 99)]) as [s2|] eqn:E2;
    [|vm_compute in E1; injection E1 as <-; vm_compute in E2; discriminate].
  exists s1, s2.
  vm_compute in E1. injection E1 as <-.
  vm_compute in E2. injection E2 as <-.
  repeat split; vm_compute; reflexivity.
Qed.

(** C6, on the code.  With one track for the box (0,0,99,99) in the table,
    a frame brings the candidates (0,10,99,109) and (0,60,99,159), in this
    order.  The second has IoU 1/4 with the box the track has in the
    previous table, which does not exceed 0.3; but the first candidate has
    matched the track and written its own box into the track dict, with
    which the second has IoU 1/3, so the second candidate is matched too:
    the count goes from 1 to 3, which makes the track stable after two
    frames, the last box is the second candidate and no new track is
    created.  Processed alone, or first, the second candidate starts a
    track of its own and leaves the box of track 0 as it was. *)
Theorem candidate_scored_against_updated_dict :
  exists s1 s2,
    main_iteration initial [(0, 0, 99, 99)] = Some s1
    /\ items s1 = [(0, mkInfo 1 (0, 0, 99, 99) 0)]
    /\ NMS.non_max_suppression
         (map to_float (map rect_to_xyxy [(0, 60, 99, 99); (0, 10, 99, 99)]))
         None NMS_OVERLAP_THRESH
       = Some [(0, 10, 99, 109); (0, 60, 99, 159)]
    /\ (iou_xyxy (0, 60, 99, 159)%Z (0, 0, 99, 99)%Z == 1 # 4)%Q
    /\ (iou_xyxy (0, 60, 99, 159)%Z (0, 10, 99, 109)%Z == 1 # 3)%Q
    /\ main_iteration s1 [(0, 60, 99, 99); (0, 10, 99, 99)] = Some s2
    /\ s2 = associate s1 [(0, 10, 99, 109); (0, 60, 99, 159)]
    /\ items s2 = [(0, mkInfo 3 (0, 60, 99, 159) 0)]
    /\ next_track_id s2 = 1
    /\ stable_tracks s2 = [(0, mkInfo 3 (0, 60, 99, 159) 0)]
    /\ items (associate s1 [(0, 60, 99, 159)])
       = [(1, mkInfo 1 (0, 60, 99, 159) 0); (0, mkInfo 1 (0, 0, 99, 99) 1)]
    /\ items (associate s1 [(0, 60, 99, 159); (0, 10, 99, 109)])
       = [(1, mkInfo 1 (0, 60, 99, 159) 0); (0, mkInfo 2 (0, 10, 99, 109) 0)].
Proof.
  destruct (main_iteration initial [(0, 0, 99, 99)]) as [s1|] eqn:E1;
    [|vm_compute in E1; discriminate].
  destruct (main_iteration s1 [(0, 60, 99, 99); (0, 10, 99, 99)]) as [s2|] eqn:E2;
    [|vm_compute in E1; injection E1 as <-; vm_compute in E2; discriminate].
  exists s1, s2.
  vm_compute in E1. injection E1 as <-.
  vm_compute in E2. injection E2 as <-.
  repeat split; vm_compute; reflexivity.
Qed.

End TrackFacts.

(** * Further properties *)

(** ** The IoU of the tracker as a number *)

Module IoUFacts.
Import MoreSpec.
Local Open Scope Z_scope.

Lemma ratio_make (a b : Z) :
  0 < b -> (inject_Z a / inject_Z b == a # Z.to_pos b)%Q.
Proof.
  intros Hb. destruct b as [|p|p]; try lia.
  simpl. symmetry. apply Qmake_Qdiv.
Qed.

Lemma ratio_bounds (a b : Z) :
  0 <= a <= b -> 0 < b -> (0 <= inject_Z a / inject_Z b <= 1)%Q.
Proof.
  intros Ha Hb. rewrite (ratio_make a b Hb). unfold Qle. simpl.
  rewrite Z2Pos.id by exact Hb. lia.
Qed.

Lemma ratio_one (a b : Z) :
  0 < b -> ((inject_Z a / inject_Z b == 1)%Q <-> a = b).
Proof.
  intros Hb. rewrite (ratio_make a b Hb). unfold Qeq. simpl.
  rewrite Z2Pos.id by exact Hb. lia.
Qed.

Lemma ratio_pos (a b : Z) :
  0 < b -> ((0 < inject_Z a / inject_Z b)%Q <-> 0 < a).
Proof.
  intros Hb. rewrite (ratio_make a b Hb). unfold Qlt. simpl. lia.
Qed.

Lemma iou_xyxy_areas (a b : ibox) :
  iou_xyxy a b =
  if union_area a b =? 0 then 0%Q
  else (inject_Z (inter_area a b) / inject_Z (union_area a b))%Q.
Proof.
  destruct a as [[[ax1 ay1] ax2] ay2], b as [[[bx1 by1] bx2] by2]. reflexivity.
Qed.

Lemma inter_area_sym (a b : ibox) : inter_area a b = inter_area b a.
Proof.
  destruct a as [[[ax1 ay1] ax2] ay2], b as [[[bx1 by1] bx2] by2]. simpl.
  now rewrite (Z.min_comm ax2), (Z.max_comm ax1), (Z.min_comm ay2), (Z.max_comm ay1).
Qed.

Lemma inter_area_nonneg (a b : ibox) : 0 <= inter_area a b.
Proof.
  destruct a as [[[ax1 ay1] ax2] ay2], b as [[[bx1 by1] bx2] by2]. simpl.
  apply Z.mul_nonneg_nonneg; apply Z.le_max_l.
Qed.

Lemma inter_area_pos (a b : ibox) : 0 < inter_area a b <-> share_pixel a b.
Proof.
  destruct a as [[[ax1 ay1] ax2] ay2], b as [[[bx1 by1] bx2] by2]. simpl.
  set (dx := Z.min ax2 bx2 - Z.max ax1 bx1 + 1).
  set (dy := Z.min ay2 by2 - Z.max ay1 by1 + 1).
  assert (Hx : Z.max ax1 bx1 <= Z.min ax2 bx2 <-> 0 < dx) by (unfold dx; lia).
  assert (Hy : Z.max ay1 by1 <= Z.min ay2 by2 <-> 0 < dy) by (unfold dy; lia).
  rewrite Hx, Hy. clearbody dx dy. split.
  - intros H. assert (0 < Z.max 0 dx /\ 0 < Z.max 0 dy) by nia. lia.
  - intros [H1 H2]. rewrite !Z.max_r by lia. nia.
Qed.

(** A positive intersection is part of both boxes. *)
Lemma inter_area_le (a b : ibox) :
  0 < inter_area a b ->
  inter_area a b <= box_area a /\ inter_area a b <= box_area b.
Proof.
  destruct a as [[[ax1 ay1] ax2] ay2], b as [[[bx1 by1] bx2] by2]. simpl.
  set (dx := Z.min ax2 bx2 - Z.max ax1 bx1 + 1).
  set (dy := Z.min ay2 by2 - Z.max ay1 by1 + 1).
  intros H.
  assert (Hd : 0 < Z.max 0 dx /\ 0 < Z.max 0 dy) by nia.
  assert (Hx : Z.max 0 dx <= ax2 - ax1 + 1 /\ Z.max 0 dx <= bx2 - bx1 + 1)
    by (unfold dx in *; lia).
  assert (Hy : Z.max 0 dy <= ay2 - ay1 + 1 /\ Z.max 0 dy <= by2 - by1 + 1)
    by (unfold dy in *; lia).
  clearbody dx dy. split; apply Z.mul_le_mono_nonneg; lia.
Qed.

(** The two ways [iou_xyxy] ends: no common pixel and the value 0, or a
    quotient of two positive areas. *)
Lemma iou_xyxy_cases (a b : ibox) :
  (inter_area a b = 0 /\ (iou_xyxy a b == 0)%Q)
  \/ (0 < inter_area a b <= union_area a b
      /\ iou_xyxy a b
         = (inject_Z (inter_area a b) / inject_Z (union_area a b))%Q).
Proof.
  pose proof (inter_area_nonneg a b) as Hn.
  destruct (Z.eq_dec (inter_area a b) 0) as [E|E].
  - left. split; [exact E|]. rewrite iou_xyxy_areas, E.
    destruct (_ =? 0); [reflexivity|]. unfold Qdiv. now rewrite Qmult_0_l.
  - right. assert (Hp : 0 < inter_area a b) by lia.
    destruct (inter_area_le a b Hp) as [Ha Hb].
    assert (Hu : inter_area a b <= union_area a b) by (unfold union_area; lia).
    split; [lia|]. rewrite iou_xyxy_areas.
    destruct (union_area a b =? 0) eqn:E0; [apply Z.eqb_eq in E0; lia | reflexivity].
Qed.

(** X1.  The IoU of the tracker does not depend on the order of its two
    boxes, and for all boxes, degenerate ones included, it is a number
    between 0 and 1. *)
Theorem iou_xyxy_symmetric_bounded (a b : ibox) :
  iou_xyxy a b = iou_xyxy b a /\ (0 <= iou_xyxy a b <= 1)%Q.
Proof.
  split.
  - rewrite !iou_xyxy_areas. unfold union_area.
    rewrite (inter_area_sym b a), (Z.add_comm (box_area b)). reflexivity.
  - destruct (iou_xyxy_cases a b) as [[_ E]|[H E]].
    + rewrite E. split; [apply Qle_refl | discriminate].
    + rewrite E. apply ratio_bounds; lia.
Qed.

(** X2.  The IoU is positive exactly when the two boxes have a pixel in
    common (both coordinates inclusive, so boxes that meet in one row or
    column of pixels count), and it is 0 otherwise. *)
Theorem iou_xyxy_positive_iff (a b : ibox) :
  ((0 < iou_xyxy a b)%Q <-> share_pixel a b)
  /\ ((iou_xyxy a b == 0)%Q <-> ~ share_pixel a b).
Proof.
  rewrite <- inter_area_pos.
  destruct (iou_xyxy_cases a b) as [[Hz E]|[H E]].
  - rewrite E, Hz. split; split; intros H; try lia; try reflexivity.
    discriminate H.
  - rewrite E.
    assert (Hp : (0 < inject_Z (inter_area a b) / inject_Z (union_area a b))%Q)
      by (apply ratio_pos; lia).
    split; split; intros H'; try lia; try exact Hp.
    rewrite H' in Hp. discriminate Hp.
Qed.

Lemma mul_eq_sides (x y x' y' : Z) :
  0 < x <= x' -> 0 < y <= y' -> x * y = x' * y' -> x = x' /\ y = y'.
Proof.
  intros Hx Hy E.
  assert (H1 : x * y <= x' * y) by (apply Z.mul_le_mono_nonneg_r; lia).
  assert (H2 : x' * y <= x' * y') by (apply Z.mul_le_mono_nonneg_l; lia).
  assert (E1 : x * y = x' * y) by lia.
  assert (E2 : x' * y = x' * y') by lia.
  apply Z.mul_cancel_r in E1; [|lia].
  apply Z.mul_cancel_l in E2; [|lia]. split; assumption.
Qed.

Lemma iou_one_cases (a b : ibox) :
  (iou_xyxy a b == 1)%Q <-> a = b /\ proper a.
Proof.
  destruct (iou_xyxy_cases a b) as [[Hz E]|[H E]].
  - rewrite E. split; [discriminate|].
    intros [<- Hp]. exfalso. revert Hz Hp.
    destruct a as [[[x1 y1] x2] y2]. simpl.
    rewrite !Z.min_id, !Z.max_id. intros Hz [Hx Hy].
    rewrite !Z.max_r in Hz by lia.
    apply Z.mul_eq_0 in Hz. lia.
  - rewrite E, ratio_one by lia. unfold union_area.
    destruct (inter_area_le a b (proj1 H)) as [Ha Hb]. revert H Ha Hb.
    destruct a as [[[ax1 ay1] ax2] ay2], b as [[[bx1 by1] bx2] by2]. simpl.
    set (dx := Z.min ax2 bx2 - Z.max ax1 bx1 + 1).
    set (dy := Z.min ay2 by2 - Z.max ay1 by1 + 1).
    intros H Ha Hb.
    assert (Hd : 0 < Z.max 0 dx /\ 0 < Z.max 0 dy).
    { pose proof (Z.le_max_l 0 dx). pose proof (Z.le_max_l 0 dy).
      destruct (Z.eq_dec (Z.max 0 dx) 0) as [E0|]; [rewrite E0 in H; lia|].
      destruct (Z.eq_dec (Z.max 0 dy) 0) as [E0|]; [|lia].
      rewrite E0, Z.mul_0_r in H. lia. }
    assert (Hx : Z.max 0 dx <= ax2 - ax1 + 1 /\ Z.max 0 dx <= bx2 - bx1 + 1)
      by (unfold dx in *; lia).
    assert (Hy : Z.max 0 dy <= ay2 - ay1 + 1 /\ Z.max 0 dy <= by2 - by1 + 1)
      by (unfold dy in *; lia).
    split.
    + intros Heq.
      destruct (mul_eq_sides (Z.max 0 dx) (Z.max 0 dy)
                  (ax2 - ax1 + 1) (ay2 - ay1 + 1)) as [E1 E3]; try lia.
      destruct (mul_eq_sides (Z.max 0 dx) (Z.max 0 dy)
                  (bx2 - bx1 + 1) (by2 - by1 + 1)) as [E2 E4]; try lia.
      unfold dx, dy in *. split; [|lia].
      repeat f_equal; lia.
    + intros [Heq [Hpx Hpy]]. injection Heq as <- <- <- <-.
      unfold dx, dy. rewrite !Z.min_id, !Z.max_id.
      rewrite !Z.max_r by lia. lia.
Qed.

(** X23.  The IoU does not change when both boxes are moved by the same
    number of columns and rows. *)
Theorem iou_xyxy_shift (dx dy : Z) (a b : ibox) :
  iou_xyxy (shift dx dy a) (shift dx dy b) = iou_xyxy a b.
Proof.
  rewrite !iou_xyxy_areas. unfold union_area.
  assert (Ei : inter_area (shift dx dy a) (shift dx dy b) = inter_area a b).
  { destruct a as [[[ax1 ay1] ax2] ay2], b as [[[bx1 by1] bx2] by2]. simpl.
    f_equal; f_equal; lia. }
  assert (Ea : forall c, box_area (shift dx dy c) = box_area c).
  { intros [[[x1 y1] x2] y2]. simpl. f_equal; lia. }
  now rewrite Ei, !Ea.
Qed.

(** *** The two IoU computations of the script *)

Lemma Qmax_inject (x y : Z) :
  (Qmax (inject_Z x) (inject_Z y) == inject_Z (Z.max x y))%Q.
Proof.
  destruct (Z.le_ge_cases x y) as [H|H].
  - rewrite Z.max_r by exact H. apply Q.max_r. now rewrite <- Zle_Qle.
  - rewrite Z.max_l by lia. apply Q.max_l. now rewrite <- Zle_Qle.
Qed.

Lemma Qmin_inject (x y : Z) :
  (Qmin (inject_Z x) (inject_Z y) == inject_Z (Z.min x y))%Q.
Proof.
  destruct (Z.le_ge_cases x y) as [H|H].
  - rewrite Z.min_l by exact H. apply Q.min_l. now rewrite <- Zle_Qle.
  - rewrite Z.min_r by lia. apply Q.min_r. now rewrite <- Zle_Qle.
Qed.





Lemma inject_Z_zero (z : Z) : Qis_zero (inject_Z z) = (z =? 0).
Proof.
  unfold Qis_zero. destruct (z =? 0) eqn:E.
  - apply Z.eqb_eq in E. now subst.
  - apply Z.eqb_neq in E. destruct (Qeq_bool (inject_Z z) 0) eqn:E'; [|reflexivity].
    apply Qeq_bool_iff in E'. apply (inject_Z_injective z 0) in E'. contradiction.
Qed.



End IoUFacts.

(** ** More on non-max suppression *)

Module NMSMore.
Import NMS NMSSpec NMSFacts MoreSpec.

Lemma StronglySorted_filter {A} (R : A -> A -> Prop) (f : A -> bool) (l : list A) :
  StronglySorted R l -> StronglySorted R (filter f l).
Proof.
  induction 1 as [|a l Hs IH Ha]; simpl; [constructor|].
  destruct (f a); [|exact IH]. constructor; [exact IH|].
  rewrite Forall_forall in Ha |- *. intros x Hx.
  apply filter_In in Hx. apply Ha, Hx.
Qed.

(** The head of the ranking has a maximal key. *)
Lemma ranking_head (keys : list Q) :
  keys <> [] ->
  exists i rest,
    ranking keys = i :: rest
    /\ (i < length keys)%nat
    /\ Forall (fun k => k <= nth i keys 0) keys.
Proof.
  intros Hne.
  pose proof (ranking_perm keys) as Hp. pose proof (ranking_sorted keys) as Hs.
  destruct (ranking keys) as [|i rest] eqn:E.
  - apply Permutation_nil in Hp. destruct keys; [contradiction | discriminate].
  - exists i, rest. split; [reflexivity|].
    assert (Hi : (i < length keys)%nat).
    { apply ranking_valid. rewrite E. now left. }
    split; [exact Hi|].
    apply StronglySorted_inv in Hs. destruct Hs as [_ Hall].
    rewrite Forall_forall in Hall |- *. intros k Hk.
    destruct (In_nth _ _ 0 Hk) as [j [Hj <-]].
    assert (Hin : In j (i :: rest)).
    { apply (Permutation_in _ (Permutation_sym Hp)). apply in_seq. lia. }
    destruct Hin as [<-|Hin]; [apply Qle_refl|].
    destruct (Hall j Hin) as [H|[H _]].
    + apply Qlt_le_weak, H.
    + rewrite H. apply Qle_refl.
Qed.

(** Every index that enters the loop is picked or fails the test against a
    picked index that stands before it. *)
Lemma nms_loop_complete (boxes : list fbox) (thr : Q)
  (R : nat -> nat -> Prop) (idxs : list nat) :
  StronglySorted R idxs ->
  forall i, In i idxs ->
    In i (nms_loop boxes thr idxs)
    \/ exists j, In j (nms_loop boxes thr idxs)
                 /\ R j i /\ keeps boxes thr j i = false.
Proof.
  apply loop_induction with
    (P := fun idxs pick =>
            StronglySorted R idxs ->
            forall i, In i idxs ->
              In i pick \/ exists j, In j pick /\ R j i /\ keeps boxes thr j i = false).
  - intros _ i [].
  - intros i0 rest IH Hs i [<-|Hin]; [left; now left|].
    apply StronglySorted_inv in Hs. destruct Hs as [Hs H0].
    destruct (keeps boxes thr i0 i) eqn:Ek.
    + destruct (IH (StronglySorted_filter _ _ _ Hs) i) as [H|[j [H1 H2]]].
      * apply filter_In. split; assumption.
      * left. now right.
      * right. exists j. split; [now right | exact H2].
    + right. exists i0. split; [now left|]. split; [|exact Ek].
      rewrite Forall_forall in H0. apply H0, Hin.
Qed.

(** X6.  Called without scores on at least one box, the function returns
    at least one box, and the first box it returns is the truncation of an
    input box of maximal area. *)
Theorem nms_keeps_largest (b : fbox) (boxes : list fbox) (thr : Q) :
  exists i out,
    non_max_suppression (b :: boxes) None thr
      = Some (astype_int (row (b :: boxes) i) :: out)
    /\ (i < length (b :: boxes))%nat
    /\ Forall (fun c => area c <= area (row (b :: boxes) i)) (b :: boxes).
Proof.
  set (all := b :: boxes).
  destruct (ranking_head (map area all)) as (i & rest & E & Hi & Hmax);
    [discriminate|].
  rewrite length_map in Hi.
  exists i, (map (fun i => astype_int (row all i))
                 (nms_loop all thr (filter (keeps all thr i) rest))).
  split; [|split; [exact Hi|]].
  - rewrite non_max_suppression_picked. unfold picked.
    rewrite E, nms_loop_cons. reflexivity.
  - rewrite Forall_forall in Hmax |- *. intros c Hc.
    specialize (Hmax (area c) (in_map area _ _ Hc)).
    unfold row. rewrite (nth_indep _ 0 (area zero_row)) in Hmax
      by (now rewrite length_map).
    now rewrite map_nth in Hmax.
Qed.

(** X7.  Called without scores, the function drops a box only for a box it
    returns: every input position is picked, or there is a picked position
    whose box has at least the same area and against which the test
    [iou <= iou_threshold] fails (a larger IoU, or nan). *)
Theorem nms_suppressed_by_kept (boxes : list fbox) (thr : Q) :
  exists pick,
    non_max_suppression boxes None thr
      = Some (map (fun i => astype_int (row boxes i)) pick)
    /\ Forall
         (fun i =>
            In i pick
            \/ exists j, In j pick
                         /\ area (row boxes i) <= area (row boxes j)
                         /\ np_le (iou_rows (row boxes j) (row boxes i)) thr = false)
         (seq 0 (length boxes)).
Proof.
  exists (picked boxes thr). split; [apply non_max_suppression_picked|].
  rewrite Forall_forall. intros i Hi. apply in_seq in Hi.
  assert (Hin : In i (ranking (map area boxes))).
  { apply (Permutation_in _ (Permutation_sym (ranking_perm _))).
    apply in_seq. rewrite length_map. lia. }
  destruct (nms_loop_complete boxes thr _ _ (ranking_sorted (map area boxes)) i Hin)
    as [H|[j [Hj [HR Hk]]]]; [now left|].
  right. exists j. split; [exact Hj|]. split; [|exact Hk].
  assert (Hjv : (j < length boxes)%nat) by (apply picked_valid in Hj; exact Hj).
  unfold before in HR. unfold row.
  rewrite (nth_indep _ 0 (area zero_row)) in HR by (rewrite length_map; lia).
  rewrite (nth_indep (map area boxes) 0 (area zero_row)) in HR
    by (rewrite length_map; lia).
  rewrite !map_nth in HR. destruct HR as [H|[H _]].
  - apply Qlt_le_weak, H.
  - rewrite H. apply Qle_refl.
Qed.

(** X8.  With scores, on at least one box: the call raises [IndexError]
    exactly when there are more scores than boxes; otherwise it returns
    truncated input boxes of distinct positions that all have a score (a
    box beyond the last score is never returned), starting, when there is a
    score at all, with a box of maximal score.  On no box it returns the
    empty list whatever the scores. *)
Theorem nms_with_scores (b : fbox) (boxes : list fbox) (scores : list Q) (thr : Q) :
  (non_max_suppression (b :: boxes) (Some scores) thr = None
   <-> (length (b :: boxes) < length scores)%nat)
  /\ (forall out,
         non_max_suppression (b :: boxes) (Some scores) thr = Some out ->
         exists pick,
           out = map (fun i => astype_int (row (b :: boxes) i)) pick
           /\ NoDup pick
           /\ Forall (fun i => (i < length scores)%nat
                               /\ (i < length (b :: boxes))%nat) pick
           /\ (scores <> [] ->
               exists i rest,
                 pick = i :: rest
                 /\ Forall (fun sc => sc <= nth i scores 0) scores))
  /\ non_max_suppression [] (Some scores) thr = Some [].
Proof.
  set (all := b :: boxes).
  split; [|split; [|reflexivity]].
  - unfold non_max_suppression.
    replace (length all =? 0)%nat with false by reflexivity.
    destruct (length scores <=? length all)%nat eqn:E.
    + apply Nat.leb_le in E. split; [discriminate | lia].
    + apply Nat.leb_gt in E. split; [intros _; exact E | reflexivity].
  - intros out. unfold non_max_suppression.
    replace (length all =? 0)%nat with false by reflexivity.
    destruct (length scores <=? length all)%nat eqn:E; [|discriminate].
    apply Nat.leb_le in E. intros [= <-].
    exists (nms_loop all thr (ranking scores)).
    split; [reflexivity|]. split; [apply nms_loop_NoDup, ranking_NoDup|].
    split.
    + rewrite Forall_forall. intros i Hi.
      apply nms_loop_incl, ranking_valid in Hi. lia.
    + intros Hne.
      destruct (ranking_head scores Hne) as (i & rest & Er & _ & Hmax).
      rewrite Er, nms_loop_cons. eexists _, _. split; [reflexivity | exact Hmax].
Qed.

(** *** Boxes that hold a pixel *)

Lemma proper_area (a : ibox) : proper a -> (1 <= box_area a)%Z.
Proof.
  destruct a as [[[x1 y1] x2] y2]. simpl. intros [Hx Hy].
  change 1%Z with (1 * 1)%Z. apply Z.mul_le_mono_nonneg; lia.
Qed.

Lemma proper_union (a b : ibox) :
  proper a -> proper b -> (0 < union_area a b)%Z.
Proof.
  intros Ha Hb. apply proper_area in Ha, Hb.
  destruct (IoUFacts.iou_xyxy_cases a b) as [[Hz _]|[H _]]; [|lia].
  unfold union_area. lia.
Qed.

Lemma nth_proper (boxes : list ibox) (i : nat) :
  Forall proper boxes -> (i < length boxes)%nat -> proper (nth i boxes zero_ibox).
Proof.
  intros Hall Hi. rewrite Forall_forall in Hall. apply Hall, nth_In, Hi.
Qed.

End NMSMore.

(** ** More on the adapters and the crop *)

Module AdapterFacts.
Local Open Scope Z_scope.

Lemma trunc_diff (x y : Z) : trunc (inject_Z x - inject_Z y) = x - y.
Proof.
  apply NMSFacts.trunc_whole. unfold Z.sub.
  now rewrite inject_Z_plus, inject_Z_opp.
Qed.

(** X10.  On integers the two adapters are inverse to each other, in both
    directions. *)
Theorem rect_xyxy_round_trip (r : rect) (b : ibox) :
  xyxy_to_rect (to_float (rect_to_xyxy r)) = r
  /\ rect_to_xyxy (xyxy_to_rect (to_float b)) = b.
Proof.
  destruct r as [[[x y] w] h], b as [[[x1 y1] x2] y2]. simpl.
  rewrite !trunc_inject_Z, !trunc_diff. split; repeat f_equal; lia.
Qed.

Lemma slice_len_inside (n lo hi : Z) :
  0 <= lo -> 0 <= hi <= n -> slice_len n lo hi = Z.max 0 (hi - lo).
Proof.
  intros Hlo Hhi. unfold slice_len, slice_bound.
  destruct (hi <? 0) eqn:E1; [apply Z.ltb_lt in E1; lia|].
  destruct (lo <? 0) eqn:E2; [apply Z.ltb_lt in E2; lia|]. lia.
Qed.

(** X11.  For a box inside a frame of [width] columns and [height] rows,
    the crop of line 215 has [x2 - x1] columns and [y2 - y1] rows, the
    width and height of the detector's rectangle; a box that reaches the
    right or the bottom border is clipped to the last index and loses one
    column or row. *)
Theorem crop_shape_inside (width height : Z) (b : ibox) :
  (let '(x1, y1, x2, y2) := b in
   0 <= x1 <= x2 /\ x2 <= width /\ 0 <= y1 <= y2 /\ y2 <= height) ->
  crop_shape width height b =
  (let '(x1, y1, x2, y2) := b in
   (if y2 <? height then y2 - y1 else Z.max 0 (y2 - y1 - 1),
    if x2 <? width then x2 - x1 else Z.max 0 (x2 - x1 - 1))).
Proof.
  destruct b as [[[x1 y1] x2] y2]. intros (Hx1 & Hx2 & Hy1 & Hy2).
  unfold crop_shape, clip_box.
  destruct (Z.eq_dec width 0) as [Hw|Hw]; destruct (Z.eq_dec height 0) as [Hh|Hh].
  - assert (x1 = 0 /\ x2 = 0 /\ y1 = 0 /\ y2 = 0) as (-> & -> & -> & ->) by lia.
    subst. reflexivity.
  - assert (x1 = 0 /\ x2 = 0) as (-> & ->) by lia. subst width.
    rewrite (slice_len_inside height) by lia.
    f_equal. destruct (y2 <? height) eqn:E;
      [apply Z.ltb_lt in E | apply Z.ltb_ge in E]; lia.
  - assert (y1 = 0 /\ y2 = 0) as (-> & ->) by lia. subst height.
    rewrite (slice_len_inside width) by lia.
    f_equal. destruct (x2 <? width) eqn:E;
      [apply Z.ltb_lt in E | apply Z.ltb_ge in E]; lia.
  - rewrite (slice_len_inside height), (slice_len_inside width) by lia.
    f_equal.
    + destruct (y2 <? height) eqn:E;
        [apply Z.ltb_lt in E | apply Z.ltb_ge in E]; lia.
    + destruct (x2 <? width) eqn:E;
        [apply Z.ltb_lt in E | apply Z.ltb_ge in E]; lia.
Qed.

(** X11 on a 640 x 480 frame: a 100 x 100 rectangle in the middle is
    cropped whole, the same rectangle at the right border loses a column. *)
Lemma crop_shape_inside_witness :
  crop_shape 640 480 (rect_to_xyxy (200, 100, 100, 100)) = (100, 100)
  /\ crop_shape 640 480 (rect_to_xyxy (540, 100, 100, 100)) = (100, 99).
Proof.
  split.
  - rewrite (crop_shape_inside 640 480 (rect_to_xyxy (200, 100, 100, 100)));
      [reflexivity | simpl; lia].
  - rewrite (crop_shape_inside 640 480 (rect_to_xyxy (540, 100, 100, 100)));
      [reflexivity | simpl; lia].
Defined.

End AdapterFacts.

(** ** More on the tracker *)

Module TrackMore.
Import TrackSpec MoreSpec DictFacts StoreFacts TrackFacts.
Local Open Scope Z_scope.

Section Best.

Variable h : store.
Variable box : ibox.

Let sc (item : Z * ref) : Q := score_of h box (snd item).

Lemma best_fold_first (trk : Dict.t ref) (acc : option Z * Q) :
  (fold_left (best_step h box) trk acc = acc
   /\ Forall (fun item => (sc item <= snd acc)%Q) trk)
  \/ (exists pre tid r post,
         trk = pre ++ (tid, r) :: post
         /\ fold_left (best_step h box) trk acc = (Some tid, score_of h box r)
         /\ (snd acc < score_of h box r)%Q
         /\ Forall (fun item => (sc item < score_of h box r)%Q) pre
         /\ Forall (fun item => (sc item <= score_of h box r)%Q) post).
Proof.
  revert acc. induction trk as [|[t0 r0] trk IH]; intros [bid biou].
  - left. split; [reflexivity | constructor].
  - cbn [fold_left best_step]. fold (score_of h box r0).
    destruct (Qltb biou (score_of h box r0)) eqn:E.
    + apply Qltb_lt in E. right.
      destruct (IH (Some t0, score_of h box r0))
        as [[Hres Hall]|(pre & tid & r & post & -> & Hres & Hlt & Hpre & Hpost)].
      * exists [], t0, r0, trk. simpl in *.
        repeat split; [exact Hres | exact E | constructor | exact Hall].
      * exists ((t0, r0) :: pre), tid, r, post. simpl in *.
        split; [reflexivity|]. split; [exact Hres|].
        split; [eapply Qlt_trans; eassumption|].
        split; [constructor; [exact Hlt | exact Hpre] | exact Hpost].
    + apply Qltb_ge in E.
      destruct (IH (bid, biou))
        as [[Hres Hall]|(pre & tid & r & post & -> & Hres & Hlt & Hpre & Hpost)].
      * left. split; [exact Hres|]. constructor; [exact E | exact Hall].
      * right. exists ((t0, r0) :: pre), tid, r, post. simpl in *.
        split; [reflexivity|]. split; [exact Hres|]. split; [exact Hlt|].
        split; [|exact Hpost].
        constructor; [|exact Hpre]. eapply Qle_lt_trans; eassumption.
Qed.

End Best.

(** X12.  The inner loop returns no track, with best IoU 0, exactly when
    no track has a positive IoU with the candidate; otherwise it returns
    the FIRST track of the table, in insertion order, among those of
    maximal IoU. *)
Theorem best_match_first_maximal (h : store) (trk : Dict.t ref) (box : ibox) :
  (best_match h trk box = (None, 0%Q)
   /\ Forall (fun item => (score_of h box (snd item) <= 0)%Q) trk)
  \/ (exists pre tid r post,
         trk = pre ++ (tid, r) :: post
         /\ best_match h trk box = (Some tid, score_of h box r)
         /\ (0 < score_of h box r)%Q
         /\ Forall (fun item =>
                      (score_of h box (snd item) < score_of h box r)%Q) pre
         /\ Forall (fun item =>
                      (score_of h box (snd item) <= score_of h box r)%Q) post).
Proof. exact (best_fold_first h box trk (None, 0%Q)). Qed.

(** *** Counts and boxes through the association loop *)

Section Counts.

Variable s : tracker.
Hypothesis Hwf : well_formed s.

Lemma count_inv_start :
  count_inv s [] (mkFrame (heap s) [] [] (next_track_id s)).
Proof.
  constructor; simpl.
  - intros k r _. lia.
  - discriminate.
  - discriminate.
Qed.

Lemma process_box_count_inv (done : list ibox) (f : frame) (box : ibox) :
  match_inv s f ->
  count_inv s done f ->
  count_inv s (box :: done) (process_box (tracked s) f box).
Proof.
  intros Hinv Hci.
  pose proof (mi_heap _ _ Hinv) as Hlen.
  pose proof (mi_next _ _ Hinv) as Hnext.
  pose proof (mi_fresh _ _ Hinv) as Hfresh.
  assert (Hfr : forall k r0, Dict.get (f_new_tracked f) k = Some r0 ->
                             next_track_id s <= k ->
                             (length (heap s) <= r0 < length (f_heap f))%nat).
  { intros k r0 Hg Hk.
    destruct (mi_new _ _ Hinv k r0 Hg) as [[H _]|(H1 & H2 & _)].
    - destruct (wf_bounds s Hwf _ _ H). lia.
    - lia. }
  destruct (process_box_cases (tracked s) f box (wf_keys s Hwf))
    as [(bid & r & Hget & _ & _ & ->) | (_ & ->)].
  - destruct (wf_bounds s Hwf _ _ Hget) as [Hr Hbid].
    constructor; cbn [f_heap f_new_tracked f_used_track_ids length].
    + intros k r0 Hk. pose proof (ci_bound _ _ _ Hci k r0 Hk) as Hb.
      destruct (Nat.eq_dec r r0) as [<-|Hne].
      * rewrite deref_assign_eq by lia. simpl.
        pose proof (ci_bound _ _ _ Hci bid r Hget). lia.
      * rewrite deref_assign_ne by exact Hne. lia.
    + intros k r0 Hk Hm. rewrite mem_add in Hm.
      destruct (Z.eq_dec k bid) as [->|Hne].
      * assert (r0 = r) by congruence. subst r0.
        rewrite deref_assign_eq by lia. simpl.
        pose proof (ci_bound _ _ _ Hci bid r Hget).
        split; [lia | now left].
      * apply Z.eqb_neq in Hne. rewrite Hne in Hm. simpl in Hm.
        apply Z.eqb_neq in Hne.
        destruct (ci_matched _ _ _ Hci k r0 Hk Hm) as [H1 H2].
        rewrite deref_assign_ne.
        -- split; [exact H1 | now right].
        -- intros ->. apply Hne. exact (wf_injective s Hwf _ _ _ Hk Hget).
    + intros k r0 Hg Hk.
      rewrite get_set_ne in Hg by lia.
      destruct (ci_fresh _ _ _ Hci k r0 Hg Hk) as [b [Hb Hd]].
      pose proof (Hfr k r0 Hg Hk).
      exists b. split; [now right|]. rewrite deref_assign_ne; [exact Hd | lia].
  - constructor; cbn [f_heap f_new_tracked f_used_track_ids length].
    + intros k r0 Hk. destruct (wf_bounds s Hwf _ _ Hk) as [Hr0 _].
      rewrite deref_app_old by lia.
      pose proof (ci_bound _ _ _ Hci k r0 Hk). lia.
    + intros k r0 Hk Hm. destruct (wf_bounds s Hwf _ _ Hk) as [Hr0 _].
      rewrite deref_app_old by lia.
      destruct (ci_matched _ _ _ Hci k r0 Hk Hm) as [H1 H2].
      split; [exact H1 | now right].
    + intros k r0 Hg Hk.
      destruct (Z.eq_dec (f_next_track_id f) k) as [<-|Hne].
      * rewrite get_set_eq in Hg. injection Hg as <-.
        exists box. split; [now left | apply deref_app_new].
      * rewrite get_set_ne in Hg by exact Hne.
        destruct (ci_fresh _ _ _ Hci k r0 Hg Hk) as [b [Hb Hd]].
        pose proof (Hfr k r0 Hg Hk).
        exists b. split; [now right|]. rewrite deref_app_old; [exact Hd | lia].
Qed.

Lemma fold_process_box_count_inv (boxes done : list ibox) (f : frame) :
  match_inv s f ->
  count_inv s done f ->
  count_inv s (rev boxes ++ done) (fold_left (process_box (tracked s)) boxes f).
Proof.
  revert done f. induction boxes as [|box boxes IH]; intros done f Hinv Hci; simpl.
  - exact Hci.
  - rewrite <- app_assoc. simpl. apply IH.
    + apply process_box_inv; assumption.
    + apply process_box_count_inv; assumption.
Qed.

Lemma match_phase_count_inv (boxes : list ibox) :
  count_inv s (rev boxes) (match_phase s boxes).
Proof.
  rewrite <- (app_nil_r (rev boxes)).
  apply fold_process_box_count_inv;
    [apply match_inv_start | apply count_inv_start]; exact Hwf.
Qed.

End Counts.

Lemma matched_no_candidates (s : tracker) (tid : Z) : matched s [] tid = false.
Proof. reflexivity. Qed.

Lemma track_get (s : tracker) (k : Z) (i : info) :
  track s k = Some i <->
  exists r, Dict.get (tracked s) k = Some r /\ deref (heap s) r = i.
Proof.
  unfold track. destruct (Dict.get (tracked s) k) as [r|]; simpl.
  - split; [intros [= <-]; now exists r | intros [r' [[= <-] <-]]; reflexivity].
  - split; [discriminate | intros [r' [H _]]; discriminate].
Qed.

(** Where a track of the new table comes from. *)
Lemma frame_classify (s : tracker) (boxes : list ibox) (k : Z) (i' : info) :
  well_formed s ->
  track (associate s boxes) k = Some i' ->
  (exists i, track s k = Some i
             /\ matched s boxes k = true
             /\ misses i' = 0
             /\ count i < count i' <= count i + Z.of_nat (length boxes)
             /\ In (last_xyxy i') boxes)
  \/ (exists i, track s k = Some i
                /\ matched s boxes k = false
                /\ i' = aged i
                /\ misses i + 1 <= MAX_MISSES)
  \/ (track s k = None
      /\ next_track_id s <= k < next_track_id (associate s boxes)
      /\ exists b, In b boxes /\ i' = new_info b).
Proof.
  intros Hwf Ht. apply track_get in Ht. destruct Ht as [r [Hget <-]].
  pose proof (match_phase_inv s Hwf boxes) as Hinv.
  pose proof (match_phase_count_inv s Hwf boxes) as Hci.
  destruct (frame_age s boxes Hwf) as (_ & Hn & _ & _ & Hun & Hh & Hg).
  unfold matched. unfold associate in *. cbn [heap tracked next_track_id] in *.
  set (f := match_phase s boxes) in *. rewrite Hn.
  destruct (Dict.get (tracked s) k) as [r0|] eqn:HT.
  - destruct (mem k (f_used_track_ids f)) eqn:Hm.
    + left. exists (deref (heap s) r0).
      rewrite (Hg k) in Hget by (intros r1 _; exact Hm).
      destruct (mi_used _ _ Hinv k Hm) as (r1 & H1 & H2 & H3).
      assert (r1 = r0) by congruence. assert (r = r0) by congruence. subst r1 r.
      rewrite (Hh r0).
      * split; [unfold track; now rewrite HT|]. split; [reflexivity|].
        split; [exact H3|].
        destruct (ci_matched _ _ _ Hci k r0 HT Hm) as [C1 C2].
        pose proof (ci_bound _ _ _ Hci k r0 HT) as C3.
        rewrite length_rev in C3. apply in_rev in C2.
        split; [lia | exact C2].
      * intros k1 Hin. apply (in_get _ _ _ (wf_keys s Hwf)) in Hin.
        now rewrite (wf_injective s Hwf _ _ _ Hin HT).
    + destruct (Hun k r0 (get_in _ _ _ HT) Hm) as [Ed Eg].
      rewrite Eg in Hget. rewrite (mi_kept _ _ Hinv k r0 HT Hm) in Ed, Hget.
      destruct (misses (deref (heap s) r0) + 1 <=? MAX_MISSES) eqn:Ec.
      * injection Hget as <-. right. left. exists (deref (heap s) r0).
        split; [unfold track; now rewrite HT|]. split; [reflexivity|].
        split; [exact Ed | apply Z.leb_le, Ec].
      * exfalso. destruct (mi_new _ _ Hinv k r Hget) as [[_ H]|[H _]].
        -- congruence.
        -- destruct (wf_bounds s Hwf _ _ HT). lia.
  - right. right.
    assert (Hnone : forall r1, In (k, r1) (tracked s) ->
                               mem k (f_used_track_ids f) = true).
    { intros r1 Hin. apply (in_get _ _ _ (wf_keys s Hwf)) in Hin. congruence. }
    rewrite (Hg k Hnone) in Hget.
    destruct (mi_new _ _ Hinv k r Hget) as [[H _]|(H1 & H2 & _)]; [congruence|].
    split; [unfold track; now rewrite HT|]. split; [exact H1|].
    destruct (ci_fresh _ _ _ Hci k r Hget (proj1 H1)) as [b [Hb Hd]].
    exists b. split; [apply in_rev, Hb|].
    rewrite Hh; [exact Hd|].
    intros k1 Hin. apply (in_get _ _ _ (wf_keys s Hwf)) in Hin.
    destruct (wf_bounds s Hwf _ _ Hin). lia.
Qed.

(** X13.  After a frame of a session every track of the new table is of
    one of three kinds: an old track that some candidate matched (no miss,
    a larger count, by at most the number of candidates, and a candidate
    as last box); an old track that no candidate matched, carried with one
    more miss; or a new track with an id from the counter, count 1, no miss
    and a candidate as last box. *)
Theorem frame_trichotomy (s : tracker) (boxes : list ibox) (k : Z) (i' : info) :
  reachable s ->
  track (associate s boxes) k = Some i' ->
  (exists i, track s k = Some i
             /\ matched s boxes k = true
             /\ misses i' = 0
             /\ count i < count i' <= count i + Z.of_nat (length boxes)
             /\ In (last_xyxy i') boxes)
  \/ (exists i, track s k = Some i
                /\ matched s boxes k = false
                /\ i' = aged i
                /\ misses i + 1 <= MAX_MISSES)
  \/ (track s k = None
      /\ next_track_id s <= k < next_track_id (associate s boxes)
      /\ exists b, In b boxes /\ i' = new_info b).
Proof.
  intros Hs. apply frame_classify, reachable_well_formed, Hs.
Qed.

(** X13 on a session: after one frame with the box (0,0,99,99), a frame
    with the far box (200,0,299,99) carries track 0 with one miss and
    starts track 1. *)
Lemma frame_trichotomy_witness :
  let s := session initial [[(0, 0, 99, 99)]] in
  let s' := associate s [(200, 0, 299, 99)] in
  track s' 0 = Some (mkInfo 1 (0, 0, 99, 99) 1)
  /\ track s' 1 = Some (mkInfo 1 (200, 0, 299, 99) 0)
  /\ (track s 1 = None /\ next_track_id s <= 1 < next_track_id s'
      /\ exists b, In b [(200, 0, 299, 99)] /\ mkInfo 1 (200, 0, 299, 99) 0 = new_info b).
Proof.
  intros s s'.
  assert (R : reachable s) by (apply session_reachable; constructor).
  assert (T1 : track s' 1 = Some (mkInfo 1 (200, 0, 299, 99) 0)) by reflexivity.
  split; [reflexivity|]. split; [exact T1|].
  destruct (frame_trichotomy s [(200, 0, 299, 99)] 1 _ R T1)
    as [(i & Hi & _)|[(i & Hi & _)|H]]; [discriminate Hi | discriminate Hi | exact H].
Defined.

(** X14.  Over a frame of a session the count of a track that stays in
    the table never decreases and grows by at most the number of
    candidates; its last box is the old one or a candidate of the frame;
    and a stable track that stays is still stable. *)
Theorem count_never_decreases
  (s : tracker) (boxes : list ibox) (tid : Z) (i i' : info) :
  reachable s ->
  track s tid = Some i ->
  track (associate s boxes) tid = Some i' ->
  count i <= count i' <= count i + Z.of_nat (length boxes)
  /\ (last_xyxy i' = last_xyxy i \/ In (last_xyxy i') boxes)
  /\ (is_stable i = true -> is_stable i' = true).
Proof.
  intros Hs Hi Hi'.
  assert (Hc : count i <= count i' <= count i + Z.of_nat (length boxes)
               /\ (last_xyxy i' = last_xyxy i \/ In (last_xyxy i') boxes)).
  { destruct (frame_classify s boxes tid i' (reachable_well_formed s Hs) Hi')
      as [(i0 & H0 & _ & _ & Hc & Hb)|[(i0 & H0 & _ & -> & _)|(H0 & _)]].
    - assert (i0 = i) by congruence. subst i0. split; [lia | now right].
    - assert (i0 = i) by congruence. subst i0. simpl. split; [lia | now left].
    - congruence. }
  destruct Hc as [Hc Hb]. split; [exact Hc|]. split; [exact Hb|].
  unfold is_stable. rewrite !Z.leb_le. lia.
Qed.

(** X14 on a session: a track matched in a second frame goes from count
    1 to count 2. *)
Lemma count_never_decreases_witness :
  let b := (0, 0, 99, 99) in
  let s := session initial [[b]] in
  track s 0 = Some (mkInfo 1 b 0)
  /\ track (associate s [b]) 0 = Some (mkInfo 2 b 0)
  /\ 1 <= 2 <= 1 + 1.
Proof.
  intros b s.
  assert (R : reachable s) by (apply session_reachable; constructor).
  assert (T : track s 0 = Some (mkInfo 1 b 0)) by reflexivity.
  assert (T' : track (associate s [b]) 0 = Some (mkInfo 2 b 0)) by reflexivity.
  split; [exact T|]. split; [exact T'|].
  exact (proj1 (count_never_decreases s [b] 0 _ _ R T T')).
Defined.

Lemma reachable_range (s : tracker) : reachable s -> in_range s.
Proof.
  induction 1 as [|s boxes Hs IH].
  - intros tid i H. discriminate H.
  - intros tid i' Hi'.
    destruct (frame_classify s boxes tid i' (reachable_well_formed s Hs) Hi')
      as [(i & Hi & _ & Hm & Hc & _)|[(i & Hi & _ & -> & Hm)|(_ & _ & b & _ & ->)]];
      unfold MAX_MISSES in *.
    + destruct (IH tid i Hi). lia.
    + destruct (IH tid i Hi). simpl. lia.
    + simpl. lia.
Qed.

(** X15.  In every table of a session each track has a count of at least
    1 and a miss count between 0 and [MAX_MISSES]. *)
Theorem session_counts_in_range (s : tracker) (tid : Z) (i : info) :
  reachable s ->
  track s tid = Some i ->
  1 <= count i /\ 0 <= misses i <= MAX_MISSES.
Proof. intros Hs. apply (reachable_range s Hs). Qed.

(** X15 on a session: the track carried through a frame without
    candidates has count 1 and one miss. *)
Lemma session_counts_in_range_witness :
  let s := session initial [[(0, 0, 99, 99)]; []] in
  track s 0 = Some (mkInfo 1 (0, 0, 99, 99) 1)
  /\ 1 <= 1 /\ 0 <= 1 <= MAX_MISSES.
Proof.
  intros s.
  assert (R : reachable s) by (apply session_reachable; constructor).
  assert (T : track s 0 = Some (mkInfo 1 (0, 0, 99, 99) 1)) by reflexivity.
  split; [exact T|].
  exact (session_counts_in_range s 0 _ R T).
Defined.

Lemma no_track_empty (s : tracker) :
  (forall k, track s k = None) -> tracked s = [].
Proof.
  intros H. destruct (tracked s) as [|[k r] rest] eqn:E; [reflexivity|].
  specialize (H k). unfold track in H. rewrite E in H. simpl in H.
  rewrite Z.eqb_refl in H. discriminate H.
Qed.

(** X16.  A frame without candidates, in a session: a track that had no
    miss is carried with one miss and everything else unchanged, a track
    that had one is dropped, and the id counter stays.  Two such frames in
    a row empty the table, whatever it held. *)
Theorem frames_without_candidates (s : tracker) (tid : Z) (i : info) :
  reachable s ->
  (track s tid = Some i ->
   track (associate s []) tid = (if misses i =? 0 then Some (aged i) else None))
  /\ next_track_id (associate s []) = next_track_id s
  /\ tracked (session s [[]; []]) = []
  /\ next_track_id (session s [[]; []]) = next_track_id s.
Proof.
  intros Hs. pose proof (reachable_well_formed s Hs) as Hwf.
  pose proof (reach_frame s [] Hs) as Hs1.
  pose proof (reachable_well_formed _ Hs1) as Hwf1.
  split; [|split; [|split]].
  - intros Hi.
    rewrite (frame_unmatched s [] Hwf tid i Hi (matched_no_candidates s tid)).
    destruct (reachable_range s Hs tid i Hi) as [_ Hm]. unfold MAX_MISSES in *.
    destruct (misses i =? 0) eqn:E.
    + apply Z.eqb_eq in E. now rewrite E.
    + apply Z.eqb_neq in E.
      destruct (misses i + 1 <=? 1) eqn:E'; [apply Z.leb_le in E'; lia | reflexivity].
  - apply no_candidates_next, Hwf.
  - change (session s [[]; []]) with (associate (associate s []) []).
    apply no_track_empty. intros k.
    destruct (track (associate (associate s []) []) k) as [i2|] eqn:E2;
      [|reflexivity].
    exfalso.
    destruct (frame_classify _ [] k i2 Hwf1 E2)
      as [(i1 & _ & Hm & _)|[(i1 & Hi1 & _ & _ & Hm1)|(_ & _ & b & [] & _)]].
    + rewrite matched_no_candidates in Hm. discriminate.
    + destruct (frame_classify s [] k i1 Hwf Hi1)
        as [(i0 & _ & Hm & _)|[(i0 & Hi0 & _ & -> & _)|(_ & _ & b & [] & _)]].
      * rewrite matched_no_candidates in Hm. discriminate.
      * destruct (reachable_range s Hs k i0 Hi0) as [_ Hr].
        unfold MAX_MISSES in *. simpl in Hm1. lia.
  - change (session s [[]; []]) with (associate (associate s []) []).
    rewrite (no_candidates_next _ Hwf1). apply no_candidates_next, Hwf.
Qed.

(** X16 on a session with two tracks. *)
Lemma frames_without_candidates_witness :
  let s := session initial [[(0, 0, 99, 99); (200, 0, 299, 99)]] in
  ids s = [0; 1]
  /\ tracked (session s [[]; []]) = []
  /\ next_track_id (session s [[]; []]) = 2.
Proof.
  intros s.
  assert (R : reachable s) by (apply session_reachable; constructor).
  destruct (frames_without_candidates s 0 (mkInfo 1 (0, 0, 99, 99) 0) R)
    as (_ & _ & H3 & H4).
  split; [reflexivity|]. split; [exact H3 | exact H4].
Defined.

(** *** The first candidates of a session *)

Lemma set_append {V} (d : Dict.t V) (k : Z) (v : V) :
  Dict.get d k = None -> Dict.set d k v = d ++ [(k, v)].
Proof.
  induction d as [|[k0 v0] d IH]; simpl; [reflexivity|].
  destruct (k0 =? k); [discriminate|]. intros H. now rewrite IH.
Qed.

Lemma process_box_empty_table (f : frame) (box : ibox) :
  process_box [] f box =
  mkFrame (f_heap f ++ [new_info box])
          (Dict.set (f_new_tracked f) (f_next_track_id f) (length (f_heap f)))
          (f_used_track_ids f)
          (f_next_track_id f + 1).
Proof. reflexivity. Qed.

Lemma fold_empty_table (boxes : list ibox)
  (h : store) (nt : Dict.t ref) (u : list Z) (n : Z) :
  (forall k, In k (Dict.keys nt) -> k < n) ->
  fold_left (process_box []) boxes (mkFrame h nt u n) =
  mkFrame (h ++ map new_info boxes)
          (nt ++ fresh_entries n (length h) boxes)
          u
          (n + Z.of_nat (length boxes)).
Proof.
  revert h nt n. induction boxes as [|b boxes IH]; intros h nt n Hk.
  - simpl. now rewrite !app_nil_r, Z.add_0_r.
  - cbn [fold_left]. rewrite process_box_empty_table.
    cbn [f_heap f_new_tracked f_used_track_ids f_next_track_id].
    rewrite set_append.
    + rewrite IH.
      * rewrite <- !app_assoc, length_app, Nat.add_1_r. simpl.
        f_equal. lia.
      * intros k Hin. unfold Dict.keys in Hin. rewrite map_app in Hin.
        apply in_app_iff in Hin. simpl in Hin.
        destruct Hin as [Hin|[Hin|[]]]; [|lia].
        specialize (Hk k Hin). lia.
    + apply get_none. intros Hin. specialize (Hk n Hin). lia.
Qed.

Lemma items_fresh (boxes : list ibox) (h : store) (n : Z) :
  map (fun '(tid, r) => (tid, deref (h ++ map new_info boxes) r))
      (fresh_entries n (length h) boxes)
  = number_from n boxes.
Proof.
  revert h n. induction boxes as [|b boxes IH]; intros h n; simpl; [reflexivity|].
  f_equal.
  - f_equal. unfold deref. rewrite app_nth2, Nat.sub_diag by lia. reflexivity.
  - specialize (IH (h ++ [new_info b]) (n + 1)).
    rewrite length_app, Nat.add_1_r, <- app_assoc in IH. exact IH.
Qed.

(** X17.  On an empty table every candidate starts a track of its own,
    whatever the boxes are: the new table holds, in the order of the
    candidates, the ids from the id counter on, each with count 1, no miss
    and its candidate as last box, and the counter moves up by the number
    of candidates. *)
Theorem empty_table_numbers_candidates (s : tracker) (boxes : list ibox) :
  tracked s = [] ->
  items (associate s boxes) = number_from (next_track_id s) boxes
  /\ next_track_id (associate s boxes)
     = next_track_id s + Z.of_nat (length boxes).
Proof.
  intros He. unfold associate, match_phase, items. rewrite He.
  rewrite fold_empty_table by (intros k []). simpl.
  split; [apply items_fresh | reflexivity].
Qed.

(** X17 on the first frame of a session, with the same box twice. *)
Lemma empty_table_numbers_candidates_witness :
  let b := (0, 0, 99, 99) in
  items (associate initial [b; b]) = [(0, mkInfo 1 b 0); (1, mkInfo 1 b 0)]
  /\ next_track_id (associate initial [b; b]) = 2.
Proof.
  intros b. apply (empty_table_numbers_candidates initial [b; b]). reflexivity.
Defined.

(** *** The growth of the table *)

Lemma process_box_next (trk : Dict.t ref) (f : frame) (box : ibox) :
  f_next_track_id f <= f_next_track_id (process_box trk f box)
                    <= f_next_track_id f + 1.
Proof.
  unfold process_box. destruct (best_match (f_heap f) trk box) as [bid biou].
  destruct (if Qltb MATCH_THRESH biou then bid else None) as [k|].
  - destruct (Dict.get trk k); simpl; lia.
  - simpl. lia.
Qed.

Lemma fold_process_box_next (trk : Dict.t ref) (boxes : list ibox) (f : frame) :
  f_next_track_id (fold_left (process_box trk) boxes f)
  <= f_next_track_id f + Z.of_nat (length boxes).
Proof.
  revert f. induction boxes as [|b boxes IH]; intros f; simpl length.
  - simpl. lia.
  - cbn [fold_left]. specialize (IH (process_box trk f b)).
    pose proof (process_box_next trk f b). lia.
Qed.

Lemma age_phase_next (trk : Dict.t ref) (f : frame) :
  f_next_track_id (age_phase trk f) = f_next_track_id f.
Proof.
  unfold age_phase. revert f.
  induction trk as [|[k r] trk IH]; intros f; simpl; [reflexivity|].
  rewrite IH. unfold age_step.
  destruct (mem k (f_used_track_ids f)); [reflexivity|].
  destruct (_ <=? _); reflexivity.
Qed.

Lemma in_range_list (n : Z) (m : nat) (k : Z) :
  n <= k < n + Z.of_nat m ->
  In k (map (fun i => n + Z.of_nat i) (seq 0 m)).
Proof.
  intros H. apply in_map_iff. exists (Z.to_nat (k - n)).
  split; [lia|]. apply in_seq. lia.
Qed.

(** X22.  A frame of a session issues at most one id per candidate, and
    the new table holds at most the tracks of the old one and one track
    per candidate. *)
Theorem frame_growth (s : tracker) (boxes : list ibox) :
  reachable s ->
  next_track_id s <= next_track_id (associate s boxes)
                  <= next_track_id s + Z.of_nat (length boxes)
  /\ (length (tracked (associate s boxes))
      <= length (tracked s) + length boxes)%nat.
Proof.
  intros Hs. pose proof (reachable_well_formed s Hs) as Hwf.
  assert (Hn : next_track_id s <= next_track_id (associate s boxes)
                               <= next_track_id s + Z.of_nat (length boxes)).
  { split; [apply frame_next, Hwf|].
    unfold associate. cbn [next_track_id]. rewrite age_phase_next.
    apply (fold_process_box_next (tracked s) boxes). }
  split; [exact Hn|].
  set (m := Z.to_nat (next_track_id (associate s boxes) - next_track_id s)).
  assert (Hl : (length (ids (associate s boxes))
                <= length (ids s ++ map (fun i => (next_track_id s + Z.of_nat i)%Z)
                                        (seq 0 m)))%nat).
  { apply NoDup_incl_length; [apply frame_keys, Hwf|].
    intros k Hk. apply in_app_iff.
    destruct (frame_ids s boxes k Hwf Hk) as [H|H]; [now left|].
    right. apply in_range_list.
    pose proof (reachable_ids_below _ k (reach_frame s boxes Hs) Hk).
    unfold m. lia. }
  rewrite length_app, length_map, length_seq in Hl.
  unfold ids, Dict.keys in Hl. rewrite !length_map in Hl.
  unfold m in Hl. lia.
Qed.

(** X22 on a session: one track and three candidates, of which two are
    far from it; the counter goes from 1 to 3. *)
Lemma frame_growth_witness :
  let s := session initial [[(0, 0, 99, 99)]] in
  let boxes := [(0, 0, 99, 99); (200, 0, 299, 99); (400, 0, 499, 99)] in
  next_track_id s = 1
  /\ next_track_id (associate s boxes) = 3
  /\ (length (tracked (associate s boxes)) <= 1 + 3)%nat.
Proof.
  intros s boxes.
  assert (R : reachable s) by (apply session_reachable; constructor).
  split; [reflexivity|]. split; [reflexivity|].
  exact (proj2 (frame_growth s boxes R)).
Defined.

(** *** A face that does not move *)

(** X24.  In a session, when the only candidate of a frame is a box with
    at least one pixel that is the last box of some track, no id is issued:
    a track with that same last box is matched and ends the frame with
    the box, no miss and a count one higher. *)
Theorem stationary_box_rematched
  (s : tracker) (box : ibox) (tid : Z) (i : info) :
  reachable s ->
  track s tid = Some i ->
  last_xyxy i = box ->
  proper box ->
  next_track_id (associate s [box]) = next_track_id s
  /\ exists k i0,
       track s k = Some i0
       /\ last_xyxy i0 = box
       /\ track (associate s [box]) k = Some (mkInfo (count i0 + 1) box 0).
Proof.
  intros Hs Hi Hlast Hp. pose proof (reachable_well_formed s Hs) as Hwf.
  set (f0 := mkFrame (heap s) [] [] (next_track_id s)).
  assert (Hb : Forall (fun item => (snd item < length (f_heap f0))%nat) (tracked s)).
  { destruct Hwf as (_ & _ & Hb). eapply Forall_impl; [|exact Hb].
    intros item [Hr _]. exact Hr. }
  apply track_get in Hi. destruct Hi as [r [Hget Hd]].
  assert (Hone : (iou_xyxy box (last_xyxy (deref (f_heap f0) r)) == 1)%Q).
  { simpl. rewrite Hd, Hlast. apply IoUFacts.iou_one_cases. now split. }
  destruct (process_box_effects (tracked s) f0 box (wf_keys s Hwf) Hb)
    as [(bid & r0 & Hg0 & Hlt & Hmax & _ & _ & Hused & _ & _ & Hnext)
       |(Hall & _)].
  - assert (Hm : matched s [box] bid = true) by exact Hused.
    split.
    { unfold associate. cbn [next_track_id]. rewrite age_phase_next. exact Hnext. }
    exists bid, (deref (heap s) r0).
    assert (Ht0 : track s bid = Some (deref (heap s) r0))
      by (unfold track; now rewrite Hg0).
    assert (Hbox : last_xyxy (deref (heap s) r0) = box).
    { rewrite Forall_forall in Hmax.
      specialize (Hmax (tid, r) (get_in _ _ _ Hget)). cbn [snd] in Hmax.
      rewrite Hone in Hmax.
      assert (Hle : (iou_xyxy box (last_xyxy (deref (f_heap f0) r0)) <= 1)%Q).
      { destruct (IoUFacts.iou_xyxy_cases box (last_xyxy (deref (f_heap f0) r0)))
          as [[_ E]|[H E]]; rewrite E; [discriminate|].
        apply IoUFacts.ratio_bounds; lia. }
      assert (E1 : (iou_xyxy box (last_xyxy (deref (f_heap f0) r0)) == 1)%Q)
        by (apply Qle_antisym; assumption).
      apply IoUFacts.iou_one_cases in E1. symmetry. exact (proj1 E1). }
    split; [exact Ht0|]. split; [exact Hbox|].
    destruct (frame_matched s [box] Hwf bid _ Ht0 Hm) as (i' & Hi' & _).
    rewrite Hi'. f_equal.
    destruct (frame_classify s [box] bid i' Hwf Hi')
      as [(i1 & H1 & _ & Hz & Hc & Hin)|[(i1 & _ & Hm' & _)|(Hn & _)]].
    + assert (i1 = deref (heap s) r0) by congruence. subst i1.
      destruct Hin as [Hin|[]]. destruct i' as [c l m]. simpl in *.
      subst. f_equal. lia.
    + congruence.
    + congruence.
  - exfalso. rewrite Forall_forall in Hall.
    specialize (Hall (tid, r) (get_in _ _ _ Hget)). cbn [snd] in Hall.
    rewrite Hone in Hall. apply Hall. reflexivity.
Qed.

(** X24 on the box of scenario A. *)
Lemma stationary_box_rematched_witness :
  let b := (10, 10, 50, 50) in
  let s := session initial [[b]; [b]] in
  track s 0 = Some (mkInfo 2 b 0)
  /\ next_track_id (associate s [b]) = next_track_id s
  /\ exists k i0,
       track s k = Some i0
       /\ last_xyxy i0 = b
       /\ track (associate s [b]) k = Some (mkInfo (count i0 + 1) b 0).
Proof.
  intros b s.
  assert (R : reachable s) by (apply session_reachable; constructor).
  assert (T : track s 0 = Some (mkInfo 2 b 0)) by reflexivity.
  split; [exact T|].
  apply (stationary_box_rematched s b 0 _ R T); [reflexivity | simpl; lia].
Defined.

End TrackMore.

(** ** The files of a capture *)

Module CaptureFacts.
Import TrackSpec TrackFacts.

Lemma to_int_proper (z : Z) :
  Z.to_int z <> Decimal.Pos Decimal.Nil /\ Z.to_int z <> Decimal.Neg Decimal.Nil.
Proof.
  destruct z as [|p|p]; simpl; split; try discriminate;
    intros [= H]; exact (DecimalPos.Unsigned.to_uint_nonnil p H).
Qed.

Lemma str_injective (z z' : Z) : Capture.str z = Capture.str z' -> z = z'.
Proof.
  unfold Capture.str. intros H.
  destruct (to_int_proper z) as [P1 N1], (to_int_proper z') as [P2 N2].
  pose proof (DecimalString.NilZero.isi _ P1 N1) as E1.
  pose proof (DecimalString.NilZero.isi _ P2 N2) as E2.
  rewrite H, E2 in E1. injection E1 as E.
  rewrite <- (DecimalZ.of_to z), <- (DecimalZ.of_to z'). now rewrite E.
Qed.

Lemma append_length (a b : String.string) :
  String.length (String.append a b) = (String.length a + String.length b)%nat.
Proof. induction a as [|c a IH]; simpl; [reflexivity | now rewrite IH]. Qed.

Lemma append_inv_head (a b c : String.string) :
  String.append a b = String.append a c -> b = c.
Proof.
  induction a as [|x a IH]; simpl; [trivial|]. intros [= H]. apply IH, H.
Qed.

Lemma append_inv_tail (a b c : String.string) :
  String.append a c = String.append b c -> a = b.
Proof.
  revert b. induction a as [|x a IH]; intros [|y b] H; simpl in H.
  - reflexivity.
  - exfalso. apply (f_equal String.length) in H. simpl in H.
    rewrite append_length in H. lia.
  - exfalso. apply (f_equal String.length) in H. simpl in H.
    rewrite append_length in H. lia.
  - injection H as -> H. f_equal. apply IH, H.
Qed.

Lemma stable_filename_injective (sep : String.string) (timestamp tid tid' : Z) :
  Capture.stable_filename sep timestamp tid
  = Capture.stable_filename sep timestamp tid' ->
  tid = tid'.
Proof.
  unfold Capture.stable_filename, Capture.path_join. intros H.
  repeat apply append_inv_head in H.
  apply append_inv_tail in H. apply str_injective, H.
Qed.

Lemma map_fst_filter_NoDup {A B} (f : A * B -> bool) (l : list (A * B)) :
  NoDup (map fst l) -> NoDup (map fst (filter f l)).
Proof.
  induction l as [|x l IH]; simpl; intros Hnd; [constructor|].
  inversion Hnd as [|? ? Hni Hnd']; subst.
  destruct (f x); simpl; [|apply IH, Hnd'].
  constructor; [|apply IH, Hnd'].
  intros Hin. apply Hni. apply in_map_iff in Hin.
  destruct Hin as [y [E Hy]]. apply filter_In in Hy.
  rewrite <- E. apply in_map, Hy.
Qed.

Lemma NoDup_map_injective {A B} (f : A -> B) (l : list A) :
  (forall a b, f a = f b -> a = b) -> NoDup l -> NoDup (map f l).
Proof.
  intros Hinj. induction 1 as [|a l Hni Hnd IH]; simpl; constructor; [|exact IH].
  intros Hin. apply in_map_iff in Hin. destruct Hin as [b [E Hb]].
  apply Hinj in E. now subst.
Qed.

Lemma items_ids (s : tracker) : map fst (items s) = ids s.
Proof.
  unfold items, ids, Dict.keys. rewrite map_map.
  apply map_ext. now intros [k r].
Qed.

Lemma firstn_incl {A} (n : nat) (l : list A) : incl (firstn n l) l.
Proof.
  revert l. induction n as [|n IH]; intros [|a l] x Hx; simpl in *; try contradiction.
  destruct Hx as [<-|Hx]; [now left | right; apply IH, Hx].
Qed.

Lemma crop_shape_nonneg (width height : Z) (b : ibox) :
  (0 <= fst (crop_shape width height b) /\ 0 <= snd (crop_shape width height b))%Z.
Proof.
  unfold crop_shape. destruct (clip_box width height b) as [[[x1 y1] x2] y2].
  unfold slice_len. simpl. lia.
Qed.

Lemma write_crops_spec (sep : String.string) (width height timestamp : Z)
  (tracks : list (Z * info)) :
  NoDup (map fst tracks) ->
  let out := Capture.write_crops sep width height timestamp tracks in
  let written := firstn (length (fst out)) tracks in
  fst out = map (fun '(tid, i) =>
                   (Capture.stable_filename sep timestamp tid,
                    crop_shape width height (last_xyxy i))) written
  /\ NoDup (map fst (fst out))
  /\ Forall (fun f => (0 < fst (snd f) /\ 0 < snd (snd f))%Z) (fst out)
  /\ (snd out = false <->
      Forall (fun '(_, i) =>
                Capture.empty_crop (crop_shape width height (last_xyxy i)) = false)
             tracks)
  /\ (snd out = false -> length (fst out) = length tracks)
  /\ (snd out = true ->
      exists tid i,
        nth_error tracks (length (fst out)) = Some (tid, i)
        /\ Capture.empty_crop (crop_shape width height (last_xyxy i)) = true).
Proof.
  induction tracks as [|[tid i] rest IH]; intros Hnd; cbn zeta.
  - simpl. repeat split; try constructor; try discriminate; trivial.
  - apply NoDup_cons_iff in Hnd. destruct Hnd as [Hni Hnd].
    specialize (IH Hnd). cbn zeta in IH.
    destruct IH as (E & Hd & Hs & Hr & Hl & Hx).
    simpl. destruct (Capture.empty_crop (crop_shape width height (last_xyxy i))) eqn:Ec.
    + simpl. repeat split; try constructor; try discriminate.
      * intros H. inversion H as [|? ? H1 _]; subst. congruence.
      * intros _. exists tid, i. split; [reflexivity | exact Ec].
    + destruct (Capture.write_crops sep width height timestamp rest) as [files raised].
      simpl in *. repeat split.
      * now rewrite <- E.
      * constructor; [|exact Hd].
        intros Hin. apply Hni. rewrite E in Hin.
        apply in_map_iff in Hin. destruct Hin as [[n sh] [En Hin]]. simpl in En.
        apply in_map_iff in Hin. destruct Hin as [[tid' i'] [E' Hin]].
        injection E' as <- _. apply stable_filename_injective in En. subst tid'.
        apply (in_map fst) in Hin. simpl in Hin.
        clear - Hin. revert Hin. generalize (length files). intros n Hin.
        apply in_map_iff in Hin. destruct Hin as [x [Ex Hx]].
        apply firstn_incl in Hx. rewrite <- Ex. apply in_map, Hx.
      * constructor; [|exact Hs]. simpl.
        unfold Capture.empty_crop in Ec. apply orb_false_iff in Ec.
        destruct Ec as [E1 E2]. apply Z.eqb_neq in E1, E2.
        pose proof (crop_shape_nonneg width height (last_xyxy i)). lia.
      * intros H. constructor; [exact Ec | apply Hr, H].
      * intros H. inversion H; subst. apply Hr. assumption.
      * intros H. f_equal. apply Hl, H.
      * exact Hx.
Qed.

(** X18.  One key press in a session: the files written are those of the
    stable tracks, in table order, up to the first one whose clipped crop
    has no pixel, where [cv2.imwrite] raises; their names are pairwise
    distinct and every written crop has pixels.  No exception is raised,
    and then one file per stable track is written, exactly when every
    stable track has a crop with pixels. *)
Theorem capture_files
  (sep : String.string) (width height timestamp : Z) (s : tracker) :
  reachable s ->
  let out := Capture.capture sep width height timestamp s in
  let written := firstn (length (fst out)) (stable_tracks s) in
  fst out = map (fun '(tid, i) =>
                   (Capture.stable_filename sep timestamp tid,
                    crop_shape width height (last_xyxy i))) written
  /\ NoDup (map fst (fst out))
  /\ Forall (fun f => (0 < fst (snd f) /\ 0 < snd (snd f))%Z) (fst out)
  /\ (snd out = false <->
      Forall (fun '(_, i) =>
                Capture.empty_crop (crop_shape width height (last_xyxy i)) = false)
             (stable_tracks s))
  /\ (snd out = false -> length (fst out) = length (stable_tracks s))
  /\ (snd out = true ->
      exists tid i,
        nth_error (stable_tracks s) (length (fst out)) = Some (tid, i)
        /\ Capture.empty_crop (crop_shape width height (last_xyxy i)) = true).
Proof.
  intros Hs. apply write_crops_spec.
  unfold stable_tracks. apply map_fst_filter_NoDup.
  rewrite items_ids. exact (proj1 (reachable_well_formed s Hs)).
Qed.

End CaptureFacts.

Module CaptureExample.
Import Stdlib.Strings.String.
Import TrackSpec TrackFacts CaptureFacts.

(** X18 on a session with two stable tracks: in a frame of 640 x 480 two
    files are written; in a frame of 100 x 100 the second box lies outside,
    its crop is empty and the exception is raised after the first file. *)
Lemma capture_files_witness :
  let b := (10, 10, 50, 50)%Z in
  let c := (200, 10, 240, 50)%Z in
  let s := session initial [[b; c]; [b; c]; [b; c]] in
  Capture.capture "/" 640 480 1700000000000 s
  = ([("captured_faces/stable_face_1700000000000_0.jpg"%string, (40, 40)%Z);
      ("captured_faces/stable_face_1700000000000_1.jpg"%string, (40, 40)%Z)],
     false)
  /\ NoDup (map fst (fst (Capture.capture "/" 640 480 1700000000000 s)))
  /\ Capture.capture "/" 100 100 1700000000000 s
     = ([("captured_faces/stable_face_1700000000000_0.jpg"%string, (40, 40)%Z)],
        true).
Proof.
  intros b c s.
  assert (R : reachable s) by (apply session_reachable; constructor).
  split; [vm_compute; reflexivity|]. split; [|vm_compute; reflexivity].
  exact (proj1 (proj2 (capture_files "/" 640 480 1700000000000 s R))).
Defined.

End CaptureExample.

(** ** The capture loop of the dataset builder *)

Module BuilderFacts.
Import Builder.
Local Open Scope Z_scope.

Lemma insert_face_head (r : rect) (sorted : list rect) :
  hd no_face (insert_face r sorted) =
  match sorted with
  | [] => r
  | q :: _ => if face_area q <? face_area r then r else q
  end.
Proof.
  destruct sorted as [|q rest]; simpl; [reflexivity|].
  destruct (face_area q <? face_area r); reflexivity.
Qed.

Lemma insert_face_nonempty (r : rect) (sorted : list rect) :
  insert_face r sorted <> [].
Proof.
  destruct sorted as [|q rest]; simpl; [discriminate|].
  destruct (face_area q <? face_area r); discriminate.
Qed.

Lemma fold_insert_head (faces seen acc : list rect) (h : rect) :
  acc <> [] -> hd no_face acc = h -> first_largest seen h ->
  first_largest (seen ++ faces)
                (hd no_face (fold_left (fun sorted r => insert_face r sorted) faces acc)).
Proof.
  revert seen acc h. induction faces as [|r faces IH]; intros seen acc h Hne Hh Hfl.
  - simpl. rewrite app_nil_r, Hh. exact Hfl.
  - simpl. replace (seen ++ r :: faces) with ((seen ++ [r]) ++ faces)
      by (rewrite <- app_assoc; reflexivity).
    apply IH with (h := hd no_face (insert_face r acc)).
    + apply insert_face_nonempty.
    + reflexivity.
    + rewrite insert_face_head. destruct acc as [|q rest]; [contradiction|].
      simpl in Hh. subst q. destruct Hfl as (pre & post & -> & Hpre & Hpost).
      destruct (face_area h <? face_area r) eqn:E.
      * apply Z.ltb_lt in E. exists (pre ++ h :: post), [].
        split; [reflexivity|]. split; [|constructor].
        apply Forall_app. split.
        -- eapply Forall_impl; [|exact Hpre]. intros q Hq. simpl in Hq. lia.
        -- constructor; [exact E|].
           eapply Forall_impl; [|exact Hpost]. intros q Hq. simpl in Hq. lia.
      * apply Z.ltb_ge in E. exists pre, (post ++ [r]).
        split; [now rewrite <- app_assoc|]. split; [exact Hpre|].
        apply Forall_app. split; [exact Hpost | constructor; [exact E | constructor]].
Qed.

Lemma sorted_faces_head (r : rect) (faces : list rect) :
  first_largest (r :: faces) (hd no_face (sorted_faces (r :: faces))).
Proof.
  unfold sorted_faces. simpl.
  apply (fold_insert_head faces [r] [r] r); [discriminate | reflexivity|].
  exists [], []. repeat split; constructor.
Qed.

(** What a pass that writes a sample does. *)
Lemma step_saved (st st' : state) (ret : bool) (faces : list rect) (key : Z)
  (x : sample) (stop : bool) :
  step st ret faces key = (st', Some x, stop) ->
  faces <> []
  /\ x = (hd no_face (sorted_faces faces), captured st)
  /\ captured st' = captured st + 1
  /\ stop = (TARGET_IMAGES <=? captured st + 1)
  /\ (auto_mode st' = true ->
      STABLE_FRAMES <= stable_count st + 1 /\ stable_count st' = 0)
  /\ (auto_mode st' = false -> key = KEY_S).
Proof.
  unfold step. destruct ret; simpl; [|discriminate].
  destruct (key =? KEY_Q); [discriminate|].
  destruct faces as [|r faces].
  - simpl. rewrite !andb_false_r.
    destruct (if key =? KEY_SPACE then negb (auto_mode st) else auto_mode st);
      discriminate.
  - cbn [length Nat.eqb negb].
    destruct (if key =? KEY_SPACE then negb (auto_mode st) else auto_mode st) eqn:Em.
    + rewrite andb_true_r.
      destruct (STABLE_FRAMES <=? stable_count st + 1) eqn:Es; [|discriminate].
      intros [= <- <- <-]. simpl. apply Z.leb_le in Es.
      repeat split; try reflexivity; try discriminate; auto.
    + rewrite andb_true_r.
      destruct (key =? KEY_S) eqn:Ek; [|discriminate].
      intros [= <- <- <-]. simpl. apply Z.eqb_eq in Ek.
      repeat split; try reflexivity; try discriminate; auto.
Qed.

(** What every pass does to the loop variables. *)
Lemma step_counts (st st' : state) (ret : bool) (faces : list rect) (key : Z)
  (saved : option sample) (stop : bool) :
  step st ret faces key = (st', saved, stop) ->
  0 <= stable_count st ->
  0 <= stable_count st' <= stable_count st + 1
  /\ (saved = None -> captured st' = captured st)
  /\ (stop = false -> captured st' < TARGET_IMAGES \/ ret = false).
Proof.
  unfold step. intros H H0. destruct ret; simpl in H.
  - repeat match type of H with
           | context [if ?b then _ else _] => destruct b eqn:?
           end;
      injection H as <- <- <-; simpl;
      (split; [lia|]); (split; [intros; try reflexivity; discriminate|]);
      intros Hs; try discriminate Hs; left; apply Z.leb_gt; exact Hs.
  - injection H as <- <- <-. split; [lia|]. split; [reflexivity | now right].
Qed.

Lemma step_unsaved (st st' : state) (ret : bool) (faces : list rect) (key : Z)
  (stop : bool) :
  step st ret faces key = (st', None, stop) -> captured st' = captured st.
Proof.
  unfold step. intros H. destruct ret; simpl in H.
  - repeat match type of H with
           | context [if ?b then _ else _] => destruct b eqn:?
           end;
      try discriminate H; injection H as <- <-; reflexivity.
  - now injection H as <- <-.
Qed.

Lemma step_continue (st st' : state) (ret : bool) (faces : list rect) (key : Z)
  (saved : option sample) :
  step st ret faces key = (st', saved, false) ->
  captured st < TARGET_IMAGES -> captured st' < TARGET_IMAGES.
Proof.
  unfold step. intros H Hc. destruct ret; simpl in H.
  - repeat match type of H with
           | context [if ?b then _ else _] => destruct b eqn:?
           end;
      injection H as <- <- Hs; simpl; try discriminate Hs;
      apply Z.leb_gt; exact Hs.
  - now injection H as <- <-.
Qed.

Lemma run_spec (events : list event) (st : state) :
  captured st < TARGET_IMAGES ->
  captured st <= captured (fst (run st events)) <= TARGET_IMAGES
  /\ map snd (snd (run st events))
     = count_from (captured st) (length (snd (run st events)))
  /\ captured (fst (run st events))
     = captured st + Z.of_nat (length (snd (run st events))).
Proof.
  revert st. induction events as [|[[ret faces] key] events IH]; intros st Hc.
  - simpl. repeat split; lia.
  - cbn [run].
    destruct (step st ret faces key) as [[st' saved] stop] eqn:Es.
    destruct saved as [x|].
    + destruct (step_saved _ _ _ _ _ _ _ Es) as (_ & -> & Hcap & -> & _).
      destruct (TARGET_IMAGES <=? captured st + 1) eqn:Et.
      * simpl. repeat split; lia.
      * apply Z.leb_gt in Et.
        assert (Hc' : captured st' < TARGET_IMAGES) by lia.
        destruct (IH st' Hc') as (H1 & H2 & H3).
        destruct (run st' events) as [st'' more]. simpl in *.
        rewrite H2, Hcap. repeat split; lia.
    + pose proof (step_unsaved _ _ _ _ _ _ Es) as Hcap.
      destruct stop.
      * simpl. repeat split; lia.
      * assert (Hc' : captured st' < TARGET_IMAGES) by lia.
        destruct (IH st' Hc') as (H1 & H2 & H3).
        destruct (run st' events) as [st'' more]. simpl in *.
        rewrite H2, Hcap. repeat split; lia.
Qed.

(** X19.  A pass of the builder loop that writes a sample crops the first
    face of maximal area [w * h] of the frame, names the file with the
    number of samples written before, and counts one sample more. *)
Theorem sample_is_first_largest
  (st st' : state) (ret : bool) (faces : list rect) (key : Z)
  (r : rect) (idx : Z) (stop : bool) :
  step st ret faces key = (st', Some (r, idx), stop) ->
  first_largest faces r
  /\ idx = captured st
  /\ captured st' = captured st + 1.
Proof.
  intros H. destruct (step_saved _ _ _ _ _ _ _ H) as (Hne & Hx & Hc & _).
  injection Hx as -> ->. split; [|split; [reflexivity | exact Hc]].
  destruct faces as [|q faces]; [contradiction|]. apply sorted_faces_head.
Qed.

(** X19 on a frame with three faces, in manual mode with [s] pressed: of
    the two faces of area 10000 the first one is cropped. *)
Lemma sample_is_first_largest_witness :
  let faces := [(0, 0, 80, 80); (100, 0, 100, 100); (300, 0, 100, 100)] in
  step (mkState 4 false 0) true faces KEY_S
    = (mkState 5 false 1, Some ((100, 0, 100, 100), 4), false)
  /\ first_largest faces (100, 0, 100, 100).
Proof.
  intros faces.
  assert (E : step (mkState 4 false 0) true faces KEY_S
              = (mkState 5 false 1, Some ((100, 0, 100, 100), 4), false))
    by reflexivity.
  split; [exact E|].
  exact (proj1 (sample_is_first_largest _ _ _ _ _ _ _ _ E)).
Defined.

(** X20.  After a pass that writes a sample in auto mode, neither of the
    next two passes writes a sample in auto mode: automatic samples are at
    least [STABLE_FRAMES] frames apart. *)
Theorem auto_samples_apart
  (st st1 st2 st3 : state) (x : sample) (saved2 saved3 : option sample)
  (stop1 stop2 stop3 : bool)
  (ret1 ret2 ret3 : bool) (faces1 faces2 faces3 : list rect) (key1 key2 key3 : Z) :
  step st ret1 faces1 key1 = (st1, Some x, stop1) ->
  auto_mode st1 = true ->
  step st1 ret2 faces2 key2 = (st2, saved2, stop2) ->
  step st2 ret3 faces3 key3 = (st3, saved3, stop3) ->
  (auto_mode st2 = true -> saved2 = None)
  /\ (auto_mode st3 = true -> saved3 = None).
Proof.
  intros E1 A1 E2 E3.
  destruct (step_saved _ _ _ _ _ _ _ E1) as (_ & _ & _ & _ & Hauto & _).
  destruct (Hauto A1) as [_ Hz]. unfold STABLE_FRAMES in *.
  destruct (step_counts _ _ _ _ _ _ _ E2) as [Hs2 _]; [lia|].
  split; intros A.
  - destruct saved2 as [y|]; [|reflexivity].
    destruct (step_saved _ _ _ _ _ _ _ E2) as (_ & _ & _ & _ & Hauto2 & _).
    destruct (Hauto2 A). unfold STABLE_FRAMES in *. lia.
  - destruct saved3 as [y|]; [|reflexivity].
    destruct (step_saved _ _ _ _ _ _ _ E3) as (_ & _ & _ & _ & Hauto3 & _).
    destruct (Hauto3 A). unfold STABLE_FRAMES in *. lia.
Qed.

(** X20 on three frames with a face and no key pressed: the third frame
    of a face is sampled, the two frames after it are not. *)
Lemma auto_samples_apart_witness :
  let faces := [(100, 0, 100, 100)] in
  exists st1 st2 st3 saved2 saved3,
    step (mkState 0 true 2) true faces 255
      = (st1, Some ((100, 0, 100, 100), 0), false)
    /\ step st1 true faces 255 = (st2, saved2, false)
    /\ step st2 true faces 255 = (st3, saved3, false)
    /\ (auto_mode st2 = true -> saved2 = None)
    /\ (auto_mode st3 = true -> saved3 = None).
Proof.
  intros faces.
  exists (mkState 1 true 0), (mkState 1 true 1), (mkState 1 true 2), None, None.
  assert (E1 : step (mkState 0 true 2) true faces 255
               = (mkState 1 true 0, Some ((100, 0, 100, 100), 0), false))
    by reflexivity.
  assert (E2 : step (mkState 1 true 0) true faces 255
               = (mkState 1 true 1, None, false)) by reflexivity.
  assert (E3 : step (mkState 1 true 1) true faces 255
               = (mkState 1 true 2, None, false)) by reflexivity.
  split; [exact E1|]. split; [exact E2|]. split; [exact E3|].
  exact (auto_samples_apart _ _ _ _ _ _ _ _ _ _ _ _ _ _ _ _ _ _ _
           E1 eq_refl E2 E3).
Defined.

(** X21.  Whatever the camera, the detector and the keyboard give, a run
    of the builder loop from its start never counts more than
    [TARGET_IMAGES] samples, the count is the number of samples written,
    and the samples carry the indices 0, 1, 2, ... in the order they were
    written, so no two file names of a run share an index. *)
Theorem run_counts_samples (events : list event) :
  0 <= captured (fst (run start events)) <= TARGET_IMAGES
  /\ captured (fst (run start events))
     = Z.of_nat (length (snd (run start events)))
  /\ map snd (snd (run start events))
     = count_from 0 (length (snd (run start events))).
Proof.
  destruct (run_spec events start) as (H1 & H2 & H3); [reflexivity|].
  simpl in *. repeat split; try lia. exact H2.
Qed.

End BuilderFacts.

(** * The float64 model *)

(** ** Rounding *)

Module Float64Facts.
Import Float64.
Local Open Scope Q_scope.

Lemma two_nonzero : ~ (2 : Q) == 0.
Proof. discriminate. Qed.

Lemma pow2_pos (e : Z) : 0 < pow2 e.
Proof. apply Qpower_0_lt. reflexivity. Qed.

Lemma pow2_nonzero (e : Z) : ~ pow2 e == 0.
Proof. intros H. pose proof (pow2_pos e) as P. rewrite H in P. discriminate P. Qed.

Lemma pow2_plus (a b : Z) : pow2 (a + b) == pow2 a * pow2 b.
Proof. apply Qpower_plus, two_nonzero. Qed.

Lemma pow2_le (a b : Z) : (a <= b)%Z -> pow2 a <= pow2 b.
Proof. intros H. apply Qpower_le_compat_l; [exact H | discriminate]. Qed.

Lemma pow2_lt (a b : Z) : (a < b)%Z -> pow2 a < pow2 b.
Proof. intros H. apply Qpower_lt_compat_l; [exact H | reflexivity]. Qed.

Lemma pow2_inject (n : Z) : (0 <= n)%Z -> pow2 n == inject_Z (2 ^ n).
Proof. intros H. symmetry. apply (Zpower_Qpower 2 n H). Qed.

Lemma pow2_div (q : Q) (a b : Z) : q * pow2 a / pow2 b == q * pow2 (a - b).
Proof.
  unfold Z.sub. rewrite pow2_plus. unfold pow2 at 4. rewrite Qpower_opp.
  fold (pow2 b). unfold Qdiv. ring.
Qed.

(** *** The binary logarithm *)

Lemma ilog2_spec (q : Q) :
  0 < q -> pow2 (ilog2 q) <= q /\ q < pow2 (ilog2 q + 1).
Proof.
  intros Hq. destruct q as [n d].
  assert (Hn : (0 < n)%Z).
  { unfold Qlt in Hq. simpl in Hq. lia. }
  unfold ilog2. cbn [Qnum Qden].
  set (a := Z.log2 n). set (b := Z.log2 (Zpos d)).
  destruct (Z.log2_spec n Hn) as [Ha1 Ha2]. fold a in Ha1, Ha2.
  destruct (Z.log2_spec (Zpos d) eq_refl) as [Hb1 Hb2]. fold b in Hb1, Hb2.
  assert (Ha0 : (0 <= a)%Z) by apply Z.log2_nonneg.
  assert (Hb0 : (0 <= b)%Z) by apply Z.log2_nonneg.
  assert (Eq : n # d == inject_Z n / inject_Z (Zpos d)) by apply Qmake_Qdiv.
  assert (Hd : 0 < inject_Z (Zpos d)) by reflexivity.
  assert (Up : n # d < pow2 (a - b + 1)).
  { replace (a - b + 1)%Z with ((a + 1) - b)%Z by ring.
    rewrite <- (Qmult_1_l (pow2 (a + 1 - b))), <- pow2_div, Qmult_1_l.
    rewrite Eq. apply Qlt_shift_div_l; [apply pow2_pos|].
    unfold Qdiv. rewrite <- Qmult_assoc, (Qmult_comm (/ _)), Qmult_assoc.
    apply Qlt_shift_div_r; [exact Hd|].
    rewrite !pow2_inject by lia. rewrite <- !inject_Z_mult, <- Zlt_Qlt.
    apply Z.le_lt_trans with (n * Zpos d)%Z.
    - apply Z.mul_le_mono_nonneg_l; lia.
    - apply Z.mul_lt_mono_pos_r; lia. }
  assert (Lo : pow2 (a - b - 1) < n # d).
  { replace (a - b - 1)%Z with (a - (b + 1))%Z by ring.
    rewrite <- (Qmult_1_l (pow2 (a - (b + 1)))), <- pow2_div, Qmult_1_l.
    rewrite Eq. apply Qlt_shift_div_r; [apply pow2_pos|].
    unfold Qdiv. rewrite <- Qmult_assoc, (Qmult_comm (/ _)), Qmult_assoc.
    apply Qlt_shift_div_l; [exact Hd|].
    rewrite !pow2_inject by lia. rewrite <- !inject_Z_mult, <- Zlt_Qlt.
    apply Z.le_lt_trans with (n * Zpos d)%Z.
    - apply Z.mul_le_mono_nonneg_r; lia.
    - apply Z.mul_lt_mono_pos_l; lia. }
  destruct (Qle_bool (pow2 (a - b)) (n # d)) eqn:E.
  - apply Qle_bool_iff in E. split; [exact E | exact Up].
  - split; [apply Qlt_le_weak, Lo|].
    replace (a - b - 1 + 1)%Z with (a - b)%Z by ring.
    apply Qnot_le_lt. intros H. apply Qle_bool_iff in H. congruence.
Qed.

Lemma ilog2_unique (q : Q) (k : Z) :
  pow2 k <= q -> q < pow2 (k + 1) -> ilog2 q = k.
Proof.
  intros H1 H2.
  assert (Hq : 0 < q) by (eapply Qlt_le_trans; [apply pow2_pos | exact H1]).
  destruct (ilog2_spec q Hq) as [L1 L2].
  destruct (Z.lt_trichotomy (ilog2 q) k) as [H|[H|H]]; [|exact H|]; exfalso.
  - apply (Qlt_irrefl q). eapply Qlt_le_trans; [exact L2|].
    eapply Qle_trans; [|exact H1]. apply pow2_le. lia.
  - apply (Qlt_irrefl q). eapply Qlt_le_trans; [exact H2|].
    eapply Qle_trans; [|exact L1]. apply pow2_le. lia.
Qed.

Lemma ilog2_mono (p q : Q) : 0 < p -> p <= q -> (ilog2 p <= ilog2 q)%Z.
Proof.
  intros Hp Hle.
  assert (Hq : 0 < q) by (eapply Qlt_le_trans; eassumption).
  destruct (ilog2_spec p Hp) as [P1 _], (ilog2_spec q Hq) as [_ Q2].
  destruct (Z.le_gt_cases (ilog2 p) (ilog2 q)) as [H|H]; [exact H|]. exfalso.
  apply (Qlt_irrefl q). eapply Qlt_le_trans; [exact Q2|].
  eapply Qle_trans; [|exact Hle]. eapply Qle_trans; [|exact P1].
  apply pow2_le. lia.
Qed.

(** *** Rounding to the nearest integer *)

Lemma rne_proper (p q : Q) : p == q -> rne p = rne q.
Proof.
  intros H. unfold rne.
  assert (Ef : Qfloor p = Qfloor q) by now rewrite H.
  assert (Ec : Qcompare (p - inject_Z (Qfloor p)) (1 # 2)
               = Qcompare (q - inject_Z (Qfloor q)) (1 # 2)).
  { rewrite Ef. apply Qcompare_comp; [|reflexivity]. now rewrite H. }
  now rewrite Ec, Ef.
Qed.

Lemma rne_bounds (q : Q) : (Qfloor q <= rne q <= Qfloor q + 1)%Z.
Proof.
  unfold rne. destruct (Qcompare _ _); [destruct (Z.even _)| |]; lia.
Qed.

Lemma rne_inject (z : Z) : rne (inject_Z z) = z.
Proof.
  unfold rne. rewrite Qfloor_Z.
  assert (E : Qcompare (inject_Z z - inject_Z z) (1 # 2) = Lt).
  { apply Qlt_alt. setoid_replace (inject_Z z - inject_Z z) with 0 by ring.
    reflexivity. }
  now rewrite E.
Qed.

Lemma rne_mono (p q : Q) : p <= q -> (rne p <= rne q)%Z.
Proof.
  intros H. pose proof (Qfloor_resp_le _ _ H) as Hf.
  pose proof (rne_bounds p) as Bp. pose proof (rne_bounds q) as Bq.
  destruct (Z.eq_dec (Qfloor p) (Qfloor q)) as [E|Hne]; [|lia].
  unfold rne in *. rewrite <- E in *.
  assert (Hr : p - inject_Z (Qfloor p) <= q - inject_Z (Qfloor p)).
  { apply Qplus_le_l. exact H. }
  destruct (Qcompare (q - inject_Z (Qfloor p)) (1 # 2)) eqn:Cq.
  - apply Qeq_alt in Cq. rewrite Cq in Hr.
    destruct (Qcompare (p - inject_Z (Qfloor p)) (1 # 2)) eqn:Cp.
    + lia.
    + destruct (Z.even _); lia.
    + apply Qgt_alt in Cp. exfalso. exact (Qlt_not_le _ _ Cp Hr).
  - apply Qlt_alt in Cq.
    assert (Cp : Qcompare (p - inject_Z (Qfloor p)) (1 # 2) = Lt).
    { apply Qlt_alt. eapply Qle_lt_trans; eassumption. }
    rewrite Cp. lia.
  - lia.
Qed.

(** *** Rounding a positive number *)

Lemma expo_upper (q : Q) : 0 < q -> q < pow2 (expo q + 53).
Proof.
  intros Hq. destruct (ilog2_spec q Hq) as [_ H].
  eapply Qlt_le_trans; [exact H|]. apply pow2_le. unfold expo. lia.
Qed.

Lemma expo_lower (q : Q) :
  0 < q -> (-1074 < expo q)%Z -> pow2 (expo q + 52) <= q.
Proof.
  intros Hq He. destruct (ilog2_spec q Hq) as [H _].
  eapply Qle_trans; [|exact H]. apply pow2_le. unfold expo in *. lia.
Qed.

Lemma expo_mono (p q : Q) : 0 < p -> p <= q -> (expo p <= expo q)%Z.
Proof.
  intros Hp Hle. pose proof (ilog2_mono p q Hp Hle). unfold expo. lia.
Qed.

Lemma scaled (q : Q) (e : Z) : q / pow2 e * pow2 e == q.
Proof. unfold Qdiv. rewrite <- Qmult_assoc, (Qmult_comm (/ _)), Qmult_inv_r.
  - ring.
  - apply pow2_nonzero.
Qed.

Lemma div_pow2_le (p q : Q) (e : Z) : p <= q -> p / pow2 e <= q / pow2 e.
Proof.
  intros H. unfold Qdiv. apply Qmult_le_compat_r; [exact H|].
  apply Qinv_le_0_compat, Qlt_le_weak, pow2_pos.
Qed.

Lemma round_pos_nonneg (q : Q) : 0 < q -> 0 <= round_pos q.
Proof.
  intros Hq. unfold round_pos. apply Qmult_le_0_compat.
  - change 0 with (inject_Z 0). rewrite <- Zle_Qle.
    pose proof (rne_bounds (q / pow2 (expo q))) as B.
    assert (H0 : (0 <= Qfloor (q / pow2 (expo q)))%Z).
    { change 0%Z with (Qfloor 0). apply Qfloor_resp_le.
      apply Qle_shift_div_l; [apply pow2_pos|]. rewrite Qmult_0_l.
      apply Qlt_le_weak, Hq. }
    lia.
  - apply Qlt_le_weak, pow2_pos.
Qed.

Lemma round_pos_upper (q : Q) : 0 < q -> round_pos q <= pow2 (expo q + 53).
Proof.
  intros Hq. unfold round_pos. set (e := expo q).
  rewrite (Z.add_comm e 53), pow2_plus.
  apply Qmult_le_compat_r; [|apply Qlt_le_weak, pow2_pos].
  rewrite (pow2_inject 53) by lia. rewrite <- Zle_Qle.
  rewrite <- (rne_inject (2 ^ 53)). apply rne_mono.
  rewrite <- (pow2_inject 53) by lia.
  apply Qle_shift_div_r; [apply pow2_pos|].
  rewrite <- pow2_plus, Z.add_comm. apply Qlt_le_weak, expo_upper, Hq.
Qed.

Lemma round_pos_lower (q : Q) :
  0 < q -> (-1074 < expo q)%Z -> pow2 (expo q + 52) <= round_pos q.
Proof.
  intros Hq He. unfold round_pos. set (e := expo q).
  rewrite (Z.add_comm e 52), pow2_plus.
  apply Qmult_le_compat_r; [|apply Qlt_le_weak, pow2_pos].
  rewrite (pow2_inject 52) by lia. rewrite <- Zle_Qle.
  rewrite <- (rne_inject (2 ^ 52)). apply rne_mono.
  rewrite <- (pow2_inject 52) by lia.
  apply Qle_shift_div_l; [apply pow2_pos|].
  rewrite <- pow2_plus, Z.add_comm. apply expo_lower; assumption.
Qed.

Lemma round_pos_mono (p q : Q) : 0 < p -> p <= q -> round_pos p <= round_pos q.
Proof.
  intros Hp Hle.
  assert (Hq : 0 < q) by (eapply Qlt_le_trans; eassumption).
  pose proof (expo_mono p q Hp Hle) as He.
  destruct (Z.eq_dec (expo p) (expo q)) as [E|Hne].
  - unfold round_pos. rewrite E.
    apply Qmult_le_compat_r; [|apply Qlt_le_weak, pow2_pos].
    rewrite <- Zle_Qle. apply rne_mono, div_pow2_le, Hle.
  - eapply Qle_trans; [apply round_pos_upper, Hp|].
    eapply Qle_trans; [|apply round_pos_lower; [exact Hq | unfold expo in *; lia]].
    apply pow2_le. lia.
Qed.

(** A number with a significand of at most 53 bits and an exponent of at
    least -1074 is a double. *)
Lemma round_pos_exact (q : Q) (m k : Z) :
  (0 < m <= 2 ^ 53)%Z -> (0 <= k <= 1074)%Z ->
  q == inject_Z m * pow2 (- k) -> round_pos q == q.
Proof.
  intros Hm Hk Eq.
  assert (Hq : 0 < q).
  { rewrite Eq. apply Qmult_lt_0_compat; [|apply pow2_pos].
    change 0 with (inject_Z 0). rewrite <- Zlt_Qlt. lia. }
  assert (Hl : ilog2 q = (Z.log2 m - k)%Z).
  { destruct (Z.log2_spec m (proj1 Hm)) as [L1 L2].
    pose proof (Z.log2_nonneg m) as L0.
    apply ilog2_unique; rewrite Eq.
    - unfold Z.sub. rewrite pow2_plus.
      apply Qmult_le_compat_r; [|apply Qlt_le_weak, pow2_pos].
      rewrite pow2_inject by lia. now rewrite <- Zle_Qle.
    - replace (Z.log2 m - k + 1)%Z with ((Z.log2 m + 1) + - k)%Z by ring.
      rewrite pow2_plus.
      apply Qmult_lt_compat_r; [apply pow2_pos|].
      rewrite pow2_inject by lia. now rewrite <- Zlt_Qlt. }
  assert (Hint : exists N, q / pow2 (expo q) == inject_Z N).
  { destruct (Z.eq_dec m (2 ^ 53)) as [E53|Hne].
    - exists (2 ^ 52)%Z.
      assert (He : expo q = (1 - k)%Z).
      { unfold expo. rewrite Hl, E53, Z.log2_pow2 by lia. lia. }
      rewrite He. rewrite Eq. rewrite E53. rewrite pow2_div. rewrite <- (pow2_inject 53), <- (pow2_inject 52) by lia.
      rewrite <- pow2_plus. replace (53 + (- k - (1 - k)))%Z with 52%Z by ring.
      reflexivity.
    - assert (L : (Z.log2 m < 53)%Z) by (apply Z.log2_lt_pow2; lia).
      assert (He : (expo q <= - k)%Z) by (unfold expo; lia).
      revert He. generalize (expo q). intros e He.
      exists (m * 2 ^ (- k - e))%Z.
      rewrite Eq. rewrite pow2_div, inject_Z_mult. rewrite <- pow2_inject by lia. reflexivity. }
  destruct Hint as [N HN]. unfold round_pos.
  rewrite (rne_proper _ _ HN), rne_inject, <- HN. apply scaled.
Qed.

(** *** The rounding function *)

Lemma round53_proper (p q : Q) : p == q -> round53 p == round53 q.
Proof. intros H. unfold round53. now rewrite (Qred_complete _ _ H). Qed.

Lemma round53_cases (q : Q) :
  (q == 0 /\ round53 q = 0)
  \/ (0 < q /\ round53 q = round_pos (Qred q))
  \/ (q < 0 /\ round53 q = - round_pos (- Qred q)).
Proof.
  unfold round53. destruct (Qcompare (Qred q) 0) eqn:C.
  - left. apply Qeq_alt in C. rewrite Qred_correct in C. now split.
  - right. right. apply Qlt_alt in C. rewrite Qred_correct in C. now split.
  - right. left. apply Qgt_alt in C. rewrite Qred_correct in C. now split.
Qed.

Lemma neg_pos (q : Q) : q < 0 -> 0 < - Qred q.
Proof.
  intros H. rewrite Qred_correct. apply Qopp_lt_compat in H. exact H.
Qed.

Lemma red_pos (q : Q) : 0 < q -> 0 < Qred q.
Proof. intros H. now rewrite Qred_correct. Qed.

Lemma round53_monotone (p q : Q) : p <= q -> round53 p <= round53 q.
Proof.
  intros Hle.
  destruct (round53_cases p) as [[Hp ->]|[[Hp ->]|[Hp ->]]],
           (round53_cases q) as [[Hq ->]|[[Hq ->]|[Hq ->]]].
  - apply Qle_refl.
  - apply round_pos_nonneg, red_pos, Hq.
  - exfalso. rewrite Hp in Hle. exact (Qlt_not_le _ _ Hq Hle).
  - exfalso. rewrite Hq in Hle. exact (Qlt_not_le _ _ Hp Hle).
  - apply round_pos_mono; [apply red_pos, Hp | now rewrite !Qred_correct].
  - exfalso. apply (Qlt_irrefl 0).
    eapply Qlt_le_trans; [exact Hp|]. eapply Qle_trans; [exact Hle|].
    apply Qlt_le_weak, Hq.
  - apply (Qopp_le_compat 0), round_pos_nonneg, neg_pos, Hp.
  - apply Qle_trans with 0.
    + apply (Qopp_le_compat 0), round_pos_nonneg, neg_pos, Hp.
    + apply round_pos_nonneg, red_pos, Hq.
  - apply Qopp_le_compat, round_pos_mono; [apply neg_pos, Hq|].
    rewrite !Qred_correct. apply Qopp_le_compat, Hle.
Qed.

Lemma round53_exact (m k : Z) :
  (Z.abs m <= 2 ^ 53)%Z -> (0 <= k <= 1074)%Z ->
  round53 (inject_Z m * pow2 (- k)) == inject_Z m * pow2 (- k).
Proof.
  intros Hm Hk. set (q := inject_Z m * pow2 (- k)).
  destruct (round53_cases q) as [[Hq ->]|[[Hq ->]|[Hq ->]]].
  - now rewrite Hq.
  - assert (H0 : (0 < m)%Z).
    { destruct (Z.lt_ge_cases 0 m) as [H|H]; [exact H|]. exfalso.
      apply (Qlt_not_le _ _ Hq). unfold q.
      rewrite <- (Qmult_0_l (pow2 (- k))).
      apply Qmult_le_compat_r; [|apply Qlt_le_weak, pow2_pos].
      change 0 with (inject_Z 0). rewrite <- Zle_Qle. exact H. }
    rewrite (round_pos_exact (Qred q) m k); [apply Qred_correct|lia|exact Hk|].
    apply Qred_correct.
  - assert (H0 : (m < 0)%Z).
    { destruct (Z.lt_ge_cases m 0) as [H|H]; [exact H|]. exfalso.
      apply (Qlt_not_le _ _ Hq). unfold q.
      apply Qmult_le_0_compat; [|apply Qlt_le_weak, pow2_pos].
      change 0 with (inject_Z 0). rewrite <- Zle_Qle. lia. }
    rewrite (round_pos_exact (- Qred q) (- m) k); [|lia|exact Hk|].
    + rewrite Qred_correct. ring.
    + rewrite Qred_correct. unfold q. rewrite inject_Z_opp. ring.
Qed.

(** Rounding to the nearest double is one such function. *)
Lemma round53_rounding : rounding round53.
Proof.
  constructor.
  - exact round53_proper.
  - exact round53_monotone.
  - exact round53_exact.
Qed.

End Float64Facts.

(** ** Non-max suppression and the IoU on doubles *)

Module DoublesFacts.
Local Abbreviation exact_iou_xyxy := iou_xyxy (only parsing).

Import NMSSpec Float64 Float64Facts Doubles.

(** *** The suppression loop *)

Section Loop.

Variable test : nat -> nat -> bool.

Lemma suppress_cons (i : nat) (rest : list nat) :
  suppress test (i :: rest) = i :: suppress test (filter (test i) rest).
Proof. now simp suppress. Qed.

Lemma suppress_induction (P : list nat -> list nat -> Prop) :
  P [] [] ->
  (forall i rest,
      P (filter (test i) rest) (suppress test (filter (test i) rest)) ->
      P (i :: rest) (i :: suppress test (filter (test i) rest))) ->
  forall idxs, P idxs (suppress test idxs).
Proof.
  intros Hnil Hcons idxs.
  induction idxs as [idxs IH] using (induction_ltof1 _ (@length nat)).
  destruct idxs as [|i rest].
  - now simp suppress.
  - rewrite suppress_cons. apply Hcons, IH.
    unfold ltof. simpl. apply Nat.lt_succ_r, filter_length_le.
Qed.

Lemma suppress_incl (idxs : list nat) : incl (suppress test idxs) idxs.
Proof.
  apply suppress_induction.
  - apply incl_refl.
  - intros i rest IH x [<-|Hx]; [now left|].
    right. apply IH, filter_In in Hx. tauto.
Qed.



(** Among indices that pass the test pairwise nothing is suppressed. *)
Lemma suppress_all (idxs : list nat) :
  (forall i j, In i idxs -> In j idxs -> i <> j -> test i j = true) ->
  NoDup idxs -> suppress test idxs = idxs.
Proof.
  apply suppress_induction
    with (P := fun idxs pick =>
                 (forall i j, In i idxs -> In j idxs -> i <> j -> test i j = true) ->
                 NoDup idxs -> pick = idxs).
  - trivial.
  - intros i rest IH Hall Hnd.
    apply NoDup_cons_iff in Hnd. destruct Hnd as [Hni Hnd].
    assert (Hf : filter (test i) rest = rest).
    { apply forallb_filter_id, forallb_forall. intros x Hx.
      apply Hall; [now left | now right | intros ->; contradiction]. }
    rewrite Hf in *. f_equal. apply IH; [|exact Hnd].
    intros a b Ha Hb. apply Hall; now right.
Qed.

(** When every test fails only the first index is picked. *)
Lemma suppress_none (i : nat) (rest : list nat) :
  (forall j, In j rest -> test i j = false) -> suppress test (i :: rest) = [i].
Proof.
  intros Hall. rewrite suppress_cons.
  assert (Hf : filter (test i) rest = []).
  { induction rest as [|a l IH]; [reflexivity|]. simpl.
    rewrite (Hall a) by now left. apply IH. intros j Hj. apply Hall. now right. }
  rewrite Hf. now simp suppress.
Qed.

End Loop.

(** *** The model with exact arithmetic *)

(** With no rounding and the sort by insertion, the functions on doubles
    are the functions of the first model. *)

Lemma suppress_nms_loop (boxes : list fbox) (thr : Q) (idxs : list nat) :
  suppress (NMS.keeps boxes thr) idxs = NMS.nms_loop boxes thr idxs.
Proof.
  apply (NMSFacts.loop_induction boxes thr
           (fun idxs pick => suppress (NMS.keeps boxes thr) idxs = pick)).
  - now simp suppress.
  - intros i rest IH. now rewrite suppress_cons, IH.
Qed.

Lemma to_double_unrounded (boxes : list fbox) :
  map (to_double (fun q => q)) boxes = boxes.
Proof.
  rewrite <- (map_id boxes) at 2. apply map_ext. now intros [[[x1 y1] x2] y2].
Qed.

Lemma non_max_suppression_unrounded
  (boxes : list fbox) (scores : option (list Q)) (thr : Q) :
  non_max_suppression (fun q => q) NMS.argsort boxes scores thr
  = NMS.non_max_suppression boxes scores thr.
Proof.
  unfold non_max_suppression, NMS.non_max_suppression.
  rewrite to_double_unrounded.
  destruct (length boxes =? 0)%nat; [reflexivity|].
  change (map (area (fun q => q)) boxes) with (map NMS.area boxes).
  destruct (length _ <=? length boxes)%nat; [|reflexivity].
  change (keeps (fun q => q) boxes thr) with (NMS.keeps boxes thr).
  now rewrite suppress_nms_loop.
Qed.

Lemma iou_xyxy_unrounded (a b : ibox) :
  iou_xyxy (fun q => q) a b = exact_iou_xyxy a b.
Proof.
  destruct a as [[[ax1 ay1] ax2] ay2], b as [[[bx1 by1] bx2] by2]. reflexivity.
Qed.

(** *** What rounding leaves exact *)

Section Rounding.

Variable fl : Q -> Q.
Hypothesis R : rounding fl.

#[local] Instance fl_morphism : Proper (Qeq ==> Qeq) fl := fl_proper fl R.

Lemma fl_int (q : Q) (z : Z) : exact_int z -> q == inject_Z z -> fl q == inject_Z z.
Proof.
  intros Hz E. rewrite E.
  assert (E1 : inject_Z z == inject_Z z * pow2 (- 0)) by (unfold pow2; simpl; ring).
  rewrite E1 at 1. rewrite (fl_exact fl R z 0); [symmetry; exact E1 | exact Hz | lia].
Qed.

Lemma fl_0 : fl 0 == 0.
Proof. apply (fl_int 0 0); [unfold exact_int; simpl; lia | reflexivity]. Qed.

Lemma fl_1 : fl 1 == 1.
Proof. apply (fl_int 1 1); [unfold exact_int; simpl; lia | reflexivity]. Qed.

Lemma fl_nonneg (q : Q) : 0 <= q -> 0 <= fl q.
Proof. intros H. rewrite <- fl_0. apply (fl_monotone fl R), H. Qed.

Lemma fl_le_1 (q : Q) : q <= 1 -> fl q <= 1.
Proof. intros H. rewrite <- fl_1. apply (fl_monotone fl R), H. Qed.

(** Two numbers with two doubles between them round to different
    doubles. *)
Lemma fl_separated (p q : Q) (m1 m2 k1 k2 : Z) :
  exact_int m1 -> exact_int m2 -> (0 <= k1 <= 1074)%Z -> (0 <= k2 <= 1074)%Z ->
  p <= inject_Z m1 * pow2 (- k1) ->
  inject_Z m1 * pow2 (- k1) < inject_Z m2 * pow2 (- k2) ->
  inject_Z m2 * pow2 (- k2) <= q ->
  fl p < fl q.
Proof.
  intros H1 H2 K1 K2 Hp Hlt Hq.
  apply Qle_lt_trans with (fl (inject_Z m1 * pow2 (- k1)));
    [apply (fl_monotone fl R), Hp|].
  apply Qlt_le_trans with (fl (inject_Z m2 * pow2 (- k2)));
    [|apply (fl_monotone fl R), Hq].
  rewrite !(fl_exact fl R) by assumption. exact Hlt.
Qed.

Lemma fl_sub (a b : Q) (x y : Z) :
  a == inject_Z x -> b == inject_Z y -> exact_int (x - y) ->
  fl (a - b) == inject_Z (x - y).
Proof.
  intros Ha Hb H. apply fl_int; [exact H|]. rewrite Ha, Hb.
  unfold Z.sub. rewrite inject_Z_plus, inject_Z_opp. reflexivity.
Qed.

Lemma fl_add (a b : Q) (x y : Z) :
  a == inject_Z x -> b == inject_Z y -> exact_int (x + y) ->
  fl (a + b) == inject_Z (x + y).
Proof.
  intros Ha Hb H. apply fl_int; [exact H|]. rewrite Ha, Hb.
  now rewrite inject_Z_plus.
Qed.

Lemma fl_mul (a b : Q) (x y : Z) :
  a == inject_Z x -> b == inject_Z y -> exact_int (x * y) ->
  fl (a * b) == inject_Z (x * y).
Proof.
  intros Ha Hb H. apply fl_int; [exact H|]. rewrite Ha, Hb.
  now rewrite inject_Z_mult.
Qed.

(** *** Rows of integers *)

Lemma row_of_exact (b : ibox) : exact_box b -> feq (row_of fl b) (to_float b).
Proof.
  destruct b as [[[x1 y1] x2] y2]. intros (H1 & H2 & H3 & H4).
  unfold feq, row_of. simpl. repeat split; apply fl_int; (assumption || reflexivity).
Qed.

(** A box of integers that are doubles comes back from the float array
    as it was. *)
Lemma astype_int_row_of (b : ibox) : exact_box b -> astype_int (row_of fl b) = b.
Proof.
  intros H. apply NMSFacts.astype_int_whole, row_of_exact, H.
Qed.

End Rounding.

(** *** The overlap test *)

Section Test.

Variable fl : Q -> Q.
Hypothesis R : rounding fl.

#[local] Instance fl_morphism_test : Proper (Qeq ==> Qeq) fl := fl_proper fl R.

Lemma iou_rows_quotient (a b : fbox) :
  iou_rows fl a b = np_div fl (inter_of fl a b) (union_of fl a b).
Proof. reflexivity. Qed.








End Test.

(** *** The ranking *)

Section Ranking.

Variable argsort : list Q -> list nat.
Hypothesis S : sorts argsort.

Lemma rank_perm (keys : list Q) :
  Permutation (rev (argsort keys)) (seq 0 (length keys)).
Proof.
  eapply perm_trans; [apply Permutation_sym, Permutation_rev | apply S].
Qed.

Lemma rank_NoDup (keys : list Q) : NoDup (rev (argsort keys)).
Proof.
  eapply Permutation_NoDup; [apply Permutation_sym, rank_perm | apply seq_NoDup].
Qed.

Lemma rank_valid (keys : list Q) (i : nat) :
  In i (rev (argsort keys)) -> (i < length keys)%nat.
Proof.
  intros H. apply (Permutation_in _ (rank_perm keys)), in_seq in H. lia.
Qed.

(** Largest key first. *)
Lemma rank_sorted (keys : list Q) :
  StronglySorted (fun i j => nth j keys 0 <= nth i keys 0) (rev (argsort keys)).
Proof.
  rewrite <- (app_nil_r (rev _)).
  apply (NMSFacts.StronglySorted_app_rev (fun i j => nth i keys 0 <= nth j keys 0)).
  - apply S.
  - constructor.
  - intros x y _ [].
Qed.

Lemma rank_nil : rev (argsort []) = [].
Proof.
  assert (H : Permutation (rev (argsort [])) []) by apply (rank_perm []).
  apply Permutation_sym, Permutation_nil in H. exact H.
Qed.


Lemma rank_two (k1 k2 : Q) :
  argsort [k1; k2] = [0%nat; 1%nat] \/ argsort [k1; k2] = [1%nat; 0%nat].
Proof.
  destruct (S [k1; k2]) as [H _]. simpl in H.
  apply Permutation_sym, Permutation_length_2_inv in H. tauto.
Qed.

End Ranking.

(** The insertion sort of the other model is one such [argsort]. *)
Lemma sorts_insertion : sorts NMS.argsort.
Proof.
  intros keys. split; [apply NMSFacts.argsort_perm|].
  eapply NMSFacts.StronglySorted_weaken; [|apply NMSFacts.argsort_sorted].
  intros i j _ _ [H|[H _]]; [apply Qlt_le_weak, H | rewrite H; apply Qle_refl].
Qed.

(** *** The function as a whole, without scores *)

Section Function.

Variable fl : Q -> Q.
Variable argsort : list Q -> list nat.
Hypothesis R : rounding fl.
Hypothesis S : sorts argsort.

Lemma nms_picked (boxes : list fbox) (thr : Q) :
  non_max_suppression fl argsort boxes None thr =
  Some (map (fun i => astype_int (NMS.row (map (to_double fl) boxes) i))
            (picked fl argsort boxes thr)).
Proof.
  unfold non_max_suppression, picked. destruct boxes as [|b boxes].
  - simpl. rewrite (rank_nil argsort S). now simp suppress.
  - replace (length (b :: boxes) =? 0)%nat with false by reflexivity.
    rewrite !length_map, Nat.leb_refl. reflexivity.
Qed.


Lemma pick_valid (boxes : list fbox) (thr : Q) (i : nat) :
  In i (picked fl argsort boxes thr) -> (i < length boxes)%nat.
Proof.
  intros H. apply suppress_incl, (rank_valid argsort S) in H.
  now rewrite !length_map in H.
Qed.

Lemma row_to_double (boxes : list fbox) (i : nat) :
  (i < length boxes)%nat ->
  NMS.row (map (to_double fl) boxes) i = to_double fl (NMS.row boxes i).
Proof.
  intros Hi. unfold NMS.row.
  rewrite (nth_indep _ NMS.zero_row (to_double fl NMS.zero_row))
    by now rewrite length_map.
  apply map_nth.
Qed.

Lemma row_of_nth (boxes : list ibox) (i : nat) :
  (i < length boxes)%nat ->
  NMS.row (map (to_double fl) (map to_float boxes)) i
  = row_of fl (nth i boxes zero_ibox).
Proof.
  intros Hi. rewrite row_to_double by now rewrite length_map.
  now rewrite NMSFacts.row_to_float.
Qed.

Lemma nth_exact (boxes : list ibox) (i : nat) :
  Forall exact_box boxes -> (i < length boxes)%nat ->
  exact_box (nth i boxes zero_ibox).
Proof.
  intros Hall Hi. rewrite Forall_forall in Hall. apply Hall, nth_In, Hi.
Qed.

(** With integers that are doubles the returned boxes are input boxes. *)
Lemma pick_ints (boxes : list ibox) (thr : Q) :
  Forall exact_box boxes ->
  non_max_suppression fl argsort (map to_float boxes) None thr =
  Some (map (fun i => nth i boxes zero_ibox)
            (picked fl argsort (map to_float boxes) thr)).
Proof.
  intros Hall. rewrite nms_picked. f_equal.
  apply map_ext_in. intros i Hi.
  apply pick_valid in Hi. rewrite length_map in Hi.
  rewrite row_of_nth by exact Hi.
  apply (astype_int_row_of fl R), nth_exact; assumption.
Qed.


End Function.

(** *** Boxes in the pixel range *)

Lemma abs_mul_bound (a b A B : Z) :
  (Z.abs a <= A -> Z.abs b <= B -> Z.abs (a * b) <= A * B)%Z.
Proof.
  intros Ha Hb. rewrite Z.abs_mul.
  apply Z.mul_le_mono_nonneg; try assumption; apply Z.abs_nonneg.
Qed.

Section Pixel.

Variable fl : Q -> Q.
Hypothesis R : rounding fl.

#[local] Instance fl_morphism_pixel : Proper (Qeq ==> Qeq) fl := fl_proper fl R.

Lemma side_exact (lo hi : Q) (l h : Z) :
  lo == inject_Z l -> hi == inject_Z h ->
  (Z.abs l <= 2 ^ 24)%Z -> (Z.abs h <= 2 ^ 24)%Z ->
  fl (fl (hi - lo) + 1) == inject_Z (h - l + 1).
Proof.
  intros Hl Hh Bl Bh. change (2 ^ 24)%Z with 16777216%Z in *.
  apply (fl_add fl R _ _ (h - l) 1); [|reflexivity|].
  - apply (fl_sub fl R); [assumption | assumption|].
    unfold exact_int. change (2 ^ 53)%Z with 9007199254740992%Z. lia.
  - unfold exact_int. change (2 ^ 53)%Z with 9007199254740992%Z. lia.
Qed.

Lemma product_exact (p q : Q) (x y : Z) :
  p == inject_Z x -> q == inject_Z y ->
  (Z.abs x <= 2 ^ 25 + 1)%Z -> (Z.abs y <= 2 ^ 25 + 1)%Z ->
  fl (p * q) == inject_Z (x * y).
Proof.
  intros Hp Hq Bx By. apply (fl_mul fl R); [assumption | assumption|].
  unfold exact_int. pose proof (abs_mul_bound _ _ _ _ Bx By) as H.
  change ((2 ^ 25 + 1) * (2 ^ 25 + 1))%Z with 1125899973951489%Z in H.
  change (2 ^ 53)%Z with 9007199254740992%Z. lia.
Qed.

Lemma area_exact (a : ibox) :
  pixel_box a -> area fl (row_of fl a) == inject_Z (MoreSpec.box_area a).
Proof.
  destruct a as [[[x1 y1] x2] y2]. intros (B1 & B2 & B3 & B4).
  assert (E : forall z, (Z.abs z <= 2 ^ 24)%Z -> fl (inject_Z z) == inject_Z z).
  { intros z Hz. apply (fl_int fl R); [|reflexivity].
    unfold exact_int. change (2 ^ 24)%Z with 16777216%Z in Hz.
    change (2 ^ 53)%Z with 9007199254740992%Z. lia. }
  unfold area, row_of. cbn [to_float to_double NMS.col_x1 NMS.col_x2 NMS.col_y1 NMS.col_y2 MoreSpec.box_area].
  change (2 ^ 24)%Z with 16777216%Z in *.
  apply product_exact.
  - apply side_exact; try apply E; assumption.
  - apply side_exact; try apply E; assumption.
  - change (2 ^ 25 + 1)%Z with 33554433%Z. lia.
  - change (2 ^ 25 + 1)%Z with 33554433%Z. lia.
Qed.

Lemma inter_exact (a b : ibox) :
  pixel_box a -> pixel_box b ->
  inter_of fl (row_of fl a) (row_of fl b) == inject_Z (MoreSpec.inter_area a b).
Proof.
  destruct a as [[[ax1 ay1] ax2] ay2], b as [[[bx1 by1] bx2] by2].
  intros (A1 & A2 & A3 & A4) (B1 & B2 & B3 & B4).
  assert (E : forall z, (Z.abs z <= 2 ^ 24)%Z -> fl (inject_Z z) == inject_Z z).
  { intros z Hz. apply (fl_int fl R); [|reflexivity].
    unfold exact_int. change (2 ^ 24)%Z with 16777216%Z in Hz.
    change (2 ^ 53)%Z with 9007199254740992%Z. lia. }
  unfold inter_of, row_of.
  cbn [to_float to_double NMS.col_x1 NMS.col_x2 NMS.col_y1 NMS.col_y2 MoreSpec.inter_area].
  rewrite !E by assumption.
  rewrite !IoUFacts.Qmax_inject, !IoUFacts.Qmin_inject.
  change (2 ^ 24)%Z with 16777216%Z in *.
  assert (Sx : fl (fl (inject_Z (Z.min ax2 bx2) - inject_Z (Z.max ax1 bx1)) + 1)
               == inject_Z (Z.min ax2 bx2 - Z.max ax1 bx1 + 1)).
  { apply side_exact; try reflexivity; change (2 ^ 24)%Z with 16777216%Z; lia. }
  assert (Sy : fl (fl (inject_Z (Z.min ay2 by2) - inject_Z (Z.max ay1 by1)) + 1)
               == inject_Z (Z.min ay2 by2 - Z.max ay1 by1 + 1)).
  { apply side_exact; try reflexivity; change (2 ^ 24)%Z with 16777216%Z; lia. }
  rewrite Sx, Sy. change 0 with (inject_Z 0). rewrite !IoUFacts.Qmax_inject.
  apply product_exact; try reflexivity; change (2 ^ 25 + 1)%Z with 33554433%Z; lia.
Qed.

Lemma area_bound (a : ibox) :
  pixel_box a -> (Z.abs (MoreSpec.box_area a) <= 1125899973951489)%Z.
Proof.
  destruct a as [[[x1 y1] x2] y2]. intros (B1 & B2 & B3 & B4).
  change (2 ^ 24)%Z with 16777216%Z in *. simpl.
  change 1125899973951489%Z with (33554433 * 33554433)%Z.
  apply abs_mul_bound; lia.
Qed.

Lemma inter_bound (a b : ibox) :
  pixel_box a -> pixel_box b ->
  (Z.abs (MoreSpec.inter_area a b) <= 1125899973951489)%Z.
Proof.
  destruct a as [[[ax1 ay1] ax2] ay2], b as [[[bx1 by1] bx2] by2].
  intros (A1 & A2 & A3 & A4) (B1 & B2 & B3 & B4).
  change (2 ^ 24)%Z with 16777216%Z in *. simpl.
  change 1125899973951489%Z with (33554433 * 33554433)%Z.
  apply abs_mul_bound; lia.
Qed.

Lemma union_exact (a b : ibox) :
  pixel_box a -> pixel_box b ->
  union_of fl (row_of fl a) (row_of fl b) == inject_Z (MoreSpec.union_area a b).
Proof.
  intros Ha Hb. unfold union_of, MoreSpec.union_area.
  pose proof (area_bound a Ha) as Ba. pose proof (area_bound b Hb) as Bb.
  pose proof (inter_bound a b Ha Hb) as Bi.
  apply (fl_sub fl R).
  - apply (fl_add fl R); try (apply area_exact; assumption).
    unfold exact_int. change (2 ^ 53)%Z with 9007199254740992%Z. lia.
  - apply inter_exact; assumption.
  - unfold exact_int. change (2 ^ 53)%Z with 9007199254740992%Z. lia.
Qed.

End Pixel.

(** *** The two IoU computations on doubles *)

Lemma iou_xyxy_quotient (fl : Q -> Q) (a b : ibox) :
  iou_xyxy fl a b =
  if (MoreSpec.union_area a b =? 0)%Z then 0
  else fl (inject_Z (MoreSpec.inter_area a b) / inject_Z (MoreSpec.union_area a b)).
Proof.
  destruct a as [[[ax1 ay1] ax2] ay2], b as [[[bx1 by1] bx2] by2]. reflexivity.
Qed.

Section Agreement.

Variable fl : Q -> Q.
Hypothesis R : rounding fl.

#[local] Instance fl_morphism_agreement : Proper (Qeq ==> Qeq) fl := fl_proper fl R.

(** The value returned by [iou_xyxy] is the rounded exact quotient. *)
Lemma iou_xyxy_rounded (a b : ibox) : iou_xyxy fl a b == fl (exact_iou_xyxy a b).
Proof.
  rewrite iou_xyxy_quotient, IoUFacts.iou_xyxy_areas.
  destruct (_ =? 0)%Z; [symmetry; apply (fl_0 fl R) | reflexivity].
Qed.

Lemma iou_xyxy_bounds (a b : ibox) : 0 <= iou_xyxy fl a b <= 1.
Proof.
  rewrite iou_xyxy_rounded.
  assert (H : 0 <= exact_iou_xyxy a b <= 1).
  { destruct (IoUFacts.iou_xyxy_cases a b) as [[_ E]|[H E]]; rewrite E.
    - split; [apply Qle_refl | discriminate].
    - apply IoUFacts.ratio_bounds; lia. }
  split; [apply (fl_nonneg fl R), H | apply (fl_le_1 fl R), H].
Qed.

Lemma iou_rows_exact (a b : ibox) :
  pixel_box a -> pixel_box b ->
  (MoreSpec.union_area a b <> 0%Z ->
   exists q, iou_rows fl (row_of fl a) (row_of fl b) = Fin q
             /\ q == iou_xyxy fl a b)
  /\ (MoreSpec.union_area a b = 0%Z ->
      iou_rows fl (row_of fl a) (row_of fl b) = NaN /\ iou_xyxy fl a b = 0).
Proof.
  intros Pa Pb. rewrite iou_rows_quotient, iou_xyxy_quotient. unfold np_div.
  assert (Eu : Qis_zero (union_of fl (row_of fl a) (row_of fl b))
               = (MoreSpec.union_area a b =? 0)%Z).
  { rewrite <- IoUFacts.inject_Z_zero. unfold Qis_zero.
    now rewrite (union_exact fl R a b Pa Pb). }
  assert (Ei : Qis_zero (inter_of fl (row_of fl a) (row_of fl b))
               = (MoreSpec.inter_area a b =? 0)%Z).
  { rewrite <- IoUFacts.inject_Z_zero. unfold Qis_zero.
    now rewrite (inter_exact fl R a b Pa Pb). }
  rewrite Eu, Ei. split; intros H.
  - apply Z.eqb_neq in H. rewrite H. eexists. split; [reflexivity|].
    now rewrite (inter_exact fl R a b Pa Pb), (union_exact fl R a b Pa Pb).
  - assert (Hi : MoreSpec.inter_area a b = 0%Z).
    { destruct (IoUFacts.iou_xyxy_cases a b) as [[Hz _]|[Hp _]]; [exact Hz | lia]. }
    rewrite H, Hi. simpl. split; reflexivity.
Qed.

(** Between boxes of the pixel range that hold a pixel each, the test of
    line 83 compares the double that [iou_xyxy] returns. *)
Lemma test_pixels (thr : Q) (a b : ibox) :
  pixel_box a -> pixel_box b -> MoreSpec.proper a -> MoreSpec.proper b ->
  np_le (iou_rows fl (row_of fl a) (row_of fl b)) thr
  = Qle_bool (iou_xyxy fl a b) thr.
Proof.
  intros Pa Pb Ha Hb. pose proof (NMSMore.proper_union a b Ha Hb) as Hu.
  destruct (iou_rows_exact a b Pa Pb) as [H _].
  destruct H as [q [-> Hq]]; [lia|]. simpl. now rewrite Hq.
Qed.

End Agreement.

(** ** Statements about non-max suppression on doubles *)

Section Statements.

Variable fl : Q -> Q.
Variable argsort : list Q -> list nat.
Hypothesis R : rounding fl.
Hypothesis S : sorts argsort.

#[local] Instance fl_morphism_statements : Proper (Qeq ==> Qeq) fl := fl_proper fl R.

Lemma rank_by_area (boxes : list fbox) :
  let rows := map (to_double fl) boxes in
  StronglySorted (fun i j => area fl (NMS.row rows j) <= area fl (NMS.row rows i))
                 (rev (argsort (map (area fl) rows))).
Proof.
  intros rows.
  eapply NMSFacts.StronglySorted_weaken; [|apply (rank_sorted argsort S)].
  intros i j Hi Hj. apply (rank_valid argsort S) in Hi, Hj.
  unfold NMS.row.
  rewrite (nth_indep _ 0 (area fl NMS.zero_row) Hi),
          (nth_indep _ 0 (area fl NMS.zero_row) Hj).
  rewrite !map_nth. trivial.
Qed.

(** The two boxes of scenario B fail the test of line 83, whichever is
    picked first. *)
Lemma scenario_B_test (a b : ibox) :
  (a = (10, 10, 50, 50)%Z /\ b = (12, 12, 52, 52)%Z)
  \/ (a = (12, 12, 52, 52)%Z /\ b = (10, 10, 50, 50)%Z) ->
  np_le (iou_rows fl (row_of fl a) (row_of fl b)) (fl (4 # 10)) = false.
Proof.
  intros H.
  assert (Pa : pixel_box a /\ pixel_box b /\ MoreSpec.proper a /\ MoreSpec.proper b
               /\ MoreSpec.inter_area a b = 1521%Z
               /\ MoreSpec.union_area a b = 1841%Z).
  { destruct H as [[-> ->]|[-> ->]]; repeat split; simpl; lia. }
  destruct Pa as (Pa & Pb & Ha & Hb & Ei & Eu).
  rewrite (test_pixels fl R _ a b Pa Pb Ha Hb).
  rewrite iou_xyxy_quotient, Ei, Eu. simpl.
  destruct (Qle_bool _ _) eqn:E; [|reflexivity]. apply Qle_bool_iff in E.
  exfalso. apply (Qlt_not_le _ _ (fl_separated fl R (4 # 10)
                                    (inject_Z 1521 / inject_Z 1841) 1 3 1 2
                                    ltac:(unfold exact_int; simpl; lia)
                                    ltac:(unfold exact_int; simpl; lia)
                                    ltac:(lia) ltac:(lia)
                                    ltac:(vm_compute; discriminate)
                                    ltac:(vm_compute; reflexivity)
                                    ltac:(vm_compute; discriminate))).
  exact E.
Qed.

End Statements.

(** C2, as the code has it.  Without scores the boxes are ranked by their
    area as computed in float64, largest first, whatever [np.argsort] does
    with equal areas, and the loop runs over this ranking.  For the two
    boxes of scenario B, of equal area, exactly one box is kept: the second
    when [np.argsort] returns the two equal keys as [0, 1], the first when
    it returns them as [1, 0]. *)
Theorem nms_ranks_by_area
  (fl : Q -> Q) (argsort : list Q -> list nat) (boxes : list fbox) (thr : Q) :
  rounding fl -> sorts argsort ->
  let rows := map (to_double fl) boxes in
  let idxs := rev (argsort (map (area fl) rows)) in
  let B := map to_float [(10, 10, 50, 50)%Z; (12, 12, 52, 52)%Z] in
  let keys := map (area fl) (map (to_double fl) B) in
  Permutation idxs (seq 0 (length boxes))
  /\ StronglySorted
       (fun i j => area fl (NMS.row rows j) <= area fl (NMS.row rows i)) idxs
  /\ non_max_suppression fl argsort boxes None thr =
     Some (map (fun i => astype_int (NMS.row rows i))
               (suppress (keeps fl rows (fl thr)) idxs))
  /\ nth 0 keys 0 == nth 1 keys 0
  /\ (argsort keys = [0; 1]%nat \/ argsort keys = [1; 0]%nat)
  /\ (argsort keys = [0; 1]%nat ->
      non_max_suppression fl argsort B None (4 # 10) = Some [(12, 12, 52, 52)%Z])
  /\ (argsort keys = [1; 0]%nat ->
      non_max_suppression fl argsort B None (4 # 10) = Some [(10, 10, 50, 50)%Z]).
Proof.
  intros R S rows idxs B keys.
  assert (HB : Forall exact_box [(10, 10, 50, 50)%Z; (12, 12, 52, 52)%Z]).
  { repeat constructor; unfold exact_int; simpl; lia. }
  assert (Hrun : forall i j,
             (i = 0 /\ j = 1)%nat \/ (i = 1 /\ j = 0)%nat ->
             rev (argsort keys) = [i; j] ->
             non_max_suppression fl argsort B None (4 # 10)
             = Some [nth i [(10, 10, 50, 50)%Z; (12, 12, 52, 52)%Z] zero_ibox]).
  { intros i j Hij E. subst B keys. rewrite (pick_ints fl argsort R S _ _ HB).
    unfold picked. cbv zeta. rewrite E.
    rewrite suppress_none; [reflexivity|].
    intros x [<-|[]]. unfold keeps.
    rewrite !(row_of_nth fl) by (simpl; lia).
    apply (scenario_B_test fl R).
    destruct Hij as [[-> ->]|[-> ->]]; simpl; tauto. }
  split; [|split; [|split; [|split; [|split; [|split]]]]].
  - unfold idxs. rewrite <- (length_map (to_double fl) boxes).
    fold rows. rewrite <- (length_map (area fl) rows).
    apply (rank_perm argsort S).
  - apply (rank_by_area fl argsort S).
  - apply (nms_picked fl argsort S).
  - subst keys B. cbn [map nth].
    pose proof (area_exact fl R (10, 10, 50, 50)%Z ltac:(simpl; lia)) as E1.
    pose proof (area_exact fl R (12, 12, 52, 52)%Z ltac:(simpl; lia)) as E2.
    unfold row_of in E1, E2. rewrite E1, E2. reflexivity.
  - apply (rank_two argsort S).
  - intros E. apply (Hrun 1 0)%nat; [tauto | now rewrite E].
  - intros E. apply (Hrun 0 1)%nat; [tauto | now rewrite E].
Qed.

(** C2 for the rounding to the nearest double and an [argsort] that leaves
    equal keys in input order. *)
Lemma nms_ranks_by_area_witness :
  let boxes := map to_float [(0, 0, 9, 9)%Z; (0, 0, 19, 19)%Z] in
  let rows := map (to_double round53) boxes in
  let idxs := rev (NMS.argsort (map (area round53) rows)) in
  Permutation idxs (seq 0 (length boxes))
  /\ StronglySorted
       (fun i j => area round53 (NMS.row rows j) <= area round53 (NMS.row rows i))
       idxs
  /\ non_max_suppression round53 NMS.argsort
       (map to_float [(10, 10, 50, 50)%Z; (12, 12, 52, 52)%Z]) None (4 # 10)
     = Some [(12, 12, 52, 52)%Z].
Proof.
  intros boxes rows idxs.
  destruct (nms_ranks_by_area round53 NMS.argsort boxes (4 # 10)
              round53_rounding sorts_insertion)
    as (H1 & H2 & _ & _ & _ & H3 & _).
  split; [exact H1|]. split; [exact H2|]. apply H3. vm_compute. reflexivity.
Defined.








(** X4.  For boxes with coordinates of absolute value at most 2^24 the
    IoU computed inside non-max suppression, with its roundings, is the
    double that [iou_xyxy] returns, whenever the union is not zero; for a
    zero union the first is nan where the second is 0. *)
Theorem nms_iou_agrees_pixels (fl : Q -> Q) (a b : ibox) :
  rounding fl -> pixel_box a -> pixel_box b ->
  (MoreSpec.union_area a b <> 0%Z ->
   exists q, iou_rows fl (row_of fl a) (row_of fl b) = Fin q
             /\ q == iou_xyxy fl a b)
  /\ (MoreSpec.union_area a b = 0%Z ->
      iou_rows fl (row_of fl a) (row_of fl b) = NaN /\ iou_xyxy fl a b = 0).
Proof. intros R Pa Pb. exact (iou_rows_exact fl R a b Pa Pb). Qed.

(** X4 on two boxes of IoU 1/3 and on two boxes without a pixel. *)
Lemma nms_iou_agrees_pixels_witness :
  (exists q, iou_rows round53 (row_of round53 (0, 0, 99, 99)%Z)
                              (row_of round53 (0, 50, 99, 149)%Z) = Fin q
             /\ q == iou_xyxy round53 (0, 0, 99, 99)%Z (0, 50, 99, 149)%Z)
  /\ iou_rows round53 (row_of round53 (0, 0, -1, 5)%Z)
                      (row_of round53 (3, 3, 2, 9)%Z) = NaN.
Proof.
  split.
  - apply (nms_iou_agrees_pixels round53 (0, 0, 99, 99)%Z (0, 50, 99, 149)%Z
             round53_rounding); [simpl; lia | simpl; lia | discriminate].
  - apply (nms_iou_agrees_pixels round53 (0, 0, -1, 5)%Z (3, 3, 2, 9)%Z
             round53_rounding); [simpl; lia | simpl; lia | reflexivity].
Defined.

(** Outside that range the two computations differ: for these two boxes
    non-max suppression computes 0.29661684623232415 and [iou_xyxy] returns
    0.2966168462323242. *)
Example iou_computations_differ :
  let a := (0, 0, 278490237, 745395730)%Z in
  let b := (16940109, 136939143, 392473602, 1436636614)%Z in
  exists q, iou_rows round53 (row_of round53 a) (row_of round53 b) = Fin q
            /\ q == 5343374072654827 # 18014398509481984
            /\ iou_xyxy round53 a b == 1335843518163707 # 4503599627370496
            /\ q < iou_xyxy round53 a b.
Proof.
  eexists. split; [vm_compute; reflexivity|].
  repeat split; vm_compute; reflexivity.
Qed.

Lemma pixel_exact (b : ibox) : pixel_box b -> exact_box b.
Proof.
  destruct b as [[[x1 y1] x2] y2]. unfold pixel_box, exact_box, exact_int.
  change (2 ^ 24)%Z with 16777216%Z. change (2 ^ 53)%Z with 9007199254740992%Z.
  lia.
Qed.

Lemma nth_pixel (boxes : list ibox) (i : nat) :
  Forall pixel_box boxes -> (i < length boxes)%nat ->
  pixel_box (nth i boxes zero_ibox).
Proof.
  intros Hall Hi. rewrite Forall_forall in Hall. apply Hall, nth_In, Hi.
Qed.

(** X9.  On integer boxes of the pixel range that hold a pixel each: with
    a threshold of 1 or more nothing is suppressed and the result is the
    input in another order; with a threshold that is negative as a double
    only the first box of the ranking is returned. *)
Theorem nms_threshold_extremes_pixels
  (fl : Q -> Q) (argsort : list Q -> list nat) (boxes : list ibox) (thr : Q) :
  rounding fl -> sorts argsort ->
  Forall pixel_box boxes -> Forall MoreSpec.proper boxes ->
  (1 <= thr ->
   exists out,
     non_max_suppression fl argsort (map to_float boxes) None thr = Some out
     /\ Permutation out boxes)
  /\ (fl thr < 0 -> boxes <> [] ->
      exists c,
        non_max_suppression fl argsort (map to_float boxes) None thr = Some [c]
        /\ In c boxes).
Proof.
  intros R S Hpix Hprop.
  assert (Hex : Forall exact_box boxes).
  { eapply Forall_impl; [|exact Hpix]. exact pixel_exact. }
  set (keys := map (area fl) (map (to_double fl) (map to_float boxes))).
  assert (Hlen : length keys = length boxes).
  { unfold keys. now rewrite !length_map. }
  assert (Htest : forall i j,
             (i < length boxes)%nat -> (j < length boxes)%nat ->
             keeps fl (map (to_double fl) (map to_float boxes)) (fl thr) i j
             = Qle_bool (iou_xyxy fl (nth i boxes zero_ibox) (nth j boxes zero_ibox))
                        (fl thr)).
  { intros i j Hi Hj. unfold keeps. rewrite !(row_of_nth fl) by assumption.
    apply (test_pixels fl R);
      (apply nth_pixel || apply NMSMore.nth_proper); assumption. }
  rewrite (pick_ints fl argsort R S boxes thr Hex). unfold picked. cbv zeta.
  fold keys. split.
  - intros Hthr. eexists. split; [reflexivity|].
    rewrite suppress_all.
    + apply Permutation_trans
        with (map (fun i => nth i boxes zero_ibox) (seq 0 (length boxes)));
        [|rewrite NMSFacts.map_nth_seq; apply Permutation_refl].
      apply Permutation_map. rewrite <- Hlen. apply (rank_perm argsort S).
    + intros i j Hi Hj _. apply (rank_valid argsort S) in Hi, Hj.
      rewrite Hlen in Hi, Hj. rewrite (Htest i j Hi Hj). apply Qle_bool_iff.
      eapply Qle_trans; [apply (iou_xyxy_bounds fl R)|].
      rewrite <- (fl_1 fl R). apply (fl_monotone fl R), Hthr.
    + apply (rank_NoDup argsort S).
  - intros Hthr Hne.
    assert (Hperm := rank_perm argsort S keys).
    destruct (rev (argsort keys)) as [|i rest] eqn:E.
    { apply Permutation_nil in Hperm. rewrite Hlen in Hperm.
      destruct boxes; [contradiction | discriminate]. }
    assert (Hin : forall j, In j (i :: rest) -> (j < length boxes)%nat).
    { intros j Hj. rewrite <- E in Hj. apply (rank_valid argsort S) in Hj.
      now rewrite Hlen in Hj. }
    rewrite suppress_none.
    + exists (nth i boxes zero_ibox). split; [reflexivity|].
      apply nth_In, Hin. now left.
    + intros j Hj.
      rewrite (Htest i j (Hin i (or_introl eq_refl)) (Hin j (or_intror Hj))).
      destruct (Qle_bool _ _) eqn:Eq; [|reflexivity].
      apply Qle_bool_iff in Eq. exfalso.
      apply (Qlt_irrefl 0). eapply Qle_lt_trans; [apply (iou_xyxy_bounds fl R)|].
      eapply Qle_lt_trans; [exact Eq | exact Hthr].
Qed.

(** X9 on three boxes: threshold 1 returns all three, threshold -1 one. *)
Lemma nms_threshold_extremes_pixels_witness :
  let boxes := [(0, 0, 9, 9); (5, 5, 14, 14); (0, 0, 9, 9)]%Z in
  (exists out,
      non_max_suppression round53 NMS.argsort (map to_float boxes) None 1 = Some out
      /\ Permutation out boxes)
  /\ (exists c,
         non_max_suppression round53 NMS.argsort (map to_float boxes) None (- (1))
         = Some [c]
         /\ In c boxes).
Proof.
  intros boxes.
  assert (Hpix : Forall pixel_box boxes) by (repeat constructor; simpl; lia).
  assert (Hp : Forall MoreSpec.proper boxes) by (repeat constructor; simpl; lia).
  split.
  - apply (nms_threshold_extremes_pixels round53 NMS.argsort boxes 1
             round53_rounding sorts_insertion Hpix Hp). discriminate.
  - apply (nms_threshold_extremes_pixels round53 NMS.argsort boxes (- (1))
             round53_rounding sorts_insertion Hpix Hp);
      [vm_compute; reflexivity | discriminate].
Defined.

(** X3.  When the union of two boxes is at most 2^53, the double that
    [iou_xyxy] returns is 1 exactly for a box that holds at least one
    pixel against itself. *)
Theorem iou_xyxy_one_iff_doubles (fl : Q -> Q) (a b : ibox) :
  rounding fl -> (MoreSpec.union_area a b <= 2 ^ 53)%Z ->
  (iou_xyxy fl a b == 1 <-> a = b /\ MoreSpec.proper a).
Proof.
  intros R Hu. rewrite (iou_xyxy_rounded fl R).
  split.
  - intros H1.
    destruct (IoUFacts.iou_xyxy_cases a b) as [[_ E]|[H E]].
    + exfalso. rewrite (fl_proper fl R _ _ E), (fl_0 fl R) in H1. discriminate H1.
    + destruct (Z.eq_dec (MoreSpec.inter_area a b) (MoreSpec.union_area a b)) as [Eiu|Hne].
      * apply IoUFacts.iou_one_cases. rewrite E. apply IoUFacts.ratio_one; [lia | exact Eiu].
      * exfalso. apply (Qlt_irrefl 1). rewrite <- H1 at 1.
        apply Qle_lt_trans with (fl (inject_Z (2 ^ 53 - 1) * pow2 (- 53))).
        -- apply (fl_monotone fl R). rewrite E.
           rewrite IoUFacts.ratio_make by lia.
           change (inject_Z (2 ^ 53 - 1) * pow2 (- 53))
             with (inject_Z 9007199254740991 * pow2 (- 53)).
           assert (Ed : inject_Z 9007199254740991 * pow2 (- 53)
                        == 9007199254740991 # 9007199254740992)
             by (vm_compute; reflexivity).
           rewrite Ed. unfold Qle. cbn [Qnum Qden].
           rewrite Z2Pos.id by lia.
           change (2 ^ 53)%Z with 9007199254740992%Z in Hu. lia.
        -- pose proof (fl_exact fl R (2 ^ 53 - 1) 53
                         ltac:(simpl; lia) ltac:(lia)) as Hx.
           change (- (53))%Z with (-53)%Z in Hx. rewrite Hx.
           vm_compute. reflexivity.
  - intros H. apply IoUFacts.iou_one_cases in H.
    rewrite (fl_proper fl R _ _ H). apply (fl_1 fl R).
Qed.

(** X3 on the box of scenario A, and on two boxes whose union is 2^54 + 1:
    their IoU is not 1, but it rounds to the double 1. *)
Lemma iou_xyxy_one_iff_doubles_witness :
  iou_xyxy round53 (10, 10, 50, 50)%Z (10, 10, 50, 50)%Z == 1
  /\ iou_xyxy round53 (- 2 ^ 53, 0, 2 ^ 53, 0)%Z (- 2 ^ 53 + 1, 0, 2 ^ 53, 0)%Z == 1.
Proof.
  split.
  - apply (iou_xyxy_one_iff_doubles round53 (10, 10, 50, 50)%Z (10, 10, 50, 50)%Z
             round53_rounding); [vm_compute; discriminate|].
    split; [reflexivity | simpl; lia].
  - vm_compute. reflexivity.
Defined.

End DoublesFacts.
